(** * Provider adaptation and tool-call reconstruction: a shallow embedding

    The development follows the TypeScript sources:
    - [anthropic-tool-parser.ts]: [parseAnthropicToolCalls],
      [convertAnthropicResponseToParts];
    - [providers/anthropic.ts]: the constructor, the response handling of
      [generateContent], the event loop of [generateContentStream],
      [countTokens] and [convertTools];
    - [providers/base.ts]: [extractPrompt] and [contentsToString];
    - [providers/factory.ts]: [detectProvider];
    - [tools/aider-service.ts]: the command queue of [AiderService] and the
      module-level singleton [getAiderService].

    A JavaScript string is the list of its UTF-16 code units, which is what
    the regular expressions of the sources (none carries the [u] flag)
    and [includes], [startsWith], [substring], [trim] work on. *)

From Stdlib Require Import String Ascii List ZArith NArith Lia Bool Arith.
From Stdlib Require Import Sorted Permutation.
Import ListNotations.

Set Implicit Arguments.
Set Warnings "-register-all".

(* ================================================================== *)
(** * JavaScript strings *)
(* ================================================================== *)

Module JS.

Definition jsstring := list N.

(** A literal of ASCII characters as a JavaScript string. *)
Definition u16 (s : string) : jsstring :=
  map N_of_ascii (list_ascii_of_string s).

Definition dquote : N := 34.

(** The same, with every apostrophe of the literal standing for the
    double quote character, so that literals with quoted attribute values can be written. *)
Definition jq (s : string) : jsstring :=
  map (fun c => if N.eqb c 39 then dquote else c) (u16 s).

Fixpoint str_eqb (a b : jsstring) : bool :=
  match a, b with
  | [], [] => true
  | x :: a', y :: b' => N.eqb x y && str_eqb a' b'
  | _, _ => false
  end.

(** [s.startsWith(p)], returning what follows the prefix. *)
Fixpoint strip_prefix (p s : jsstring) : option jsstring :=
  match p with
  | [] => Some s
  | x :: p' =>
      match s with
      | [] => None
      | y :: s' => if N.eqb x y then strip_prefix p' s' else None
      end
  end.

Definition startsWith (s p : jsstring) : bool :=
  match strip_prefix p s with Some _ => true | None => false end.

(** [s.indexOf(p)]: offset of the first occurrence, [None] for -1. *)
Fixpoint indexOf (s p : jsstring) : option nat :=
  match strip_prefix p s with
  | Some _ => Some 0
  | None =>
      match s with
      | [] => None
      | _ :: s' => option_map S (indexOf s' p)
      end
  end.

Definition includes (s p : jsstring) : bool :=
  match indexOf s p with Some _ => true | None => false end.

(** [s.substring(a, b)] for [a <= b], and [s.substring(a)]. *)
Definition substring (s : jsstring) (a b : nat) : jsstring :=
  firstn (b - a) (skipn a s).

Definition substring_from (s : jsstring) (a : nat) : jsstring := skipn a s.

(** The longest prefix whose code units satisfy [f], and the rest: a
    greedy character-class repetition. *)
Fixpoint span (f : N -> bool) (s : jsstring) : jsstring * jsstring :=
  match s with
  | [] => ([], [])
  | c :: s' =>
      if f c then let (a, b) := span f s' in (c :: a, b) else ([], s)
  end.

Definition in_range (lo hi c : N) : bool := N.leb lo c && N.leb c hi.

(** Line terminators: LF, CR, LS, PS. *)
Definition is_line_terminator (c : N) : bool :=
  N.eqb c 10 || N.eqb c 13 || N.eqb c 8232 || N.eqb c 8233.

(** The class [\s], which is also what [trim] strips: WhiteSpace and
    LineTerminator code units. *)
Definition is_space (c : N) : bool :=
  in_range 9 13 c || N.eqb c 32 || N.eqb c 160 || N.eqb c 5760
  || in_range 8192 8202 c || N.eqb c 8232 || N.eqb c 8233
  || N.eqb c 8239 || N.eqb c 8287 || N.eqb c 12288 || N.eqb c 65279.

Definition is_digit (c : N) : bool := in_range 48 57 c.
Definition is_alpha (c : N) : bool := in_range 65 90 c || in_range 97 122 c.

(** The class [\w]. *)
Definition is_word (c : N) : bool := is_alpha c || is_digit c || N.eqb c 95.

Fixpoint trimStart (s : jsstring) : jsstring :=
  match s with
  | [] => []
  | c :: s' => if is_space c then trimStart s' else s
  end.

Definition trimEnd (s : jsstring) : jsstring := rev (trimStart (rev s)).

Definition trim (s : jsstring) : jsstring := trimEnd (trimStart s).

(** [parts.join(sep)]. *)
Fixpoint join (sep : jsstring) (l : list jsstring) : jsstring :=
  match l with
  | [] => []
  | [x] => x
  | x :: l' => x ++ sep ++ join sep l'
  end.

(** [s.split('\n')]: never empty, the last element is what follows the
    last separator. *)
Fixpoint split_on (sep : N) (s : jsstring) : list jsstring :=
  match s with
  | [] => [[]]
  | c :: s' =>
      if N.eqb c sep then [] :: split_on sep s'
      else match split_on sep s' with
           | [] => [[c]]
           | l :: ls => (c :: l) :: ls
           end
  end.

End JS.

Import JS.

(* ================================================================== *)
(** * Regular expressions of the sources *)
(* ================================================================== *)

(** Each pattern of the sources is embedded as an anchored matcher: given
    the text from the current position on, it returns the captures and the
    length of the match, as the backtracking engine finds them.  Every
    greedy class repetition of these patterns is followed by a literal
    outside the class, and every lazy [[\s\S]*?] by a literal, so the
    engine's first successful path is: the longest class run, and the
    first occurrence of the literal. *)

Module Regex.

(** A matcher anchored at the head of its argument. *)
Definition matcher (A : Type) := jsstring -> option (A * nat).

Record rmatch (A : Type) := RMatch {
  captures : A;
  index : nat;       (* [match.index] *)
  lastIndex : nat    (* [regex.lastIndex] after the match *)
}.

(** The loop [while ((m = re.exec(text)) !== null)] of a global pattern:
    all matches from left to right, each search resuming at the previous
    [lastIndex].  [skip] counts the code units still covered by the
    previous match. *)
Fixpoint exec_all {A} (m : matcher A) (pos skip : nat) (s : jsstring)
  : list (rmatch A) :=
  match s with
  | [] => []
  | _ :: s' =>
      match skip with
      | S k => exec_all m (S pos) k s'
      | O =>
          match m s with
          | Some (a, len) =>
              RMatch a pos (pos + len) :: exec_all m (S pos) (len - 1) s'
          | None => exec_all m (S pos) 0 s'
          end
      end
  end.

(** [text.replace(re, '')] for a global pattern. *)
Fixpoint remove_all {A} (m : matcher A) (skip : nat) (s : jsstring)
  : jsstring :=
  match s with
  | [] => []
  | c :: s' =>
      match skip with
      | S k => remove_all m k s'
      | O =>
          match m s with
          | Some (_, len) => remove_all m (len - 1) s'
          | None => c :: remove_all m 0 s'
          end
      end
  end.

(** The first match of a pattern without the global flag. *)
Fixpoint exec_first {A} (m : matcher A) (pos : nat) (s : jsstring)
  : option (rmatch A) :=
  match s with
  | [] => None
  | _ :: s' =>
      match m s with
      | Some (a, len) => Some (RMatch a pos (pos + len))
      | None => exec_first m (S pos) s'
      end
  end.

(** Expansion of a replacement string for a pattern without capture
    groups: [$$], [$&], [$`] and [$'] are substituted, every other
    dollar sign stays. *)
Fixpoint expand_replacement (repl matched before after : jsstring)
  : jsstring :=
  match repl with
  | [] => []
  | 36 :: 36 :: r => 36 :: expand_replacement r matched before after
  | 36 :: 38 :: r => matched ++ expand_replacement r matched before after
  | 36 :: 96 :: r => before ++ expand_replacement r matched before after
  | 36 :: 39 :: r => after ++ expand_replacement r matched before after
  | c :: r => c :: expand_replacement r matched before after
  end%N.

(** [text.replace(re, repl)] for a pattern without the global flag and
    without capture groups. *)
Definition replace_first {A} (m : matcher A) (repl s : jsstring)
  : jsstring :=
  match exec_first m 0 s with
  | None => s
  | Some r =>
      let before := firstn (index r) s in
      let matched := substring s (index r) (lastIndex r) in
      let after := skipn (lastIndex r) s in
      before ++ expand_replacement repl matched before after ++ after
  end.

(** [open [\s\S]*? close]: returns the lazily matched body. *)
Definition delimited (open close : jsstring) : matcher jsstring :=
  fun s =>
    match strip_prefix open s with
    | None => None
    | Some r =>
        match indexOf r close with
        | None => None
        | Some k =>
            Some (firstn k r, length open + k + length close)
        end
    end.

(** [/<function_result>[\s\S]*?<\/function_result>/] *)
Definition function_result_re : matcher jsstring :=
  delimited (u16 "<function_result>") (u16 "</function_result>").

(** [/<function_calls>([\s\S]*?)<\/function_calls>/] *)
Definition function_calls_re : matcher jsstring :=
  delimited (u16 "<function_calls>") (u16 "</function_calls>").

(** [/<invoke\s+name='([^']+)'>([\s\S]*?)<\/invoke>/], the apostrophe
    standing for the double quote here as in [jq]: captures the name and
    the body. *)
Definition invoke_re : matcher (jsstring * jsstring) :=
  fun s =>
    match strip_prefix (u16 "<invoke") s with
    | None => None
    | Some r1 =>
        let (ws, r2) := span is_space r1 in
        match ws with
        | [] => None
        | _ :: _ =>
            match strip_prefix (jq "name='") r2 with
            | None => None
            | Some r3 =>
                let (name, r4) := span (fun c => negb (N.eqb c dquote)) r3 in
                match name with
                | [] => None
                | _ :: _ =>
                    match strip_prefix (jq "'>") r4 with
                    | None => None
                    | Some r5 =>
                        match indexOf r5 (u16 "</invoke>") with
                        | None => None
                        | Some k =>
                            Some ((name, firstn k r5),
                                  7 + length ws + 6 + length name + 2
                                  + k + 9)
                        end
                    end
                end
            end
        end
    end.

(** [[a-zA-Z_]] and [[a-zA-Z0-9_]]. *)
Definition is_ident_start (c : N) : bool := is_alpha c || N.eqb c 95.
Definition is_ident_char (c : N) : bool := is_word c.

Definition closing_tag (name : jsstring) : jsstring :=
  u16 "</" ++ name ++ u16 ">".

(** [directToolRegex]: [<], a name [[a-zA-Z_][a-zA-Z0-9_]*] (group 1),
    [>], a lazy body [[\s\S]*?] (group 2), then [</], the name of group 1
    again, and [>]. *)
Definition direct_tool_re : matcher (jsstring * jsstring) :=
  fun s =>
    match s with
    | 60%N :: r1 =>
        let (name, r2) := span is_ident_char r1 in
        match name with
        | [] => None
        | c0 :: _ =>
            if is_ident_start c0 then
              match r2 with
              | 62%N :: r3 =>
                  match indexOf r3 (closing_tag name) with
                  | None => None
                  | Some k =>
                      Some ((name, firstn k r3),
                            1 + length name + 1 + k
                            + length (closing_tag name))
                  end
              | _ => None
              end
            else None
        end
    | _ => None
    end.

Definition not_lt (c : N) : bool := negb (N.eqb c 60).

(** [paramRegex]: [<parameter\s+name='], a name [[^']+] (group 1), ['>],
    a value [[^<]*] (group 2), [</parameter>]; the apostrophe stands for
    the double quote. *)
Definition parameter_re : matcher (jsstring * jsstring) :=
  fun s =>
    match strip_prefix (u16 "<parameter") s with
    | None => None
    | Some r1 =>
        let (ws, r2) := span is_space r1 in
        match ws with
        | [] => None
        | _ :: _ =>
            match strip_prefix (jq "name='") r2 with
            | None => None
            | Some r3 =>
                let (name, r4) := span (fun c => negb (N.eqb c dquote)) r3 in
                match name with
                | [] => None
                | _ :: _ =>
                    match strip_prefix (jq "'>") r4 with
                    | None => None
                    | Some r5 =>
                        let (val, r6) := span not_lt r5 in
                        match strip_prefix (u16 "</parameter>") r6 with
                        | None => None
                        | Some _ =>
                            Some ((name, val),
                                  10 + length ws + 6 + length name + 2
                                  + length val + 12)
                        end
                    end
                end
            end
        end
    end.

(** [directParamRegex]: [<], a name [\w+] (group 1), [>], a value
    [[^<]*] (group 2), then [</], the name of group 1 again, and [>]. *)
Definition direct_param_re : matcher (jsstring * jsstring) :=
  fun s =>
    match s with
    | 60%N :: r1 =>
        let (name, r2) := span is_word r1 in
        match name with
        | [] => None
        | _ :: _ =>
            match r2 with
            | 62%N :: r3 =>
                let (val, r4) := span not_lt r3 in
                match strip_prefix (closing_tag name) r4 with
                | None => None
                | Some _ =>
                    Some ((name, val),
                          1 + length name + 1 + length val
                          + length (closing_tag name))
                end
            | _ => None
            end
        end
    | _ => None
    end.

End Regex.

Import Regex.


(* ================================================================== *)
(** * JavaScript values *)
(* ================================================================== *)

(** The values a decoded JSON document and the fields read from it can
    take.  A number is an integer-valued double, kept as its integer;
    [VNaN] is what [undefined + undefined] evaluates to.  An object is the
    list of its own properties in insertion order. *)

Module Value.

Inductive value : Type :=
| VUndefined
| VNull
| VBool (b : bool)
| VNumber (z : Z)
| VNaN
| VString (s : jsstring)
| VArray (l : list value)
| VObject (fields : list (jsstring * value)).

Definition object := list (jsstring * value).

Fixpoint obj_lookup (k : jsstring) (o : object) : option value :=
  match o with
  | [] => None
  | (k', v) :: o' => if str_eqb k k' then Some v else obj_lookup k o'
  end.

(** [k in o], for the keys the sources test, none of which is a property
    of [Object.prototype]. *)
Definition obj_has (k : jsstring) (o : object) : bool :=
  match obj_lookup k o with Some _ => true | None => false end.

(** Definition of an own data property: an existing key keeps its place. *)
Fixpoint obj_define (k : jsstring) (v : value) (o : object) : object :=
  match o with
  | [] => [(k, v)]
  | (k', v') :: o' =>
      if str_eqb k k' then (k', v) :: o' else (k', v') :: obj_define k v o'
  end.

(** The assignment [o[k] = v] on a plain object.  The key [__proto__]
    reaches the accessor of [Object.prototype] and creates no own
    property. *)
Definition obj_assign (k : jsstring) (v : value) (o : object) : object :=
  if str_eqb k (u16 "__proto__") then o else obj_define k v o.

(** [delete o[k]]. *)
Fixpoint obj_delete (k : jsstring) (o : object) : object :=
  match o with
  | [] => []
  | (k', v') :: o' =>
      if str_eqb k k' then obj_delete k o' else (k', v') :: obj_delete k o'
  end.

(** ToBoolean. *)
Definition truthy (v : value) : bool :=
  match v with
  | VUndefined | VNull | VNaN => false
  | VBool b => b
  | VNumber z => negb (Z.eqb z 0)
  | VString s => match s with [] => false | _ :: _ => true end
  | VArray _ | VObject _ => true
  end.

(** [v === 'lit']. *)
Definition is_string (v : value) (lit : jsstring) : bool :=
  match v with
  | VString s => str_eqb s lit
  | _ => false
  end.

(** [v.k]: a TypeError ([None]) on [undefined] and [null]; the property
    names the sources read ([type], [text], [name], [input], [content],
    [usage], ...) are defined on no built-in prototype, so that they are
    [undefined] on every primitive and on arrays. *)
Definition get_prop (v : value) (k : jsstring) : option value :=
  match v with
  | VUndefined | VNull => None
  | VObject o =>
      Some match obj_lookup k o with Some x => x | None => VUndefined end
  | _ => Some VUndefined
  end.

(** [v?.k]. *)
Definition opt_prop (v : value) (k : jsstring) : value :=
  match get_prop v k with Some x => x | None => VUndefined end.

(** [v?.[0]]. *)
Definition opt_index0 (v : value) : value :=
  match v with
  | VArray (x :: _) => x
  | VString (c :: _) => VString [c]
  | VObject o =>
      match obj_lookup (u16 "0") o with Some x => x | None => VUndefined end
  | _ => VUndefined
  end.

(** [a || b]. *)
Definition or_else (a b : value) : value := if truthy a then a else b.

(** 2^53: up to it, the sum of two integer-valued doubles is exact. *)
Definition two53 : Z := 9007199254740992.

(** An integer rounded to the nearest double (ties to even): integers of
    magnitude up to 2^53 are doubles, larger ones keep 53 significant
    bits. *)
Definition round_double (z : Z) : Z :=
  let a := Z.abs z in
  if Z.leb a two53 then z
  else
    let e := (Z.log2 a - 52)%Z in
    let q := Z.shiftr a e in
    let r := (a - Z.shiftl q e)%Z in
    let half := Z.shiftl 1 (e - 1) in
    let q' :=
      if Z.ltb half r then (q + 1)%Z
      else if Z.eqb r half then (if Z.odd q then q + 1 else q)%Z
      else q in
    (Z.sgn z * Z.shiftl q' e)%Z.

End Value.

Import Value.

(* ================================================================== *)
(** * A reference decoder for JSON text *)
(* ================================================================== *)

(** [JSON.parse] belongs to the platform: the embedding of the sources
    takes it as a parameter.  [Json.parse] is a decoder for the JSON
    grammar whose numbers are integers, to run the embedding on concrete
    inputs. *)

Module Json.

Definition is_ws (c : N) : bool :=
  N.eqb c 32 || N.eqb c 9 || N.eqb c 10 || N.eqb c 13.

Fixpoint skip_ws (s : jsstring) : jsstring :=
  match s with
  | [] => []
  | c :: s' => if is_ws c then skip_ws s' else s
  end.

Definition hex_val (c : N) : option N :=
  if in_range 48 57 c then Some (c - 48)%N
  else if in_range 97 102 c then Some (c - 87)%N
  else if in_range 65 70 c then Some (c - 55)%N
  else None.

Definition hex4 (a b c d : N) : option N :=
  match hex_val a, hex_val b, hex_val c, hex_val d with
  | Some x, Some y, Some z, Some w =>
      Some (((x * 16 + y) * 16 + z) * 16 + w)%N
  | _, _, _, _ => None
  end.

(** The characters of a string literal after its opening quote. *)
Fixpoint parse_chars (fuel : nat) (s : jsstring)
  : option (jsstring * jsstring) :=
  match fuel with
  | O => None
  | S f =>
      match s with
      | [] => None
      | 34%N :: r => Some ([], r)
      | 92%N :: e :: r =>
          let esc (c : N) (r' : jsstring) :=
            match parse_chars f r' with
            | Some (t, r'') => Some (c :: t, r'')
            | None => None
            end in
          match e with
          | 34%N => esc 34%N r
          | 92%N => esc 92%N r
          | 47%N => esc 47%N r
          | 98%N => esc 8%N r
          | 102%N => esc 12%N r
          | 110%N => esc 10%N r
          | 114%N => esc 13%N r
          | 116%N => esc 9%N r
          | 117%N =>
              match r with
              | a :: b :: c :: d :: r' =>
                  match hex4 a b c d with
                  | Some u => esc u r'
                  | None => None
                  end
              | _ => None
              end
          | _ => None
          end
      | c :: r =>
          if N.ltb c 32 then None
          else match parse_chars f r with
               | Some (t, r') => Some (c :: t, r')
               | None => None
               end
      end
  end.

Definition digits_value (ds : jsstring) : Z :=
  fold_left (fun acc c => (acc * 10 + Z.of_N (c - 48))%Z) ds 0%Z.

(** An integer literal: [0] or a digit run without leading zero; a
    fraction or an exponent is outside the fragment. *)
Definition parse_nat (s : jsstring) : option (Z * jsstring) :=
  let (ds, r) := span is_digit s in
  match ds with
  | [] => None
  | d :: ds' =>
      let leading_zero :=
        N.eqb d 48 && match ds' with [] => false | _ :: _ => true end in
      let continues :=
        match r with
        | c :: _ => N.eqb c 46 || N.eqb c 101 || N.eqb c 69
        | [] => false
        end in
      if leading_zero || continues then None
      else Some (digits_value ds, r)
  end.

Section Composite.

Variable parse_value : jsstring -> option (value * jsstring).

Fixpoint parse_elements (fuel : nat) (acc : list value) (s : jsstring)
  : option (list value * jsstring) :=
  match fuel with
  | O => None
  | S f =>
      match parse_value s with
      | None => None
      | Some (v, r) =>
          match skip_ws r with
          | 44%N :: r' => parse_elements f (acc ++ [v]) r'
          | 93%N :: r' => Some (acc ++ [v], r')
          | _ => None
          end
      end
  end.

Fixpoint parse_members (fuel : nat) (acc : object) (s : jsstring)
  : option (object * jsstring) :=
  match fuel with
  | O => None
  | S f =>
      match skip_ws s with
      | 34%N :: r =>
          match parse_chars (S (length r)) r with
          | None => None
          | Some (k, r1) =>
              match skip_ws r1 with
              | 58%N :: r2 =>
                  match parse_value r2 with
                  | None => None
                  | Some (v, r3) =>
                      match skip_ws r3 with
                      | 44%N :: r4 => parse_members f (obj_define k v acc) r4
                      | 125%N :: r4 => Some (obj_define k v acc, r4)
                      | _ => None
                      end
                  end
              | _ => None
              end
          end
      | _ => None
      end
  end.

End Composite.

Fixpoint parse_value (fuel : nat) (s : jsstring)
  : option (value * jsstring) :=
  match fuel with
  | O => None
  | S f =>
      match skip_ws s with
      | 123%N :: r =>
          match skip_ws r with
          | 125%N :: r' => Some (VObject [], r')
          | _ =>
              match parse_members (parse_value f) (S (length r)) [] r with
              | Some (o, r') => Some (VObject o, r')
              | None => None
              end
          end
      | 91%N :: r =>
          match skip_ws r with
          | 93%N :: r' => Some (VArray [], r')
          | _ =>
              match parse_elements (parse_value f) (S (length r)) [] r with
              | Some (l, r') => Some (VArray l, r')
              | None => None
              end
          end
      | 34%N :: r =>
          match parse_chars (S (length r)) r with
          | Some (t, r') => Some (VString t, r')
          | None => None
          end
      | 45%N :: r =>
          match parse_nat r with
          | Some (z, r') => Some (VNumber (- z), r')
          | None => None
          end
      | c :: r =>
          if is_digit c then
            match parse_nat (c :: r) with
            | Some (z, r') => Some (VNumber z, r')
            | None => None
            end
          else
            match strip_prefix (u16 "true") (c :: r) with
            | Some r' => Some (VBool true, r')
            | None =>
                match strip_prefix (u16 "false") (c :: r) with
                | Some r' => Some (VBool false, r')
                | None =>
                    match strip_prefix (u16 "null") (c :: r) with
                    | Some r' => Some (VNull, r')
                    | None => None
                    end
                end
            end
      | [] => None
      end
  end.

(** [None] stands for the SyntaxError that [JSON.parse] throws. *)
Definition parse (s : jsstring) : option value :=
  match parse_value (S (length s)) s with
  | Some (v, r) => match skip_ws r with [] => Some v | _ :: _ => None end
  | None => None
  end.

End Json.


(* ================================================================== *)
(** * anthropic-tool-parser.ts *)
(* ================================================================== *)

Module ToolParser.

(** An element of the array [toolCalls]. *)
Record ToolCall := mkToolCall {
  name : jsstring;
  params : jsstring;
  start : nat;
  end_ : nat
}.

(** A [FunctionCall] as the parser builds it. *)
Record FunctionCall := mkFunctionCall {
  fc_name : jsstring;
  fc_args : object
}.

Record ParseResult := mkParseResult {
  textParts : list jsstring;
  functionCalls : list FunctionCall
}.

(** A [Part] as [convertAnthropicResponseToParts] builds it. *)
Inductive Part : Type :=
| PText (text : jsstring)
| PFunctionCall (functionCall : FunctionCall).

(** [text.replace(/<function_result>[\s\S]*?<\/function_result>/g, '')] *)
Definition removeFabricated (text : jsstring) : jsstring :=
  remove_all function_result_re 0 text.

(** The contents of the [<function_calls>] blocks, [tempMatch[1]]. *)
Definition functionCallBlocks (text : jsstring) : list jsstring :=
  map (@captures _) (exec_all function_calls_re 0 0 text).

(** Each block in turn replaces the first wrapper still present. *)
Definition unwrapFunctionCalls (text : jsstring) : jsstring :=
  fold_left
    (fun processedText block =>
       replace_first function_calls_re block processedText)
    (functionCallBlocks text) text.

Definition toolCallOfMatch (m : rmatch (jsstring * jsstring)) : ToolCall :=
  mkToolCall (fst (captures m)) (snd (captures m)) (index m) (lastIndex m).

(** The invoke-style calls, in order of appearance. *)
Definition invokeCalls (text : jsstring) : list ToolCall :=
  map toolCallOfMatch (exec_all invoke_re 0 0 text).

(** The test of [toolCalls.some] on a direct match. *)
Definition overlaps (toolCalls : list ToolCall) (matchStart matchEnd : nat)
  : bool :=
  existsb
    (fun tc =>
       ((start tc <=? matchStart) && (matchStart <? end_ tc))
       || ((start tc <? matchEnd) && (matchEnd <=? end_ tc)))
    toolCalls.

(** The second loop: a direct match is pushed unless it overlaps a call
    already in the array. *)
Definition addDirectCalls (text : jsstring) (toolCalls : list ToolCall)
  : list ToolCall :=
  fold_left
    (fun tcs m =>
       if overlaps tcs (index m) (lastIndex m) then tcs
       else tcs ++ [toolCallOfMatch m])
    (exec_all direct_tool_re 0 0 text) toolCalls.

(** [toolCalls.sort((a, b) => a.start - b.start)]; the sort of the
    platform is stable. *)
Fixpoint insertByStart (tc : ToolCall) (l : list ToolCall) : list ToolCall :=
  match l with
  | [] => [tc]
  | x :: l' =>
      if start tc <=? start x then tc :: l else x :: insertByStart tc l'
  end.

Definition sortByStart (l : list ToolCall) : list ToolCall :=
  fold_right insertByStart [] l.

(** The order the sort establishes. *)
Definition byStart (a b : ToolCall) : Prop := start a <= start b.

(** The array [toolCalls] when the processing loop starts. *)
Definition collectToolCalls (text : jsstring) : list ToolCall :=
  sortByStart (addDirectCalls text (invokeCalls text)).

Section WithJson.

(** [JSON.parse], with [None] for a thrown SyntaxError. *)
Variable JSON_parse : jsstring -> option value.

(** The value stored for a parameter: decoded when it looks like an array
    or an object and decodes, else the trimmed text. *)
Definition paramValue (raw : jsstring) : value :=
  let paramValue := trim raw in
  if startsWith paramValue (u16 "[") || startsWith paramValue (u16 "{")
  then match JSON_parse paramValue with
       | Some v => v
       | None => VString paramValue
       end
  else VString paramValue.

Definition assignParams (ms : list (rmatch (jsstring * jsstring)))
  (args : object) : object :=
  fold_left
    (fun args m =>
       obj_assign (fst (captures m)) (paramValue (snd (captures m))) args)
    ms args.

(** Format 1 when it matches at least once, else format 2. *)
Definition parseArgs (paramBlock : jsstring) : object :=
  match exec_all parameter_re 0 0 paramBlock with
  | [] => assignParams (exec_all direct_param_re 0 0 paramBlock) []
  | ms => assignParams ms []
  end.

(** [if (from in o && !(to in o)) { o[to] = o[from]; delete o[from]; }],
    with the value telling whether the branch was taken. *)
Definition rename (from to : jsstring) (o : object) : object * bool :=
  match obj_lookup from o with
  | Some v =>
      if obj_has to o then (o, false)
      else (obj_delete from (obj_assign to v o), true)
  | None => (o, false)
  end.

Definition mapArgs (toolName : jsstring) (args : object) : object :=
  let m1 :=
    if str_eqb toolName (u16 "read_file")
    then fst (rename (u16 "path") (u16 "absolute_path") args) else args in
  let m2 :=
    if str_eqb toolName (u16 "run_shell_command")
    then fst (rename (u16 "cmd") (u16 "command") m1) else m1 in
  let m3 :=
    if str_eqb toolName (u16 "ls")
    then
      let (o, taken) := rename (u16 "directory") (u16 "path") m2 in
      if taken then o else fst (rename (u16 "dir") (u16 "path") m2)
    else m2 in
  let m4 :=
    if str_eqb toolName (u16 "write_file")
    then
      fst (rename (u16 "path") (u16 "absolute_path")
             (fst (rename (u16 "content") (u16 "contents") m3)))
    else m3 in
  m4.

(** The function call that the processing loop pushes for a candidate. *)
Definition functionCallOf (tc : ToolCall) : FunctionCall :=
  mkFunctionCall (name tc)
    (mapArgs (name tc) (parseArgs (params tc))).

(** The state of the processing loop. *)
Record LoopState := mkLoopState {
  lastIndex_ : nat;
  acc_text : list jsstring;
  acc_calls : list FunctionCall
}.

(** One iteration of [for (const toolCall of toolCalls)]. *)
Definition processToolCall (text : jsstring) (st : LoopState)
  (toolCall : ToolCall) : LoopState :=
  let texts :=
    if lastIndex_ st <? start toolCall then
      let textBefore := trim (substring text (lastIndex_ st) (start toolCall)) in
      match textBefore with
      | [] => acc_text st
      | _ :: _ => acc_text st ++ [textBefore]
      end
    else acc_text st in
  mkLoopState (end_ toolCall) texts (acc_calls st ++ [functionCallOf toolCall]).

(** The text of the function after the removal of fabricated results and
    the unwrapping of [<function_calls>]. *)
Definition preprocess (text : jsstring) : jsstring :=
  unwrapFunctionCalls (removeFabricated text).

Definition parseAnthropicToolCalls (input : jsstring) : ParseResult :=
  let text := preprocess input in
  let toolCalls := collectToolCalls text in
  let st := fold_left (processToolCall text) toolCalls (mkLoopState 0 [] []) in
  let texts :=
    if lastIndex_ st <? length text then
      let textAfter := trim (substring_from text (lastIndex_ st)) in
      match textAfter with
      | [] => acc_text st
      | _ :: _ => acc_text st ++ [textAfter]
      end
    else acc_text st in
  match acc_calls st with
  | [] => mkParseResult [text] []
  | _ :: _ => mkParseResult texts (acc_calls st)
  end.

Definition convertAnthropicResponseToParts (text : jsstring) : list Part :=
  let r := parseAnthropicToolCalls text in
  let combinedText := trim (join [10%N] (textParts r)) in
  let parts :=
    match combinedText with
    | [] => []
    | _ :: _ => [PText combinedText]
    end in
  parts ++ map PFunctionCall (functionCalls r).

End WithJson.

End ToolParser.

Import ToolParser.


(** ** Texts made of invoke-style calls and plain text *)

(** The texts that the ordering property is about: invoke-style calls
    written out in full, each after a stretch of text, and a last stretch
    of text. *)

Module Layout.

(** An invoke-style call as it is written: the white space after
    [<invoke], the name and the body. *)
Record InvokeCall := mkInvoke {
  inv_space : jsstring;
  inv_name : jsstring;
  inv_body : jsstring
}.

Definition renderInvoke (c : InvokeCall) : jsstring :=
  u16 "<invoke" ++ inv_space c ++ jq "name='" ++ inv_name c ++ jq "'>"
  ++ inv_body c ++ u16 "</invoke>".

Definition not_quote (c : N) : bool := negb (N.eqb c dquote).

(** The call is one the pattern reads back as written: some white
    space, a name without double quote, and a body whose first
    [</invoke>] is the one that closes the call. *)
Definition wellFormed (c : InvokeCall) : bool :=
  match inv_space c, inv_name c with
  | _ :: _, _ :: _ =>
      forallb is_space (inv_space c)
      && forallb not_quote (inv_name c)
      && match indexOf (inv_body c ++ u16 "</invoke>") (u16 "</invoke>") with
         | Some k => k =? length (inv_body c)
         | None => false
         end
  | _, _ => false
  end.

(** Text without the character [<]: no tag of any kind. *)
Definition plain (t : jsstring) : bool := forallb not_lt t.

(** Each call after the text that precedes it, then the last text. *)
Fixpoint layout (segments : list (jsstring * InvokeCall)) (last : jsstring)
  : jsstring :=
  match segments with
  | [] => last
  | (t, c) :: rest => t ++ renderInvoke c ++ layout rest last
  end.

Definition wellFormedSegment (seg : jsstring * InvokeCall) : bool :=
  plain (fst seg) && wellFormed (snd seg).

(** The matches of the invoke pattern in a layout that starts at offset
    [pos]. *)
Fixpoint spans (pos : nat) (segments : list (jsstring * InvokeCall))
  : list (rmatch (jsstring * jsstring)) :=
  match segments with
  | [] => []
  | (t, c) :: rest =>
      let start := pos + length t in
      let stop := start + length (renderInvoke c) in
      RMatch (inv_name c, inv_body c) start stop :: spans stop rest
  end.

(** The text segments that the processing loop keeps: trimmed, and
    dropped when nothing is left. *)
Fixpoint keptTexts (texts : list jsstring) : list jsstring :=
  match texts with
  | [] => []
  | t :: ts =>
      match trim t with
      | [] => keptTexts ts
      | x :: r => (x :: r) :: keptTexts ts
      end
  end.

(** The function call that the processing loop pushes for a call of a
    layout: it depends on the name and the body only. *)
Definition invocationOf (JSON_parse : jsstring -> option value)
  (c : InvokeCall) : FunctionCall :=
  functionCallOf JSON_parse (mkToolCall (inv_name c) (inv_body c) 0 0).

End Layout.

(* ================================================================== *)
(** * providers/anthropic.ts *)
(* ================================================================== *)

Module Anthropic.

(** A thrown exception. *)
Inductive error : Type :=
| TypeError
| Error (message : jsstring).

Inductive outcome (A : Type) : Type :=
| Ok (a : A)
| Throw (e : error).

Arguments Ok {A} a.
Arguments Throw {A} e.

(** An element of [parts]: [{ text }] or [{ functionCall: { name, args } }],
    the fields holding whatever the response carried. *)
Inductive Part : Type :=
| TextPart (text : value)
| FunctionCallPart (name args : value).

Definition isFunctionCallPart (p : Part) : bool :=
  match p with FunctionCallPart _ _ => true | TextPart _ => false end.

Record UsageMetadata := mkUsage {
  promptTokenCount : value;
  candidatesTokenCount : value;
  totalTokenCount : value
}.

(** What [generateContent] returns: [text], the parts and the finish
    reason of its single candidate, and [usageMetadata]. *)
Record Response := mkResponse {
  text : jsstring;
  parts : list Part;
  finishReason : value;
  usageMetadata : UsageMetadata
}.

(** What [generateContentStream] yields; [usage] is [None] where the
    field is absent or [undefined]. *)
Record Chunk := mkChunk {
  chunk_text : value;
  chunk_parts : list Part;
  chunk_finishReason : value;
  chunk_usage : option UsageMetadata
}.

(** [currentToolCall] when it is not [null]. *)
Record PendingToolCall := mkPending {
  pending_name : value;
  pending_input : jsstring
}.

Definition partOfFunctionCall (fc : FunctionCall) : Part :=
  FunctionCallPart (VString (fc_name fc)) (VObject (fc_args fc)).

Section WithPlatform.

Variable JSON_parse : jsstring -> option value.

(** ToString on the values that are not strings. *)
Variable ToString_other : value -> jsstring.

Definition ToString (v : value) : jsstring :=
  match v with
  | VString s => s
  | _ => ToString_other v
  end.

(** ToNumber on the primitives that are not strings; [None] is NaN. *)
Definition ToNumber (v : value) : option Z :=
  match v with
  | VNull => Some 0%Z
  | VBool b => Some (if b then 1 else 0)%Z
  | VNumber z => Some z
  | _ => None
  end.

(** The operator [+]: concatenation as soon as an operand is a string or
    an object, else the sum of doubles. *)
Definition js_add (a b : value) : value :=
  let stringish v :=
    match v with VString _ | VArray _ | VObject _ => true | _ => false end in
  if stringish a || stringish b then VString (ToString a ++ ToString b)
  else match ToNumber a, ToNumber b with
       | Some x, Some y => VNumber (round_double (x + y))
       | _, _ => VNaN
       end.

Definition usageOf (usage : value) : UsageMetadata :=
  let input_tokens := opt_prop usage (u16 "input_tokens") in
  let output_tokens := opt_prop usage (u16 "output_tokens") in
  mkUsage input_tokens output_tokens (js_add input_tokens output_tokens).

(** *** generateContent, from the decoded response body on *)

(** The accumulators [text], [parts] and [functionCalls]. *)
Record Acc := mkAcc {
  acc_text : jsstring;
  acc_parts : list Part;
  acc_functionCalls : list Part
}.

(** One iteration of [for (const contentBlock of data.content)]. *)
Definition processContentBlock (acc : Acc) (contentBlock : value)
  : outcome Acc :=
  match get_prop contentBlock (u16 "type") with
  | None => Throw TypeError
  | Some ty =>
      let field k := opt_prop contentBlock k in
      if is_string ty (u16 "text") then
        Ok (mkAcc
              (acc_text acc ++ ToString (or_else (field (u16 "text")) (VString [])))
              (acc_parts acc ++ [TextPart (field (u16 "text"))])
              (acc_functionCalls acc))
      else if is_string ty (u16 "tool_use") then
        let functionCall :=
          FunctionCallPart (field (u16 "name"))
            (or_else (field (u16 "input")) (VObject [])) in
        Ok (mkAcc (acc_text acc)
              (acc_parts acc ++ [functionCall])
              (acc_functionCalls acc ++ [functionCall]))
      else Ok acc
  end.

Fixpoint processContentBlocks (acc : Acc) (blocks : list value)
  : outcome Acc :=
  match blocks with
  | [] => Ok acc
  | b :: bs =>
      match processContentBlock acc b with
      | Ok acc' => processContentBlocks acc' bs
      | Throw e => Throw e
      end
  end.

(** The fallback branch, taken when [data.content] is not an array. *)
Definition fallbackParts (content : value) : outcome Acc :=
  let text :=
    or_else (opt_prop (opt_index0 content) (u16 "text")) (VString []) in
  match text with
  | VString text =>
      let parsed := parseAnthropicToolCalls JSON_parse text in
      let functionCalls := map partOfFunctionCall (functionCalls parsed) in
      let parts :=
        match text, functionCalls with
        | _ :: _, [] => [TextPart (VString text)]
        | _, _ => functionCalls
        end in
      Ok (mkAcc text parts functionCalls)
  | _ => Throw TypeError   (* [text.includes] or [text.replace] is no function *)
  end.

(** [generateContent] once [data = await response.json()] is there. *)
Definition responseOfData (data : value) : outcome Response :=
  match get_prop data (u16 "content") with
  | None => Throw TypeError
  | Some content =>
      let acc :=
        match content with
        | VArray blocks => processContentBlocks (mkAcc [] [] []) blocks
        | _ => fallbackParts content
        end in
      match acc with
      | Throw e => Throw e
      | Ok acc =>
          let parts :=
            match acc_parts acc, acc_text acc with
            | [], _ :: _ => [TextPart (VString (acc_text acc))]
            | ps, _ => ps
            end in
          let stop_reason := opt_prop data (u16 "stop_reason") in
          Ok (mkResponse (acc_text acc) parts
                (if is_string stop_reason (u16 "end_turn")
                 then VString (u16 "STOP") else stop_reason)
                (usageOf (opt_prop data (u16 "usage"))))
      end
  end.

(** *** generateContentStream, from the decoded chunks on *)

(** The body of the inner [try] on a decoded event: the new
    [currentToolCall] and what is yielded, or [None] when the body
    throws (into the [catch], which only warns). *)
Definition handleEvent (currentToolCall : option PendingToolCall)
  (parsed : value) : option (option PendingToolCall * list Chunk) :=
  match get_prop parsed (u16 "type") with
  | None => None
  | Some ty =>
      let delta := opt_prop parsed (u16 "delta") in
      let content_block := opt_prop parsed (u16 "content_block") in
      if is_string ty (u16 "content_block_delta")
         && truthy (opt_prop delta (u16 "text")) then
        let t := opt_prop delta (u16 "text") in
        Some (currentToolCall, [mkChunk t [TextPart t] VUndefined None])
      else if is_string ty (u16 "content_block_start")
              && is_string (opt_prop content_block (u16 "type"))
                   (u16 "tool_use") then
        Some (Some (mkPending (opt_prop content_block (u16 "name")) []), [])
      else if is_string ty (u16 "content_block_delta")
              && truthy (opt_prop delta (u16 "partial_json")) then
        match currentToolCall with
        | Some tc =>
            Some (Some (mkPending (pending_name tc)
                          (pending_input tc
                           ++ ToString (opt_prop delta (u16 "partial_json")))),
                  [])
        | None => Some (None, [])
        end
      else
        match is_string ty (u16 "content_block_stop"), currentToolCall with
        | true, Some tc =>
            let args :=
              match JSON_parse (pending_input tc) with
              | Some v => v
              | None => VObject []
              end in
            Some (None,
                  [mkChunk (VString [])
                     [FunctionCallPart (pending_name tc) args]
                     VUndefined None])
        | _, _ =>
            if is_string ty (u16 "message_stop") then
              let usage := opt_prop parsed (u16 "usage") in
              Some (currentToolCall,
                    [mkChunk (VString []) [TextPart (VString [])]
                       (VString (u16 "STOP"))
                       (if truthy usage then Some (usageOf usage) else None)])
            else Some (currentToolCall, [])
        end
  end.

(** One iteration of [for (const line of lines)]. *)
Definition handleLine (currentToolCall : option PendingToolCall)
  (line : jsstring) : option PendingToolCall * list Chunk :=
  match strip_prefix (u16 "data: ") line with
  | None => (currentToolCall, [])
  | Some data =>
      if str_eqb data (u16 "[DONE]") then (currentToolCall, [])
      else
        match JSON_parse data with
        | None => (currentToolCall, [])
        | Some parsed =>
            match handleEvent currentToolCall parsed with
            | Some r => r
            | None => (currentToolCall, [])
            end
        end
  end.

Fixpoint handleLines (currentToolCall : option PendingToolCall)
  (lines : list jsstring) : option PendingToolCall * list Chunk :=
  match lines with
  | [] => (currentToolCall, [])
  | l :: ls =>
      let (c1, out1) := handleLine currentToolCall l in
      let (c2, out2) := handleLines c1 ls in
      (c2, out1 ++ out2)
  end.

(** The body of the inner [try] run on decoded events one after the
    other.  The loop over the lines does this on the events that the
    lines carry (lemma [handleLines_eventOf]), so that the generator
    yields, for every body, what [handleEvents] yields on the events of
    its whole lines (lemma [stream_eventsOf]). *)
Fixpoint handleEvents (currentToolCall : option PendingToolCall)
  (events : list value) : option PendingToolCall * list Chunk :=
  match events with
  | [] => (currentToolCall, [])
  | e :: es =>
      let (c1, out1) :=
        match handleEvent currentToolCall e with
        | Some r => r
        | None => (currentToolCall, [])
        end in
      let (c2, out2) := handleEvents c1 es in
      (c2, out1 ++ out2)
  end.

Record StreamState := mkStreamState {
  buffer : jsstring;
  currentToolCall : option PendingToolCall
}.

(** One iteration of [while (true)] on a decoded chunk of the body. *)
Definition handleChunk (st : StreamState) (decoded : jsstring)
  : StreamState * list Chunk :=
  let lines := split_on 10 (buffer st ++ decoded) in
  let (c, out) := handleLines (currentToolCall st) (removelast lines) in
  (mkStreamState (last lines []) c, out).

(** Everything the generator yields for a body that arrives as the
    given chunks, until [done]. *)
Fixpoint streamFrom (st : StreamState) (chunks : list jsstring)
  : list Chunk :=
  match chunks with
  | [] => []
  | c :: cs =>
      let (st', out) := handleChunk st c in
      out ++ streamFrom st' cs
  end.

Definition generateContentStream (chunks : list jsstring) : list Chunk :=
  streamFrom (mkStreamState [] None) chunks.

End WithPlatform.

End Anthropic.

(** The decoded events of the stream that concern a tool call, as the
    wire format has them. *)

Module StreamEvents.

Import Anthropic.

Definition toolBlockStart (name : jsstring) : value :=
  VObject
    [(u16 "type", VString (u16 "content_block_start"));
     (u16 "index", VNumber 1);
     (u16 "content_block",
      VObject [(u16 "type", VString (u16 "tool_use"));
               (u16 "name", VString name)])].

Definition toolArgumentDelta (partial_json : jsstring) : value :=
  VObject
    [(u16 "type", VString (u16 "content_block_delta"));
     (u16 "index", VNumber 1);
     (u16 "delta",
      VObject [(u16 "type", VString (u16 "input_json_delta"));
               (u16 "partial_json", VString partial_json)])].

Definition toolBlockStop : value :=
  VObject
    [(u16 "type", VString (u16 "content_block_stop"));
     (u16 "index", VNumber 1)].

Definition messageStop : value :=
  VObject [(u16 "type", VString (u16 "message_stop"))].

(** The fragment that carries one invocation. *)
Definition invocationChunk (name args : value) : Chunk :=
  mkChunk (VString []) [FunctionCallPart name args] VUndefined None.

Definition isInvocationChunk (c : Chunk) : bool :=
  existsb isFunctionCallPart (chunk_parts c).

End StreamEvents.

(* ================================================================== *)
(** * providers/factory.ts *)
(* ================================================================== *)

Module Factory.

(** [process.env], for the variables the providers read; [None] is an
    unset variable. *)
Record Env := mkEnv {
  ANTHROPIC_AUTH_TOKEN : option jsstring;
  ANTHROPIC_BASE_URL : option jsstring;
  ANTHROPIC_MODEL : option jsstring
}.

(** The fields of an [AnthropicProvider]. *)
Record AnthropicProvider := mkProvider {
  authToken : jsstring;
  baseUrl : jsstring;
  model : jsstring
}.

(** A [ModelProviderAdapter] around its provider. *)
Record ModelProviderAdapter := mkAdapter {
  provider : AnthropicProvider
}.

(** Calls of [console.log] and [console.debug], with their arguments. *)
Inductive effect : Type :=
| ConsoleLog (args : list jsstring)
| ConsoleDebug (args : list jsstring).

Inductive result : Type :=
| ReturnNull
| ReturnAdapter (a : ModelProviderAdapter)
| ThrowError (message : jsstring).

(** [!v] on an optional string: unset or empty. *)
Definition falsy (v : option jsstring) : bool :=
  match v with
  | None | Some [] => true
  | Some (_ :: _) => false
  end.

(** [a || b] on optional strings. *)
Definition or_str (a : option jsstring) (b : jsstring) : jsstring :=
  match a with
  | Some (c :: s) => c :: s
  | _ => b
  end.

(** [new AnthropicProvider(authToken, baseUrl, model)]; [None] is an
    omitted argument. *)
Definition newAnthropicProvider (env : Env)
  (authToken baseUrl model : option jsstring)
  : AnthropicProvider + jsstring :=
  let authToken := or_str authToken (or_str (ANTHROPIC_AUTH_TOKEN env) []) in
  let baseUrl :=
    or_str baseUrl
      (or_str (ANTHROPIC_BASE_URL env) (u16 "https://api.anthropic.com")) in
  let model :=
    or_str model
      (or_str (ANTHROPIC_MODEL env) (u16 "claude-3-opus-20240229")) in
  match authToken with
  | [] => inr (u16 "ANTHROPIC_AUTH_TOKEN is required")
  | _ :: _ => inl (mkProvider authToken baseUrl model)
  end.

Definition createCustomAnthropicProvider (env : Env) : result :=
  match newAnthropicProvider env None None None with
  | inl p => ReturnAdapter (mkAdapter p)
  | inr msg => ThrowError msg
  end.

Definition notConfiguredMessage (modelName : jsstring) : jsstring :=
  u16 "Anthropic model '" ++ modelName
  ++ u16 "' requested but environment not configured." ++ [10%N]
  ++ u16 "Please set:" ++ [10%N]
  ++ u16 "  export ANTHROPIC_AUTH_TOKEN=your-token" ++ [10%N]
  ++ u16 "  export ANTHROPIC_BASE_URL=your-base-url" ++ [10%N]
  ++ u16 "  export ANTHROPIC_MODEL=your-model (optional)".

(** The code units of the wrench emoji U+1F527 that opens a log line. *)
Definition wrench : jsstring := [55357%N; 56615%N].

Section WithPlatform.

(** [String.prototype.toLowerCase]. *)
Variable toLowerCase : jsstring -> jsstring.

(** The test of [detectProvider] for a request of the Anthropic family. *)
Definition isAnthropicModel (modelName : jsstring) : bool :=
  let modelLower := toLowerCase modelName in
  includes modelLower (u16 "claude") || includes modelLower (u16 "anthropic").

(** [detectProvider(modelName)]: what it returns or throws, and the
    console calls it makes before. *)
Definition detectProvider (env : Env) (modelName : option jsstring)
  : result * list effect :=
  if falsy modelName then (ReturnNull, [])
  else
    let modelName := or_str modelName [] in
    let modelLower := toLowerCase modelName in
    if isAnthropicModel modelName then
      if falsy (ANTHROPIC_AUTH_TOKEN env) || falsy (ANTHROPIC_BASE_URL env)
      then (ThrowError (notConfiguredMessage modelName), [])
      else
        (createCustomAnthropicProvider env,
         [ConsoleLog [wrench ++ u16 " Using Anthropic provider for model:";
                      modelName];
          ConsoleLog [u16 "   Base URL: "
                      ++ or_str (ANTHROPIC_BASE_URL env) []]])
    else if includes modelLower (u16 "gemini")
            || includes modelLower (u16 "bison")
            || includes modelLower (u16 "gecko") then
      (ReturnNull, [])
    else
      (ReturnNull,
       [ConsoleDebug
          [u16 "Model '" ++ modelName
           ++ u16 "' not recognized as alternative provider, using Gemini path"]]).

End WithPlatform.

(** Lower-casing of the ASCII letters, every other code unit kept: what
    [toLowerCase] does on ASCII text. *)
Definition asciiLower (s : jsstring) : jsstring :=
  map (fun c => if in_range 65 90 c then (c + 32)%N else c) s.

End Factory.

(* ================================================================== *)
(** * tools/aider-service.ts *)
(* ================================================================== *)

Module Aider.

(** The part of [Config] the service reads. *)
Record Config := mkConfig {
  getTargetDir : jsstring
}.

(** An [AiderCommand].  [cmd] identifies the object: its callbacks
    [resolve] and [reject] settle the promise of that one call of
    [execute] (or of [updateRepoMap]). *)
Record AiderCommand := mkCommand {
  cmd : nat;
  id : jsstring;
  instruction : jsstring;
  files : option (list jsstring)
}.

(** A call of a command's [resolve] or [reject]. *)
Inductive settlement : Type :=
| Resolved (c : nat) (result : jsstring)
| Rejected (c : nat) (error : jsstring).

Definition settled_cmd (s : settlement) : nat :=
  match s with Resolved c _ | Rejected c _ => c end.

Definition is_rejected_with (error : jsstring) (s : settlement) : bool :=
  match s with
  | Rejected _ e => str_eqb e error
  | Resolved _ _ => false
  end.

(** The fields of an [AiderService] and what it has done so far: the
    lines written to the child's stdin, the 30 s timeouts armed and not
    yet fired (each remembered with the command dispatched when it was
    armed), and the settlements, oldest first. *)
Record AiderService := mkService {
  config : Config;
  aiderProcess : bool;                  (* [false] is [null] *)
  commandQueue : list AiderCommand;
  currentCommand : option AiderCommand;
  outputBuffer : jsstring;
  stdin : list jsstring;
  timers : list nat;
  settlements : list settlement
}.

Definition newAiderService (config : Config) : AiderService :=
  mkService config false [] None [] [] [] [].

(** The commands a service still owes a settlement: the one in flight,
    then the queue. *)
Definition pending (s : AiderService) : list AiderCommand :=
  match currentCommand s with
  | Some c => c :: commandQueue s
  | None => commandQueue s
  end.

(** [/\x1b\[[0-9;]*m/] *)
Definition ansi_re : matcher unit :=
  fun s =>
    match s with
    | 27%N :: 91%N :: r =>
        let (ds, r') := span (fun c => is_digit c || N.eqb c 59) r in
        match r' with
        | 109%N :: _ => Some (tt, 2 + length ds + 1)
        | _ => None
        end
    | _ => None
    end.

(** [text.replace(re, '')] for a global multiline pattern that starts
    with the assertion of a line start; [bol] tells whether the current
    position starts a line. *)
Fixpoint remove_all_bol {A} (m : matcher A) (bol : bool) (skip : nat)
  (s : jsstring) : jsstring :=
  match s with
  | [] => []
  | c :: s' =>
      let bol' := is_line_terminator c in
      match skip with
      | S k => remove_all_bol m bol' k s'
      | O =>
          match (if bol then m s else None) with
          | Some (_, len) => remove_all_bol m bol' (len - 1) s'
          | None => c :: remove_all_bol m bol' 0 s'
          end
      end
  end.

(** The pattern [> ] after the line start. *)
Definition prompt_re : matcher unit :=
  fun s =>
    match strip_prefix (u16 "> ") s with
    | Some _ => Some (tt, 2)
    | None => None
    end.

(** The pattern [Tokens:.*$] after the line start. *)
Definition tokens_re : matcher unit :=
  fun s =>
    match strip_prefix (u16 "Tokens:") s with
    | Some r =>
        Some (tt, 7 + length (fst (span (fun c => negb (is_line_terminator c)) r)))
    | None => None
    end.

Definition cleanOutput (output : jsstring) : jsstring :=
  let cleaned := remove_all ansi_re 0 output in
  trim (remove_all_bol tokens_re true 0
          (remove_all_bol prompt_re true 0 cleaned)).

Definition write (line : jsstring) (s : AiderService) : AiderService :=
  if aiderProcess s then
    mkService (config s) (aiderProcess s) (commandQueue s) (currentCommand s)
      (outputBuffer s) (stdin s ++ [line]) (timers s) (settlements s)
  else s.

Definition settle (x : settlement) (s : AiderService) : AiderService :=
  mkService (config s) (aiderProcess s) (commandQueue s) (currentCommand s)
    (outputBuffer s) (stdin s) (timers s) (settlements s ++ [x]).

Definition processNextCommand (s : AiderService) : AiderService :=
  match currentCommand s, commandQueue s with
  | None, c :: queue =>
      let s1 :=
        mkService (config s) (aiderProcess s) queue (Some c) []
          (stdin s) (timers s) (settlements s) in
      let s2 :=
        fold_left
          (fun st file => write (u16 "/add " ++ file ++ [10%N]) st)
          (match files c with Some fs => fs | None => [] end) s1 in
      let s3 := write (instruction c ++ [10%N]) s2 in
      mkService (config s3) (aiderProcess s3) (commandQueue s3)
        (currentCommand s3) (outputBuffer s3) (stdin s3)
        (timers s3 ++ [cmd c]) (settlements s3)
  | _, _ => s
  end.

Definition completeCurrentCommand (s : AiderService) : AiderService :=
  match currentCommand s with
  | None => s
  | Some c =>
      let result := cleanOutput (outputBuffer s) in
      let s1 := settle (Resolved (cmd c) result) s in
      processNextCommand
        (mkService (config s1) (aiderProcess s1) (commandQueue s1) None []
           (stdin s1) (timers s1) (settlements s1))
  end.

(** The executor of the promise that [execute] returns: the command is
    pushed and the queue processed. *)
Definition executor (c : AiderCommand) (s : AiderService) : AiderService :=
  processNextCommand
    (mkService (config s) (aiderProcess s) (commandQueue s ++ [c])
       (currentCommand s) (outputBuffer s) (stdin s) (timers s)
       (settlements s)).

(** What a call of [execute] does before it returns its promise: with a
    child, the executor runs at once; without one, the call is suspended
    on [await this.start()], and its executor runs only once [start] has
    spawned a child, seen its prompt and had the repository map made.
    [start] is not embedded: it waits on the output of the new child and
    on timers. *)
Inductive called : Type :=
| Ran (s : AiderService)
| AwaitsStart.

Definition execute (c : AiderCommand) (s : AiderService) : called :=
  if aiderProcess s then Ran (executor c s) else AwaitsStart.

(** The executor of [updateRepoMap]: its command goes first. *)
Definition updateRepoMap (c : nat) (s : AiderService) : AiderService :=
  if aiderProcess s then
    processNextCommand
      (mkService (config s) (aiderProcess s)
         (mkCommand c (u16 "repo-map") (u16 "/map") None :: commandQueue s)
         (currentCommand s) (outputBuffer s) (stdin s) (timers s)
         (settlements s))
  else s.

Definition handleOutput (data : jsstring) (s : AiderService) : AiderService :=
  let buf := outputBuffer s ++ data in
  let s1 :=
    mkService (config s) (aiderProcess s) (commandQueue s) (currentCommand s)
      buf (stdin s) (timers s) (settlements s) in
  if includes buf (u16 "> ") || includes buf (u16 "Tokens:")
     || includes buf (u16 "Applied edit to")
  then completeCurrentCommand s1 else s1.

(** [a === b] on values that are a string or [undefined]. *)
Definition strict_eq (a b : option jsstring) : bool :=
  match a, b with
  | Some x, Some y => str_eqb x y
  | None, None => true
  | _, _ => false
  end.

(** The callback of the [n]-th pending timeout runs; it reads the
    fields of the service as they are then. *)
Definition timeoutFires (n : nat) (s : AiderService) : AiderService :=
  match nth_error (timers s) n with
  | None => s
  | Some _ =>
      let s1 :=
        mkService (config s) (aiderProcess s) (commandQueue s)
          (currentCommand s) (outputBuffer s) (stdin s)
          (firstn n (timers s) ++ skipn (S n) (timers s)) (settlements s) in
      if strict_eq (option_map id (currentCommand s1))
                   (option_map id (currentCommand s1))
      then completeCurrentCommand s1 else s1
  end.

Fixpoint rejectQueue (error : jsstring) (queue : list AiderCommand)
  (s : AiderService) : AiderService :=
  match queue with
  | [] => s
  | c :: queue' => rejectQueue error queue' (settle (Rejected (cmd c) error) s)
  end.

Definition rejectAllPending (error : jsstring) (s : AiderService)
  : AiderService :=
  let s1 :=
    match currentCommand s with
    | Some c =>
        let s' := settle (Rejected (cmd c) error) s in
        mkService (config s') (aiderProcess s') (commandQueue s') None
          (outputBuffer s') (stdin s') (timers s') (settlements s')
    | None => s
    end in
  let s2 := rejectQueue error (commandQueue s1) s1 in
  mkService (config s2) (aiderProcess s2) [] (currentCommand s2)
    (outputBuffer s2) (stdin s2) (timers s2) (settlements s2).

Definition terminated : jsstring := u16 "Aider process terminated".

(** The handler of the child's [close] event. *)
Definition onClose (s : AiderService) : AiderService :=
  rejectAllPending terminated
    (mkService (config s) false (commandQueue s) (currentCommand s)
       (outputBuffer s) (stdin s) (timers s) (settlements s)).

(** What happens to the service, one step each: the executor of a call
    of [execute] runs (at the call when the child runs, see [execute]),
    the executor of [updateRepoMap] runs, the child writes output, a
    pending timeout fires, the child exits. *)
Inductive event : Type :=
| Execute (c : AiderCommand)
| UpdateRepoMap (c : nat)
| Output (data : jsstring)
| TimeoutFires (n : nat)
| Close.

(** The commands a state accounts for: the ones settled, then the ones
    pending. *)
Definition accounted (s : AiderService) : list nat :=
  map settled_cmd (settlements s) ++ map cmd (pending s).

(** The commands the events of a trace create. *)
Definition created (es : list event) : list nat :=
  flat_map
    (fun e =>
       match e with
       | Execute c => [cmd c]
       | UpdateRepoMap c => [c]
       | _ => []
       end) es.

Definition step (s : AiderService) (e : event) : AiderService :=
  match e with
  | Execute c => executor c s
  | UpdateRepoMap c => updateRepoMap c s
  | Output data => handleOutput data s
  | TimeoutFires n => timeoutFires n s
  | Close => onClose s
  end.

Definition run (s : AiderService) (es : list event) : AiderService :=
  fold_left step es s.

(** *** The module-level singleton *)

(** The objects of class [AiderService] created so far, an instance
    being its position in the list, the variable [aiderService] of the
    module, and the number of handlers registered with
    [process.on('exit', ...)]. *)
Record ModuleState := mkModule {
  instances : list AiderService;
  aiderService : option nat;
  exitHandlers : nat
}.

Definition initialModule : ModuleState := mkModule [] None 0.

Definition getAiderService (config : Config) (m : ModuleState)
  : ModuleState * nat :=
  match aiderService m with
  | Some r => (m, r)
  | None =>
      let r := length (instances m) in
      (mkModule (instances m ++ [newAiderService config]) (Some r)
         (S (exitHandlers m)), r)
  end.

(** Calls of [getAiderService] one after the other: the final state of
    the module and the instance each call returned. *)
Fixpoint getAiderServices (configs : list Config) (m : ModuleState)
  : ModuleState * list nat :=
  match configs with
  | [] => (m, [])
  | c :: cs =>
      let (m1, r) := getAiderService c m in
      let (m2, rs) := getAiderServices cs m1 in
      (m2, r :: rs)
  end.

(** The working directory [start] spawns the child of an instance in. *)
Definition spawnCwd (m : ModuleState) (r : nat) : option jsstring :=
  option_map (fun s => getTargetDir (config s)) (nth_error (instances m) r).

End Aider.

(** A running idle service and three commands, to run traces on. *)

Module QueueTraces.

Import Aider.

Definition someConfig : Config := mkConfig (u16 "/work").

(** A service whose child runs and is idle. *)
Definition ready : AiderService :=
  mkService someConfig true [] None [] [] [] [].

Definition cmdA : AiderCommand := mkCommand 0 (u16 "k3x9a0q1z") (u16 "fix a") None.
Definition cmdB : AiderCommand := mkCommand 1 (u16 "p7m2c4d8e") (u16 "fix b") None.
Definition cmdC : AiderCommand :=
  mkCommand 2 (u16 "w1r5t6y2u") (u16 "fix c") (Some [u16 "c.ts"]).

End QueueTraces.

Unset Implicit Arguments.

(* ================================================================== *)
(** * Shapes of texts, streams, bodies and traces *)
(* ================================================================== *)

(** ** Predicates on texts and candidates *)

Module Tags.

(** None of the four patterns of the parser matches anywhere. *)
Definition noToolTag (text : jsstring) : bool :=
  match exec_first function_result_re 0 text,
        exec_first function_calls_re 0 text,
        exec_first invoke_re 0 text,
        exec_first direct_tool_re 0 text with
  | None, None, None, None => true
  | _, _, _, _ => false
  end.

(** Two candidates apart from each other, and one strictly inside the
    other. *)
Definition disjoint (a b : ToolCall) : Prop :=
  end_ a <= start b \/ end_ b <= start a.

Definition strictlyInside (a b : ToolCall) : Prop :=
  start b < start a /\ end_ a < end_ b.

(** Content that [replace] takes literally. *)
Definition no_dollar (c : N) : bool := negb (N.eqb c 36).
End Tags.

(** ** More shapes of the stream *)

Module MoreEvents.

Import Anthropic.

(** A text delta event, and the fragment that carries its text. *)
Definition textDelta (text : jsstring) : value :=
  VObject
    [(u16 "type", VString (u16 "content_block_delta"));
     (u16 "index", VNumber 0);
     (u16 "delta",
      VObject [(u16 "type", VString (u16 "text_delta"));
               (u16 "text", VString text)])].

Definition textChunk (text : jsstring) : Chunk :=
  mkChunk (VString text) [TextPart (VString text)] VUndefined None.

(** A fragment as the stream yields them: one part, and usage metadata
    only beside the finish reason [STOP]. *)
Definition fragmentOk (c : Chunk) : Prop :=
  length (chunk_parts c) = 1
  /\ (chunk_finishReason c = VUndefined
      \/ chunk_finishReason c = VString (u16 "STOP"))
  /\ (chunk_usage c <> None -> chunk_finishReason c = VString (u16 "STOP")).

(** What is left in the buffer holds no line feed. *)
Definition bufferOk (st : StreamState) : Prop :=
  forallb (fun c => negb (N.eqb c 10)) (buffer st) = true.

End MoreEvents.

(** ** Events on the wire *)

Module Wire.

Import Anthropic.

(** The line that carries the text of an event. *)
Definition dataLine (data : jsstring) : jsstring := u16 "data: " ++ data.

(** The body made of the given lines, each ended by a line feed. *)
Definition feed (lines : list jsstring) : jsstring :=
  concat (map (fun l => l ++ [10%N]) lines).

Definition noLineFeed (s : jsstring) : bool :=
  forallb (fun c => negb (N.eqb c 10)) s.

(** An event of type [content_block_stop]. *)
Definition isBlockStop (e : value) : bool :=
  match get_prop e (u16 "type") with
  | Some ty => is_string ty (u16 "content_block_stop")
  | None => false
  end.

Section WithPlatform.

Variable JSON_parse : jsstring -> option value.
Variable ToString_other : value -> jsstring.

(** The event that a line of the body carries, if any: the line starts
    with [data: ], what follows is not the mark [[DONE]], and
    [JSON.parse] decodes it. *)
Definition eventOf (line : jsstring) : option value :=
  match strip_prefix (u16 "data: ") line with
  | None => None
  | Some data =>
      if str_eqb data (u16 "[DONE]") then None else JSON_parse data
  end.

(** The events of the whole lines of a body, in order. *)
Definition eventsOf (body : jsstring) : list value :=
  flat_map (fun line => match eventOf line with Some e => [e] | None => [] end)
    (removelast (split_on 10 body)).

(** [data] is the text of the event [e] on a line of the stream: it
    holds no line feed, it is not the mark [[DONE]], and [JSON.parse]
    decodes it to [e]. *)
Definition decodesTo (data : jsstring) (e : value) : Prop :=
  noLineFeed data = true
  /\ str_eqb data (u16 "[DONE]") = false
  /\ JSON_parse data = Some e.

(** The variables [buffer] and [currentToolCall] of the generator once
    the given chunks are read. *)
Definition stateAfter (chunks : list jsstring) : StreamState :=
  fold_left (fun st c => fst (handleChunk JSON_parse ToString_other st c))
    chunks (mkStreamState [] None).

Definition pendingAfter (chunks : list jsstring) : option PendingToolCall :=
  currentToolCall (stateAfter chunks).

End WithPlatform.

End Wire.

Module WireTexts.

(** The texts of events, as the backend writes them. *)
Definition startOfF : jsstring :=
  jq "{'type':'content_block_start','index':1,'content_block':{'type':'tool_use','name':'f'}}".

Definition deltaOf (escaped : jsstring) : jsstring :=
  jq "{'type':'content_block_delta','index':1,'delta':{'type':'input_json_delta','partial_json':'"
  ++ escaped ++ jq "'}}".

Definition stopOf (index : jsstring) : jsstring :=
  jq "{'type':'content_block_stop','index':" ++ index ++ u16 "}".

Definition textOf (text : jsstring) : jsstring :=
  jq "{'type':'content_block_delta','index':0,'delta':{'type':'text_delta','text':'"
  ++ text ++ jq "'}}".

Definition messageStopText : jsstring := jq "{'type':'message_stop'}".

End WireTexts.

(** ** Content blocks of a response body *)

Module Blocks.

Import Anthropic.

(** The content blocks of a response body. *)
Inductive ContentBlock : Type :=
| TextBlock (text : jsstring)
| ToolUseBlock (id name : jsstring) (input : object)
| ThinkingBlock (thinking : jsstring).

Definition encodeBlock (b : ContentBlock) : value :=
  match b with
  | TextBlock text =>
      VObject [(u16 "type", VString (u16 "text"));
               (u16 "text", VString text)]
  | ToolUseBlock id name input =>
      VObject [(u16 "type", VString (u16 "tool_use"));
               (u16 "id", VString id);
               (u16 "name", VString name);
               (u16 "input", VObject input)]
  | ThinkingBlock thinking =>
      VObject [(u16 "type", VString (u16 "thinking"));
               (u16 "thinking", VString thinking)]
  end.

(** The part a block becomes, if any, and the text it adds. *)
Definition partsOfBlock (b : ContentBlock) : list Part :=
  match b with
  | TextBlock text => [TextPart (VString text)]
  | ToolUseBlock _ name input => [FunctionCallPart (VString name) (VObject input)]
  | ThinkingBlock _ => []
  end.

Definition textOfBlock (b : ContentBlock) : jsstring :=
  match b with
  | TextBlock text => text
  | _ => []
  end.

End Blocks.

(** ** Traces of the command queue *)

Module QueueFacts.

Import Aider.

(** An event of a caller: anything but the repo-map command, which
    goes to the front of the queue. *)
Definition isCallerEvent (e : event) : bool :=
  match e with
  | UpdateRepoMap _ => false
  | _ => true
  end.

(** An event of a running child: a caller's event other than the exit
    of the child. *)
Definition isRunningEvent (e : event) : bool :=
  match e with
  | UpdateRepoMap _ | Close => false
  | _ => true
  end.

(** A trace of calls to [execute] on a child that runs at each call:
    every [Execute] is a call whose executor runs at once, and no
    repo-map command is queued. *)
Fixpoint executesAtCall (s : AiderService) (es : list event) : bool :=
  match es with
  | [] => true
  | e :: es' =>
      match e with
      | Execute c =>
          match execute c s with Ran _ => true | AwaitsStart => false end
      | UpdateRepoMap _ => false
      | _ => true
      end
      && executesAtCall (step s e) es'
  end.

(** The commands that the events of a trace execute, in order. *)
Definition executed (es : list event) : list AiderCommand :=
  flat_map (fun e => match e with Execute c => [c] | _ => [] end) es.

(** What the dispatch of a command writes to the child. *)
Definition linesOf (c : AiderCommand) : list jsstring :=
  map (fun file => u16 "/add " ++ file ++ [10%N])
    (match files c with Some fs => fs | None => [] end)
  ++ [instruction c ++ [10%N]].

Definition busy (s : AiderService) : nat :=
  match currentCommand s with Some _ => 1 | None => 0 end.

(** No queued command waits while nothing is in flight. *)
Definition idleOk (s : AiderService) : Prop :=
  currentCommand s = None -> commandQueue s = [].

(** What a state of a running service has to do with the commands
    executed so far: the pending ones are those not settled yet, and the
    child has been written the lines of the settled ones and of the one
    in flight, nothing else. *)
Definition dispatched (hist : list AiderCommand) (s : AiderService) : Prop :=
  aiderProcess s = true
  /\ idleOk s
  /\ pending s = skipn (length (settlements s)) hist
  /\ length (settlements s) <= length hist
  /\ stdin s
     = flat_map linesOf (firstn (length (settlements s) + busy s) hist).

End QueueFacts.

(* ================================================================== *)
(** * providers/base.ts and the prompt handling of the provider *)
(* ================================================================== *)

Module Base.

Import Anthropic.

(** What [extractPrompt] returns: a string or an array of contents. *)
Inductive prompt : Type :=
| PromptString (s : jsstring)
| PromptContents (contents : list value).

Section WithPlatform.

Variable ToString_other : value -> jsstring.

(** [extractPrompt(params)], from [params.contents] on. *)
Definition extractPrompt (contents : value) : prompt :=
  match contents with
  | VArray l => PromptContents l
  | VString s => PromptString s
  | VObject o =>
      if obj_has (u16 "role") o then PromptContents [contents]
      else PromptString (ToString ToString_other contents)
  | _ => PromptString (ToString ToString_other contents)
  end.

(** [values.join(sep)] on an array: [undefined] and [null] give the
    empty string. *)
Definition joinValues (sep : jsstring) (vs : list value) : jsstring :=
  join sep
    (map (fun v =>
            match v with
            | VUndefined | VNull => []
            | _ => ToString ToString_other v
            end) vs).

(** The callback of [content.parts.map]. *)
Definition partToString (part : value) : outcome value :=
  match part with
  | VString s => Ok (VString s)
  | _ =>
      match get_prop part (u16 "text") with
      | None => Throw TypeError
      | Some text =>
          if truthy text then Ok text
          else
            let functionCall := opt_prop part (u16 "functionCall") in
            if truthy functionCall then
              Ok (VString
                    (u16 "[Function Call: "
                     ++ ToString ToString_other
                          (opt_prop functionCall (u16 "name"))
                     ++ u16 "]"))
            else if truthy (opt_prop part (u16 "functionResponse")) then
              Ok (VString (u16 "[Function Response]"))
            else Ok (VString [])
      end
  end.

Fixpoint mapParts (parts : list value) : outcome (list value) :=
  match parts with
  | [] => Ok []
  | p :: ps =>
      match partToString p with
      | Throw e => Throw e
      | Ok v =>
          match mapParts ps with
          | Throw e => Throw e
          | Ok vs => Ok (v :: vs)
          end
      end
  end.

(** The callback of [contents.map]. *)
Definition contentToString (content : value) : outcome jsstring :=
  match get_prop content (u16 "parts") with
  | None => Throw TypeError
  | Some parts =>
      if truthy parts then
        match parts with
        | VArray ps =>
            match mapParts ps with
            | Ok vs => Ok (joinValues [] vs)
            | Throw e => Throw e
            end
        | _ => Throw TypeError           (* [parts.map] is no function *)
        end
      else Ok []
  end.

Fixpoint mapContents (contents : list value) : outcome (list jsstring) :=
  match contents with
  | [] => Ok []
  | c :: cs =>
      match contentToString c with
      | Throw e => Throw e
      | Ok s =>
          match mapContents cs with
          | Throw e => Throw e
          | Ok ss => Ok (s :: ss)
          end
      end
  end.

Definition contentsToString (contents : list value) : outcome jsstring :=
  match mapContents contents with
  | Ok ss => Ok (join [10%N] ss)
  | Throw e => Throw e
  end.

(** [textPrompt] in the methods of the provider. *)
Definition textPrompt (p : prompt) : outcome jsstring :=
  match p with
  | PromptString s => Ok s
  | PromptContents contents => contentsToString contents
  end.

End WithPlatform.

(** [Math.ceil(n / 4)]. *)
Definition ceilQuarter (n : nat) : nat :=
  if n mod 4 =? 0 then n / 4 else S (n / 4).

(** [countTokens] of the provider on its text prompt. *)
Definition countTokens (textPrompt : jsstring) : nat :=
  ceilQuarter (length textPrompt).

(** The parts of a content, by kind. *)
Inductive PartKind : Type :=
| RawPart (s : jsstring)
| TextKind (text : jsstring)
| CallKind (name : jsstring) (args : object)
| ResponseKind (name : jsstring) (response : object).

Definition encodePart (p : PartKind) : value :=
  match p with
  | RawPart s => VString s
  | TextKind text => VObject [(u16 "text", VString text)]
  | CallKind name args =>
      VObject [(u16 "functionCall",
                VObject [(u16 "name", VString name);
                         (u16 "args", VObject args)])]
  | ResponseKind name response =>
      VObject [(u16 "functionResponse",
                VObject [(u16 "name", VString name);
                         (u16 "response", VObject response)])]
  end.

Definition renderPart (p : PartKind) : jsstring :=
  match p with
  | RawPart s => s
  | TextKind text => text
  | CallKind name _ => u16 "[Function Call: " ++ name ++ u16 "]"
  | ResponseKind _ _ => u16 "[Function Response]"
  end.

(** A content: its role and its parts, if it has any. *)
Definition encodeContent (c : jsstring * option (list PartKind)) : value :=
  match snd c with
  | Some ps =>
      VObject [(u16 "role", VString (fst c));
               (u16 "parts", VArray (map encodePart ps))]
  | None => VObject [(u16 "role", VString (fst c))]
  end.

Definition renderContent (c : jsstring * option (list PartKind)) : jsstring :=
  match snd c with
  | Some ps => concat (map renderPart ps)
  | None => []
  end.

End Base.

(* ================================================================== *)
(** * providers/anthropic.ts: [convertTools] *)
(* ================================================================== *)

Module Tools.

Import Anthropic.

(** An element of the array that [convertTools] returns; the type of
    its [input_schema] is always [object]. *)
Record AnthropicTool := mkTool {
  tool_name : value;
  tool_description : value;
  tool_properties : value;
  tool_required : value
}.

(** The strings that [for ... of] takes out of a string: its code
    points, a surrogate pair being one. *)
Fixpoint codePoints (s : jsstring) : list value :=
  match s with
  | [] => []
  | hi :: rest =>
      match rest with
      | lo :: rest' =>
          if in_range 55296 56319 hi && in_range 56320 57343 lo
          then VString [hi; lo] :: codePoints rest'
          else VString [hi] :: codePoints rest
      | [] => [VString [hi]]
      end
  end.

(** The elements that [for (const x of v)] runs over; [v] is not
    iterable unless it is an array or a string. *)
Definition iterate (v : value) : outcome (list value) :=
  match v with
  | VArray l => Ok l
  | VString s => Ok (codePoints s)
  | _ => Throw TypeError
  end.

(** The body of the inner loop: the tool of a function declaration. *)
Definition convertDeclaration (func : value) : outcome AnthropicTool :=
  match get_prop func (u16 "name") with
  | None => Throw TypeError
  | Some name =>
      let schema := opt_prop func (u16 "parametersJsonSchema") in
      let properties :=
        if truthy schema && truthy (opt_prop schema (u16 "properties"))
        then opt_prop schema (u16 "properties") else VObject [] in
      let required :=
        if truthy schema && truthy (opt_prop schema (u16 "required"))
        then opt_prop schema (u16 "required") else VArray [] in
      Ok (mkTool name (opt_prop func (u16 "description")) properties required)
  end.

Fixpoint convertDeclarations (funcs : list value)
  : outcome (list AnthropicTool) :=
  match funcs with
  | [] => Ok []
  | f :: fs =>
      match convertDeclaration f with
      | Throw e => Throw e
      | Ok t =>
          match convertDeclarations fs with
          | Throw e => Throw e
          | Ok ts => Ok (t :: ts)
          end
      end
  end.

(** The body of the outer loop: the tools of one element of [tools]. *)
Definition convertTool (tool : value) : outcome (list AnthropicTool) :=
  match get_prop tool (u16 "functionDeclarations") with
  | None => Throw TypeError
  | Some decls =>
      if truthy decls then
        match iterate decls with
        | Ok funcs => convertDeclarations funcs
        | Throw e => Throw e
        end
      else Ok []
  end.

Fixpoint convertToolList (tools : list value) : outcome (list AnthropicTool) :=
  match tools with
  | [] => Ok []
  | t :: ts =>
      match convertTool t with
      | Throw e => Throw e
      | Ok a =>
          match convertToolList ts with
          | Throw e => Throw e
          | Ok b => Ok (a ++ b)
          end
      end
  end.

(** [tools.length] for the test [tools.length === 0]. *)
Definition lengthIsZero (tools : value) : bool :=
  match tools with
  | VArray [] => true
  | VObject o =>
      match obj_lookup (u16 "length") o with
      | Some (VNumber 0) => true
      | _ => false
      end
  | _ => false
  end.

(** [convertTools(tools)]; [None] is [undefined]. *)
Definition convertTools (tools : value)
  : outcome (option (list AnthropicTool)) :=
  if negb (truthy tools) || lengthIsZero tools then Ok None
  else
    match iterate tools with
    | Throw e => Throw e
    | Ok l =>
        match convertToolList l with
        | Throw e => Throw e
        | Ok ts => Ok (Some ts)
        end
    end.

(** A function declaration of the host: name, description and, if any,
    the properties and the required names of its parameter schema. *)
Record Declaration := mkDeclaration {
  decl_name : jsstring;
  decl_description : jsstring;
  decl_schema : option (object * list jsstring)
}.

Definition encodeDeclaration (d : Declaration) : value :=
  VObject
    ([(u16 "name", VString (decl_name d));
      (u16 "description", VString (decl_description d))]
     ++ match decl_schema d with
        | Some (properties, required) =>
            [(u16 "parametersJsonSchema",
              VObject [(u16 "type", VString (u16 "object"));
                       (u16 "properties", VObject properties);
                       (u16 "required", VArray (map VString required))])]
        | None => []
        end).

Definition encodeTool (decls : list Declaration) : value :=
  VObject [(u16 "functionDeclarations", VArray (map encodeDeclaration decls))].

Definition toolOfDeclaration (d : Declaration) : AnthropicTool :=
  match decl_schema d with
  | Some (properties, required) =>
      mkTool (VString (decl_name d)) (VString (decl_description d))
        (VObject properties) (VArray (map VString required))
  | None =>
      mkTool (VString (decl_name d)) (VString (decl_description d))
        (VObject []) (VArray [])
  end.

End Tools.

Set Implicit Arguments.

(* ================================================================== *)
(** * Properties *)
(* ================================================================== *)

(** ** Strings *)

Lemma str_eqb_refl (s : jsstring) : str_eqb s s = true.
Proof.
  induction s as [|c s IH]; simpl; [reflexivity|].
  now rewrite N.eqb_refl, IH.
Qed.

Lemma str_eqb_eq (a b : jsstring) : str_eqb a b = true <-> a = b.
Proof.
  split.
  - revert b; induction a as [|x a IH]; intros [|y b] H; simpl in H;
      try discriminate; [reflexivity|].
    apply andb_true_iff in H as [Hx Ha].
    apply N.eqb_eq in Hx. apply IH in Ha. now subst.
  - intros ->. apply str_eqb_refl.
Qed.

Lemma strip_prefix_app (p s : jsstring) : strip_prefix p (p ++ s) = Some s.
Proof.
  induction p as [|c p IH]; simpl; [reflexivity|].
  now rewrite N.eqb_refl.
Qed.

Lemma strip_prefix_inv (p s r : jsstring) :
  strip_prefix p s = Some r -> s = p ++ r.
Proof.
  revert s; induction p as [|c p IH]; intros s H; simpl in H.
  - now inversion H.
  - destruct s as [|y s]; [discriminate|].
    destruct (N.eqb_spec c y) as [->|]; [|discriminate].
    simpl. f_equal. now apply IH.
Qed.

Lemma indexOf_prefix (s p r : jsstring) :
  strip_prefix p s = Some r -> indexOf s p = Some 0.
Proof.
  intros H. destruct s; cbn [indexOf]; now rewrite H.
Qed.

(** A string that contains [p] at some offset includes it. *)
Lemma includes_app (a p b : jsstring) : includes (a ++ p ++ b) p = true.
Proof.
  unfold includes.
  induction a as [|c a IH].
  - rewrite app_nil_l, (indexOf_prefix _ _ (strip_prefix_app p b)).
    reflexivity.
  - cbn [app indexOf].
    destruct (strip_prefix p (c :: a ++ p ++ b)); [reflexivity|].
    destruct (indexOf (a ++ p ++ b) p); [reflexivity|discriminate].
Qed.

(** ** Provider selection *)

Section Selection.

Import Factory.

Variable toLowerCase : jsstring -> jsstring.

Lemma notConfiguredMessage_names_token (m : jsstring) :
  includes (notConfiguredMessage m) (u16 "ANTHROPIC_AUTH_TOKEN") = true.
Proof.
  unfold notConfiguredMessage.
  replace (u16 "  export ANTHROPIC_AUTH_TOKEN=your-token")
    with (u16 "  export " ++ u16 "ANTHROPIC_AUTH_TOKEN" ++ u16 "=your-token")
    by reflexivity.
  repeat rewrite <- app_assoc.
  repeat rewrite (app_assoc _ _ (u16 "ANTHROPIC_AUTH_TOKEN" ++ _)).
  apply includes_app.
Qed.

Lemma notConfiguredMessage_names_url (m : jsstring) :
  includes (notConfiguredMessage m) (u16 "ANTHROPIC_BASE_URL") = true.
Proof.
  unfold notConfiguredMessage.
  replace (u16 "  export ANTHROPIC_BASE_URL=your-base-url")
    with (u16 "  export " ++ u16 "ANTHROPIC_BASE_URL" ++ u16 "=your-base-url")
    by reflexivity.
  repeat rewrite <- app_assoc.
  repeat rewrite (app_assoc _ _ (u16 "ANTHROPIC_BASE_URL" ++ _)).
  apply includes_app.
Qed.

(** C5.  [detectProvider] on an absent or empty identifier returns
    [null] and does nothing else.  On an identifier of the Anthropic
    family (its lower-cased form contains [claude] or [anthropic]) with
    the auth token or the base URL unset or empty, it throws before any
    other effect, and the message names both variables; with both set
    it returns the adapter around a provider built from them.  On every
    other identifier it returns [null]. *)
Theorem detectProvider_selection (env : Env) :
  (forall modelName,
      falsy modelName = true ->
      detectProvider toLowerCase env modelName = (ReturnNull, []))
  /\ (forall m,
      m <> [] -> isAnthropicModel toLowerCase m = true ->
      falsy (ANTHROPIC_AUTH_TOKEN env) || falsy (ANTHROPIC_BASE_URL env) = true ->
      exists msg,
        detectProvider toLowerCase env (Some m) = (ThrowError msg, [])
        /\ includes msg (u16 "ANTHROPIC_AUTH_TOKEN") = true
        /\ includes msg (u16 "ANTHROPIC_BASE_URL") = true)
  /\ (forall m token url,
      m <> [] -> isAnthropicModel toLowerCase m = true ->
      ANTHROPIC_AUTH_TOKEN env = Some token -> token <> [] ->
      ANTHROPIC_BASE_URL env = Some url -> url <> [] ->
      exists p,
        fst (detectProvider toLowerCase env (Some m))
        = ReturnAdapter (mkAdapter p)
        /\ authToken p = token /\ baseUrl p = url)
  /\ (forall m,
      m <> [] -> isAnthropicModel toLowerCase m = false ->
      fst (detectProvider toLowerCase env (Some m)) = ReturnNull).
Proof.
  repeat split.
  - intros modelName H. unfold detectProvider. now rewrite H.
  - intros m Hm Hfam Hcfg.
    exists (notConfiguredMessage m).
    destruct m as [|c m]; [congruence|].
    unfold detectProvider. cbn [falsy or_str].
    rewrite Hfam, Hcfg.
    split; [reflexivity|].
    split; [apply notConfiguredMessage_names_token
           |apply notConfiguredMessage_names_url].
  - intros m token url Hm Hfam Htok Htok' Hurl Hurl'.
    destruct m as [|c m]; [congruence|].
    destruct token as [|t token]; [congruence|].
    destruct url as [|u url]; [congruence|].
    eexists.
    unfold detectProvider. cbn [falsy or_str].
    rewrite Hfam, Htok, Hurl. cbn [falsy orb fst].
    unfold createCustomAnthropicProvider, newAnthropicProvider.
    rewrite Htok, Hurl. cbn [or_str].
    split; [reflexivity|]. split; reflexivity.
  - intros m Hm Hfam.
    destruct m as [|c m]; [congruence|].
    unfold detectProvider. cbn [falsy or_str].
    rewrite Hfam.
    now destruct (_ || _ || _).
Qed.

End Selection.

(** C5 at [claude-x] without credentials, at [claude-x] with both
    variables set, at [gpt-4] and at the absent identifier. *)
Lemma detectProvider_selection_witness :
  let unset := Factory.mkEnv None None None in
  let set :=
    Factory.mkEnv (Some (u16 "tok")) (Some (u16 "https://proxy")) None in
  Factory.detectProvider Factory.asciiLower unset None
  = (Factory.ReturnNull, [])
  /\ (exists msg,
        Factory.detectProvider Factory.asciiLower unset (Some (u16 "Claude-x"))
        = (Factory.ThrowError msg, [])
        /\ includes msg (u16 "ANTHROPIC_AUTH_TOKEN") = true
        /\ includes msg (u16 "ANTHROPIC_BASE_URL") = true)
  /\ (exists p,
        fst (Factory.detectProvider Factory.asciiLower set
               (Some (u16 "Claude-x")))
        = Factory.ReturnAdapter (Factory.mkAdapter p)
        /\ Factory.authToken p = u16 "tok"
        /\ Factory.baseUrl p = u16 "https://proxy")
  /\ fst (Factory.detectProvider Factory.asciiLower set (Some (u16 "gpt-4")))
     = Factory.ReturnNull.
Proof.
  intros unset set.
  split; [|split; [|split]].
  - apply (proj1 (detectProvider_selection Factory.asciiLower unset)).
    reflexivity.
  - apply (proj1 (proj2 (detectProvider_selection Factory.asciiLower unset)));
      [discriminate|reflexivity|reflexivity].
  - apply (proj1 (proj2 (proj2
             (detectProvider_selection Factory.asciiLower set)))
             (u16 "Claude-x") (u16 "tok") (u16 "https://proxy"));
      try discriminate; reflexivity.
  - apply (proj2 (proj2 (proj2
             (detectProvider_selection Factory.asciiLower set))));
      [discriminate|reflexivity].
Defined.

(** ** Usage counters *)

Section Usage.

Import Anthropic.

Variable JSON_parse : jsstring -> option value.
Variable ToString_other : value -> jsstring.

Lemma round_double_exact (z : Z) :
  (Z.abs z <= two53)%Z -> round_double z = z.
Proof.
  intros H. unfold round_double.
  destruct (Z.leb_spec (Z.abs z) two53); [reflexivity|lia].
Qed.

(** Whatever the content of the response, its usage metadata is read
    from [data.usage]. *)
Lemma responseOfData_usage (data : value) (r : Response) :
  responseOfData JSON_parse ToString_other data = Ok r ->
  usageMetadata r = usageOf ToString_other (opt_prop data (u16 "usage")).
Proof.
  unfold responseOfData.
  destruct (get_prop data (u16 "content")) as [content|]; [|discriminate].
  destruct (match content with
            | VArray blocks => _
            | _ => _
            end) as [acc|e]; [|discriminate].
  intros H. inversion H. reflexivity.
Qed.

(** C9.  When the body of the response carries both counts, as
    non-negative integers whose sum a double holds exactly, the usage
    metadata that [generateContent] returns has them as prompt and
    candidates counts and their sum as total. *)
Theorem usage_total_is_sum (data : value) (r : Response) (p c : Z) :
  responseOfData JSON_parse ToString_other data = Ok r ->
  opt_prop (opt_prop data (u16 "usage")) (u16 "input_tokens") = VNumber p ->
  opt_prop (opt_prop data (u16 "usage")) (u16 "output_tokens") = VNumber c ->
  (0 <= p)%Z -> (0 <= c)%Z -> (p + c <= two53)%Z ->
  promptTokenCount (usageMetadata r) = VNumber p
  /\ candidatesTokenCount (usageMetadata r) = VNumber c
  /\ totalTokenCount (usageMetadata r) = VNumber (p + c).
Proof.
  intros Hr Hp Hc Hp0 Hc0 Hsum.
  rewrite (responseOfData_usage _ Hr).
  unfold usageOf. rewrite Hp, Hc. cbn.
  rewrite round_double_exact by lia.
  repeat split.
Qed.

End Usage.

(** C9 on a response with a text block, 12 prompt units and 30
    completion units. *)
Lemma usage_total_is_sum_witness :
  let data :=
    VObject
      [(u16 "content",
        VArray [VObject [(u16 "type", VString (u16 "text"));
                         (u16 "text", VString (u16 "hi"))]]);
       (u16 "stop_reason", VString (u16 "end_turn"));
       (u16 "usage",
        VObject [(u16 "input_tokens", VNumber 12);
                 (u16 "output_tokens", VNumber 30)])] in
  exists r,
    Anthropic.responseOfData Json.parse (fun _ => []) data = Anthropic.Ok r
    /\ Anthropic.promptTokenCount (Anthropic.usageMetadata r) = VNumber 12
    /\ Anthropic.candidatesTokenCount (Anthropic.usageMetadata r) = VNumber 30
    /\ Anthropic.totalTokenCount (Anthropic.usageMetadata r) = VNumber 42.
Proof.
  intros data. eexists. split; [reflexivity|].
  apply (usage_total_is_sum Json.parse (fun _ => []) data eq_refl
           (p := 12%Z) (c := 30%Z)); try reflexivity; unfold two53; lia.
Defined.

(** ** The command queue of the Aider service *)

Section Queue.

Import Aider.

Lemma rejectQueue_settlements (error : jsstring) (queue : list AiderCommand) :
  forall s,
    settlements (rejectQueue error queue s)
    = settlements s ++ map (fun c => Rejected (cmd c) error) queue.
Proof.
  induction queue as [|c queue IH]; intros s; simpl.
  - now rewrite app_nil_r.
  - rewrite IH. simpl. now rewrite <- app_assoc.
Qed.

Lemma rejectQueue_fields (error : jsstring) (queue : list AiderCommand) :
  forall s,
    currentCommand (rejectQueue error queue s) = currentCommand s
    /\ aiderProcess (rejectQueue error queue s) = aiderProcess s
    /\ stdin (rejectQueue error queue s) = stdin s.
Proof.
  induction queue as [|c queue IH]; intros s; simpl; [auto|].
  destruct (IH (settle (Rejected (cmd c) error) s)) as (H1 & H2 & H3).
  now rewrite H1, H2, H3.
Qed.

(** Whatever the state, the [close] handler rejects the command in
    flight and then every queued one, in order, with the one error, and
    leaves nothing pending. *)
Lemma onClose_rejects_pending (s : AiderService) :
  settlements (onClose s)
  = settlements s ++ map (fun c => Rejected (cmd c) terminated) (pending s)
  /\ commandQueue (onClose s) = []
  /\ currentCommand (onClose s) = None
  /\ aiderProcess (onClose s) = false
  /\ stdin (onClose s) = stdin s.
Proof.
  unfold onClose, rejectAllPending, pending.
  destruct s as [cfg pr q cur buf inp tm st]; cbn [currentCommand commandQueue
    settlements aiderProcess stdin config outputBuffer timers].
  destruct cur as [c|]; cbn [currentCommand commandQueue settlements
    aiderProcess stdin config outputBuffer timers settle].
  - rewrite rejectQueue_settlements.
    destruct (rejectQueue_fields terminated q
                (mkService cfg false q None buf inp tm
                   (st ++ [Rejected (cmd c) terminated]))) as (H1 & H2 & H3).
    rewrite H1, H2, H3. cbn. rewrite <- app_assoc. auto.
  - rewrite rejectQueue_settlements.
    destruct (rejectQueue_fields terminated q
                (mkService cfg false q None buf inp tm st)) as (H1 & H2 & H3).
    rewrite H1, H2, H3. cbn. auto.
Qed.

(** C8.  When the child exits while [a] is in flight and [b] and then
    [others] are queued, [a], [b] and every command of [others] are
    rejected with the termination error, in that order and by nothing
    else: no result is resolved, nothing more is written to the child,
    and neither a command in flight nor a queued one is left. *)
Theorem close_rejects_in_flight_and_queued
  (s : AiderService) (a b : AiderCommand) (others : list AiderCommand) :
  currentCommand s = Some a ->
  commandQueue s = b :: others ->
  settlements (onClose s)
  = settlements s
    ++ Rejected (cmd a) terminated :: Rejected (cmd b) terminated
       :: map (fun c => Rejected (cmd c) terminated) others
  /\ commandQueue (onClose s) = []
  /\ currentCommand (onClose s) = None
  /\ stdin (onClose s) = stdin s.
Proof.
  intros Ha Hb.
  destruct (onClose_rejects_pending s) as (H1 & H2 & H3 & _ & H5).
  unfold pending in H1. rewrite Ha, Hb in H1.
  now rewrite H1.
Qed.

End Queue.


(** C8 after [execute] of A, B and C on a running idle service. *)
Lemma close_rejects_in_flight_and_queued_witness :
  let s :=
    Aider.run QueueTraces.ready
      [Aider.Execute QueueTraces.cmdA; Aider.Execute QueueTraces.cmdB;
       Aider.Execute QueueTraces.cmdC] in
  Aider.settlements (Aider.onClose s)
  = [Aider.Rejected 0 Aider.terminated; Aider.Rejected 1 Aider.terminated;
     Aider.Rejected 2 Aider.terminated]
  /\ Aider.commandQueue (Aider.onClose s) = []
  /\ Aider.currentCommand (Aider.onClose s) = None
  /\ Aider.stdin (Aider.onClose s) = [u16 "fix a" ++ [10%N]].
Proof.
  intros s.
  apply (@close_rejects_in_flight_and_queued s QueueTraces.cmdA
           QueueTraces.cmdB [QueueTraces.cmdC]); reflexivity.
Defined.

(** C3.  A, then B are executed; the child's output completes A well
    within its 30 seconds, and B is dispatched.  The timeout armed at the
    dispatch of A is still pending; when it fires, its test compares the
    identifier of the current command with itself, and it resolves B
    with the output received so far. *)
Theorem timeout_of_completed_command_settles_next :
  let s :=
    Aider.run QueueTraces.ready
      [Aider.Execute QueueTraces.cmdA; Aider.Execute QueueTraces.cmdB;
       Aider.Output (u16 "Applied edit to a.ts" ++ [10%N] ++ u16 "> ")] in
  Aider.settlements s = [Aider.Resolved 0 (u16 "Applied edit to a.ts")]
  /\ Aider.currentCommand s = Some QueueTraces.cmdB
  /\ Aider.timers s = [0; 1]
  /\ nth_error (Aider.timers s) 0 = Some (Aider.cmd QueueTraces.cmdA)
  /\ Aider.settlements (Aider.step s (Aider.TimeoutFires 0))
     = [Aider.Resolved 0 (u16 "Applied edit to a.ts");
        Aider.Resolved 1 []].
Proof.
  repeat split.
Qed.

(** ** The singleton *)

Section Singleton.

Import Aider.

Lemma getAiderServices_bound (m : ModuleState) (r : nat) :
  aiderService m = Some r ->
  forall configs,
    getAiderServices configs m = (m, repeat r (length configs)).
Proof.
  intros H configs.
  induction configs as [|c cs IH]; simpl; [reflexivity|].
  unfold getAiderService. rewrite H, IH. reflexivity.
Qed.

(** C10.  The first call of [getAiderService] creates the instance,
    bound to the configuration of that call.  Every later call,
    whatever its configuration, returns that same instance and changes
    nothing: no instance is created, the configuration stays the one of
    the first call, and so does the directory its child is spawned in. *)
Theorem getAiderService_binds_first_config
  (m : ModuleState) (first : Config) (later : list Config) :
  aiderService m = None ->
  let (m1, r) := getAiderService first m in
  let (m2, rs) := getAiderServices later m1 in
  Forall (fun r' => r' = r) rs
  /\ length rs = length later
  /\ m2 = m1
  /\ nth_error (instances m2) r = Some (newAiderService first)
  /\ spawnCwd m2 r = Some (getTargetDir first)
  /\ length (instances m2) = S (length (instances m)).
Proof.
  intros H. unfold getAiderService at 1. rewrite H.
  set (r := length (instances m)).
  set (m1 := mkModule _ _ _).
  rewrite (@getAiderServices_bound m1 r eq_refl later).
  assert (Hnth : nth_error (instances m1) r = Some (newAiderService first)).
  { subst m1 r. cbn [instances].
    rewrite nth_error_app2 by lia. now rewrite Nat.sub_diag. }
  repeat split.
  - apply Forall_forall. intros x Hx. now apply repeat_spec in Hx.
  - apply repeat_length.
  - exact Hnth.
  - unfold spawnCwd. now rewrite Hnth.
  - subst m1. cbn [instances]. rewrite length_app. simpl. lia.
Qed.

End Singleton.

(** C10 for a first caller in [/work] and a later one in [/other]. *)
Lemma getAiderService_binds_first_config_witness :
  let first := Aider.mkConfig (u16 "/work") in
  let other := Aider.mkConfig (u16 "/other") in
  let (m1, r) := Aider.getAiderService first Aider.initialModule in
  let (m2, rs) := Aider.getAiderServices [other; first; other] m1 in
  Forall (fun r' => r' = r) rs
  /\ length rs = 3
  /\ m2 = m1
  /\ nth_error (Aider.instances m2) r = Some (Aider.newAiderService first)
  /\ Aider.spawnCwd m2 r = Some (u16 "/work")
  /\ length (Aider.instances m2) = 1.
Proof.
  intros first other.
  apply (@getAiderService_binds_first_config Aider.initialModule first
           [other; first; other]).
  reflexivity.
Defined.

(** ** Removal of fabricated results *)

Section Removal.

Context {A : Type} (m : matcher A).

(** A text without a match is left as it is. *)
Lemma remove_all_no_match (s : jsstring) :
  forall pos, exec_first m pos s = None -> remove_all m 0 s = s.
Proof.
  induction s as [|c s IH]; intros pos H; [reflexivity|].
  cbn [exec_first] in H. cbn [remove_all].
  destruct (m (c :: s)) as [[a len]|]; [discriminate|].
  f_equal. exact (IH _ H).
Qed.

Lemma remove_all_length (s : jsstring) :
  forall skip, length (remove_all m skip s) <= length s.
Proof.
  induction s as [|c s IH]; intros skip; [reflexivity|].
  cbn [remove_all length].
  destruct skip as [|k].
  - destruct (m (c :: s)) as [[a len]|].
    + specialize (IH (len - 1)). lia.
    + cbn [length]. specialize (IH 0). lia.
  - specialize (IH k). lia.
Qed.

(** A text with a match gets shorter. *)
Lemma remove_all_shrinks (s : jsstring) :
  forall pos r,
    exec_first m pos s = Some r -> length (remove_all m 0 s) < length s.
Proof.
  induction s as [|c s IH]; intros pos r H; [discriminate|].
  cbn [exec_first] in H. cbn [remove_all length].
  destruct (m (c :: s)) as [[a len]|].
  - pose proof (remove_all_length s (len - 1)). lia.
  - cbn [length]. specialize (IH _ _ H). lia.
Qed.

End Removal.

(** A delimited block cannot match in a text without its opening tag. *)
Lemma delimited_needs_opener (open close s : jsstring) :
  includes s open = false ->
  forall pos, exec_first (delimited open close) pos s = None.
Proof.
  unfold includes.
  induction s as [|c s IH]; intros H pos; [reflexivity|].
  cbn [exec_first]. cbn [indexOf] in H.
  unfold delimited at 1.
  destruct (strip_prefix open (c :: s)) as [r|]; [discriminate|].
  apply IH.
  destruct (indexOf s open); [discriminate|reflexivity].
Qed.

(** C4, as the code has it.  A second removal changes nothing exactly
    when the first one left no complete [<function_result>] block
    behind; this is so in particular when what it left has no
    [<function_result>] opening tag. *)
Theorem removeFabricated_twice (s : jsstring) :
  (removeFabricated (removeFabricated s) = removeFabricated s
   <-> exec_first function_result_re 0 (removeFabricated s) = None)
  /\ (includes (removeFabricated s) (u16 "<function_result>") = false ->
      removeFabricated (removeFabricated s) = removeFabricated s).
Proof.
  assert (Hiff :
    removeFabricated (removeFabricated s) = removeFabricated s
    <-> exec_first function_result_re 0 (removeFabricated s) = None).
  { split.
    - intros H.
      destruct (exec_first function_result_re 0 (removeFabricated s))
        as [r|] eqn:E; [|reflexivity].
      apply remove_all_shrinks in E.
      unfold removeFabricated in H at 1. rewrite H in E. lia.
    - apply remove_all_no_match. }
  split; [exact Hiff|].
  intros Hopen. apply Hiff.
  unfold function_result_re. now apply delimited_needs_opener.
Qed.

(** C4 on a text with one fabricated block. *)
Lemma removeFabricated_twice_witness :
  let s := u16 "ok <function_result>42</function_result> done" in
  removeFabricated s = u16 "ok  done"
  /\ removeFabricated (removeFabricated s) = removeFabricated s.
Proof.
  intros s. split; [reflexivity|].
  apply (proj2 (removeFabricated_twice s)). reflexivity.
Defined.

(** C4 as stated fails: a block removed from inside an opening tag
    joins the pieces around it into a block that only a second removal
    deletes. *)
Lemma removeFabricated_not_idempotent :
  let s :=
    u16 "<function_<function_result>x</function_result>result>y</function_result>" in
  removeFabricated s = u16 "<function_result>y</function_result>"
  /\ removeFabricated (removeFabricated s) = []
  /\ removeFabricated (removeFabricated s) <> removeFabricated s.
Proof.
  intros s. split; [reflexivity|]. split; [reflexivity|].
  vm_compute. discriminate.
Qed.

(** ** Candidates and the parts emitted for them *)

(** C2.  A direct tag around an invoke-style call: the test of the
    second loop sees neither end of the direct match inside the span of
    the call, and both are kept, with overlapping spans; two function
    calls are emitted. *)
Theorem enclosing_direct_tag_is_kept :
  let text :=
    jq "<tool_call><invoke name='ls'><parameter name='path'>.</parameter></invoke></tool_call>" in
  preprocess text = text
  /\ invokeCalls text
     = [mkToolCall (u16 "ls") (jq "<parameter name='path'>.</parameter>") 11 74]
  /\ overlaps (invokeCalls text) 0 86 = false
  /\ map (fun tc => (name tc, start tc, end_ tc)) (collectToolCalls text)
     = [(u16 "tool_call", 0, 86); (u16 "ls", 11, 74)]
  /\ map fc_name (functionCalls (parseAnthropicToolCalls Json.parse text))
     = [u16 "tool_call"; u16 "ls"].
Proof.
  repeat split.
Qed.

Section Emission.

Import Anthropic.

Variable JSON_parse : jsstring -> option value.
Variable ToString_other : value -> jsstring.

Lemma insertByStart_Forall (P : ToolCall -> Prop) (tc : ToolCall)
  (l : list ToolCall) :
  P tc -> Forall P l -> Forall P (insertByStart tc l).
Proof.
  intros Htc Hl. induction Hl as [|x l Hx Hl IH]; simpl.
  - auto.
  - destruct (start tc <=? start x); auto.
Qed.

Lemma insertByStart_sorted (tc : ToolCall) (l : list ToolCall) :
  StronglySorted byStart l -> StronglySorted byStart (insertByStart tc l).
Proof.
  intros Hl. induction Hl as [|x l Hl IH Hx]; simpl.
  - repeat constructor.
  - destruct (Nat.leb_spec (start tc) (start x)) as [Hle|Hlt].
    + constructor; [now constructor|].
      constructor; [exact Hle|].
      eapply Forall_impl; [|exact Hx].
      unfold byStart. intros; lia.
    + constructor; [exact IH|].
      apply insertByStart_Forall; [unfold byStart; lia|exact Hx].
Qed.

Lemma sortByStart_sorted (l : list ToolCall) :
  StronglySorted byStart (sortByStart l).
Proof.
  induction l as [|x l IH]; simpl; [constructor|].
  now apply insertByStart_sorted.
Qed.

Lemma insertByStart_perm (tc : ToolCall) (l : list ToolCall) :
  Permutation (tc :: l) (insertByStart tc l).
Proof.
  induction l as [|x l IH]; simpl; [reflexivity|].
  destruct (start tc <=? start x); [reflexivity|].
  rewrite perm_swap. now constructor.
Qed.

Lemma sortByStart_perm (l : list ToolCall) : Permutation l (sortByStart l).
Proof.
  induction l as [|x l IH]; simpl; [constructor|].
  rewrite <- insertByStart_perm. now constructor.
Qed.

(** The processing loop pushes one function call per candidate, in the
    order of the array. *)
Lemma processToolCalls_calls (text : jsstring) (toolCalls : list ToolCall) :
  forall st,
    acc_calls (fold_left (processToolCall JSON_parse text) toolCalls st)
    = acc_calls st ++ map (functionCallOf JSON_parse) toolCalls.
Proof.
  induction toolCalls as [|tc tcs IH]; intros st; simpl.
  - now rewrite app_nil_r.
  - rewrite IH. cbn [processToolCall acc_calls].
    now rewrite <- app_assoc.
Qed.

Lemma parseAnthropicToolCalls_calls (input : jsstring) :
  functionCalls (parseAnthropicToolCalls JSON_parse input)
  = map (functionCallOf JSON_parse) (collectToolCalls (preprocess input)).
Proof.
  unfold parseAnthropicToolCalls.
  rewrite processToolCalls_calls. cbn [acc_calls app].
  destruct (map (functionCallOf JSON_parse)
              (collectToolCalls (preprocess input)));
    reflexivity.
Qed.

(** X2.  Whatever the input, the candidates, of either syntax, are
    sorted by their start offset, and the parser returns one function
    call for each, in that order.  [convertAnthropicResponseToParts]
    emits these as invocation parts, after at most one text part that
    holds all the text segments joined; the fallback of
    [generateContent] emits them alone, without any text part, as soon
    as there is one. *)
Theorem parts_follow_candidates (input : jsstring) (content : value) :
  opt_prop (opt_index0 content) (u16 "text") = VString input ->
  let candidates := collectToolCalls (preprocess input) in
  let calls := map (functionCallOf JSON_parse) candidates in
  let combinedText :=
    trim (join [10%N] (textParts (parseAnthropicToolCalls JSON_parse input))) in
  StronglySorted byStart candidates
  /\ functionCalls (parseAnthropicToolCalls JSON_parse input) = calls
  /\ map fc_name calls = map name candidates
  /\ convertAnthropicResponseToParts JSON_parse input
     = match combinedText with
       | [] => []
       | _ :: _ => [PText combinedText]
       end ++ map PFunctionCall calls
  /\ (candidates <> [] ->
      exists acc,
        fallbackParts JSON_parse content = Ok acc
        /\ Anthropic.acc_parts acc = map partOfFunctionCall calls).
Proof.
  intros Hcontent candidates calls combinedText.
  split; [apply sortByStart_sorted|].
  split; [apply parseAnthropicToolCalls_calls|].
  split; [unfold calls; rewrite map_map; reflexivity|].
  split.
  - unfold convertAnthropicResponseToParts.
    now rewrite parseAnthropicToolCalls_calls.
  - intros Hne.
    unfold fallbackParts. rewrite Hcontent.
    assert (Htext : or_else (VString input) (VString []) = VString input).
    { unfold or_else. now destruct input. }
    rewrite Htext, parseAnthropicToolCalls_calls.
    fold candidates. fold calls.
    eexists. split; [reflexivity|].
    cbn [Anthropic.acc_parts].
    destruct candidates as [|tc tcs]; [congruence|].
    now destruct input.
Qed.

End Emission.

(** X2 on a text with two invoke-style calls, a shorthand call
    and text around them. *)
Lemma parts_follow_candidates_witness :
  let input :=
    jq "first <invoke name='f'></invoke> then <ls></ls> and <invoke name='g'></invoke> last" in
  let content := VObject [(u16 "0", VObject [(u16 "text", VString input)])] in
  map (fun tc => (name tc, start tc)) (collectToolCalls (preprocess input))
  = [(u16 "f", 6); (u16 "ls", 38); (u16 "g", 52)]
  /\ convertAnthropicResponseToParts Json.parse input
     = [PText (u16 "first" ++ [10%N] ++ u16 "then" ++ [10%N] ++ u16 "and"
               ++ [10%N] ++ u16 "last");
        PFunctionCall (mkFunctionCall (u16 "f") []);
        PFunctionCall (mkFunctionCall (u16 "ls") []);
        PFunctionCall (mkFunctionCall (u16 "g") [])]
  /\ exists acc,
       Anthropic.fallbackParts Json.parse content = Anthropic.Ok acc
       /\ Anthropic.acc_parts acc
          = map Anthropic.partOfFunctionCall
              (map (functionCallOf Json.parse)
                 (collectToolCalls (preprocess input))).
Proof.
  intros input content.
  split; [reflexivity|]. split; [reflexivity|].
  apply (@parts_follow_candidates Json.parse input content eq_refl).
  discriminate.
Defined.

(** ** Texts made of invoke-style calls and plain text *)

Import Layout.

Unset Implicit Arguments.

Lemma strip_prefix_None_app (p x r : jsstring) :
  strip_prefix p x = None -> length p <= length x ->
  strip_prefix p (x ++ r) = None.
Proof.
  revert x; induction p as [|c p IH]; intros x H Hlen; [discriminate|].
  destruct x as [|y x]; [simpl in Hlen; lia|].
  simpl in *. destruct (N.eqb c y); [|reflexivity].
  apply IH; [exact H|lia].
Qed.

(** The first occurrence of [p] in [a ++ p] stays the first one when
    more text follows. *)
Lemma indexOf_extend (a p r : jsstring) :
  indexOf (a ++ p) p = Some (length a) ->
  indexOf (a ++ p ++ r) p = Some (length a).
Proof.
  induction a as [|c a IH]; intros H.
  - rewrite app_nil_l. apply (indexOf_prefix _ _ (strip_prefix_app p r)).
  - cbn [app indexOf length] in *.
    destruct (strip_prefix p (c :: a ++ p)) as [x|] eqn:E; [discriminate|].
    replace (c :: a ++ p ++ r) with ((c :: a ++ p) ++ r)
      by (cbn [app]; now rewrite <- app_assoc).
    rewrite (strip_prefix_None_app _ _ r E).
    + replace ((c :: a ++ p) ++ r) with (c :: a ++ p ++ r)
        by (cbn [app]; now rewrite <- app_assoc).
      destruct (indexOf (a ++ p) p) as [k|]; [|discriminate].
      cbn [option_map] in H. injection H as H. subst k.
      rewrite IH by reflexivity. reflexivity.
    + cbn [length]. rewrite length_app. lia.
Qed.

Lemma span_app (f : N -> bool) (a b : jsstring) :
  forallb f a = true ->
  match b with [] => True | x :: _ => f x = false end ->
  span f (a ++ b) = (a, b).
Proof.
  intros Ha Hb. induction a as [|c a IH]; cbn [app].
  - destruct b as [|x b]; [reflexivity|]. cbn [span]. now rewrite Hb.
  - cbn [forallb] in Ha. apply andb_true_iff in Ha as [Hc Ha].
    cbn [span]. rewrite Hc, (IH Ha). reflexivity.
Qed.

Lemma firstn_app_exact {A} (a b : list A) : firstn (length a) (a ++ b) = a.
Proof.
  rewrite firstn_app, Nat.sub_diag, firstn_all. cbn. apply app_nil_r.
Qed.

Lemma invoke_re_render (c : InvokeCall) (r : jsstring) :
  wellFormed c = true ->
  invoke_re (renderInvoke c ++ r)
  = Some ((inv_name c, inv_body c), length (renderInvoke c)).
Proof.
  unfold wellFormed. destruct c as [ws nm body]; cbn [inv_space inv_name inv_body].
  destruct ws as [|w ws]; [discriminate|].
  destruct nm as [|n nm]; [discriminate|].
  intros H. apply andb_true_iff in H as [H Hbody].
  apply andb_true_iff in H as [Hws Hnm].
  destruct (indexOf (body ++ u16 "</invoke>") (u16 "</invoke>")) as [k|] eqn:Ek;
    [|discriminate].
  apply Nat.eqb_eq in Hbody. subst k.
  unfold renderInvoke, invoke_re; cbn [inv_space inv_name inv_body].
  repeat rewrite <- app_assoc.
  rewrite strip_prefix_app.
  rewrite (span_app is_space (w :: ws) _ Hws) by reflexivity.
  rewrite strip_prefix_app.
  rewrite (span_app (fun c => negb (N.eqb c dquote)) (n :: nm) _ Hnm)
    by reflexivity.
  rewrite strip_prefix_app.
  rewrite (indexOf_extend _ _ r Ek).
  rewrite firstn_app_exact.
  f_equal. f_equal.
  repeat rewrite length_app.
  change (length (u16 "<invoke")) with 7.
  change (length (jq "name='")) with 6.
  change (length (jq "'>")) with 2.
  change (length (u16 "</invoke>")) with 9.
  lia.
Qed.

Section Scan.

Context {A : Type} (m : matcher A).

(** The scan steps over the code units of the previous match. *)
Lemma exec_all_skip (a s : jsstring) :
  forall pos, exec_all m pos (length a) (a ++ s)
              = exec_all m (pos + length a) 0 s.
Proof.
  induction a as [|c a IH]; intros pos; cbn [app length].
  - now rewrite Nat.add_0_r.
  - cbn [exec_all]. rewrite IH. f_equal. lia.
Qed.

(** The scan steps over code units at which the pattern cannot start. *)
Lemma exec_all_no_start (f : N -> bool) (t s : jsstring) :
  (forall c x, f c = true -> m (c :: x) = None) ->
  forallb f t = true ->
  forall pos, exec_all m pos 0 (t ++ s) = exec_all m (pos + length t) 0 s.
Proof.
  intros Hm. induction t as [|c t IH]; intros Ht pos; cbn [app length].
  - now rewrite Nat.add_0_r.
  - cbn [forallb] in Ht. apply andb_true_iff in Ht as [Hc Ht].
    cbn [exec_all]. rewrite (Hm _ _ Hc), (IH Ht). f_equal. lia.
Qed.

Lemma exec_all_nil_pos (pos skip : nat) : exec_all m pos skip [] = [].
Proof. reflexivity. Qed.

(** Every match of the scan starts where the pattern matches. *)
Lemma exec_all_In (s : jsstring) :
  forall pos skip r,
    In r (exec_all m pos skip s) ->
    pos <= index r
    /\ exists len,
         m (skipn (index r - pos) s) = Some (captures r, len)
         /\ lastIndex r = index r + len
         /\ index r - pos < length s.
Proof.
  induction s as [|c s IH]; intros pos skip r H; [destruct H|].
  cbn [exec_all] in H.
  assert (Hrec : forall k, In r (exec_all m (S pos) k s) ->
            pos <= index r
            /\ exists len,
                 m (skipn (index r - pos) (c :: s)) = Some (captures r, len)
                 /\ lastIndex r = index r + len
                 /\ index r - pos < length (c :: s)).
  { intros k Hk. destruct (IH _ _ _ Hk) as (Hle & len & Hm & Hl & Hlt).
    split; [lia|]. exists len.
    replace (index r - pos) with (S (index r - S pos)) by lia.
    cbn [skipn length]. repeat split; auto. lia. }
  destruct skip as [|k]; [|now apply Hrec in H].
  destruct (m (c :: s)) as [[a len]|] eqn:E; [|now apply Hrec in H].
  destruct H as [<-|H]; [|now apply Hrec in H].
  cbn [index captures lastIndex]. split; [lia|]. exists len.
  rewrite Nat.sub_diag. cbn [skipn length]. repeat split; auto. lia.
Qed.

Lemma exec_all_no_match (s : jsstring) :
  forall pos pos', exec_first m pos s = None -> exec_all m pos' 0 s = [].
Proof.
  induction s as [|c s IH]; intros pos pos' H; [reflexivity|].
  cbn [exec_first] in H. cbn [exec_all].
  destruct (m (c :: s)) as [[a len]|]; [discriminate|].
  exact (IH _ _ H).
Qed.

End Scan.

Lemma invoke_re_needs_lt (c : N) (x : jsstring) :
  not_lt c = true -> invoke_re (c :: x) = None.
Proof.
  unfold not_lt. intros H. unfold invoke_re.
  change (u16 "<invoke") with (60%N :: u16 "invoke").
  cbn [strip_prefix].
  destruct (N.eqb_spec 60 c) as [<-|]; [discriminate|reflexivity].
Qed.

Lemma direct_tool_re_needs_lt (c : N) (x : jsstring) :
  not_lt c = true -> direct_tool_re (c :: x) = None.
Proof.
  unfold not_lt. intros H. unfold direct_tool_re.
  destruct c as [|p]; [reflexivity|].
  do 6 (destruct p as [p|p|]; try reflexivity). discriminate.
Qed.

(** The invoke pattern finds the calls of a layout, and nothing else. *)
Lemma exec_all_invoke_layout (segments : list (jsstring * InvokeCall))
  (last : jsstring) :
  forallb wellFormedSegment segments = true ->
  plain last = true ->
  forall pos,
    exec_all invoke_re pos 0 (layout segments last) = spans pos segments.
Proof.
  intros Hsegs Hlast.
  induction segments as [|[t c] rest IH]; intros pos; cbn [layout spans].
  - rewrite <- (app_nil_r last).
    now rewrite (exec_all_no_start invoke_re not_lt last [] invoke_re_needs_lt Hlast).
  - cbn [forallb] in Hsegs. apply andb_true_iff in Hsegs as [Hseg Hrest].
    unfold wellFormedSegment in Hseg; cbn [fst snd] in Hseg.
    apply andb_true_iff in Hseg as [Ht Hc].
    rewrite (exec_all_no_start invoke_re not_lt t _ invoke_re_needs_lt Ht).
    pose proof (invoke_re_render c (layout rest last) Hc) as Hm.
    remember (renderInvoke c) as rc eqn:Erc.
    destruct rc as [|x rc'].
    { unfold renderInvoke in Erc. discriminate. }
    cbn [app] in Hm |- *. cbn [exec_all]. rewrite Hm.
    f_equal.
    cbn [length]. rewrite Nat.sub_succ, Nat.sub_0_r.
    rewrite exec_all_skip, IH by exact Hrest.
    f_equal. lia.
Qed.

Lemma plain_nth (t : jsstring) (i : nat) :
  plain t = true -> nth_error t i <> Some 60%N.
Proof.
  unfold plain. intros H E.
  apply nth_error_In in E.
  rewrite forallb_forall in H. specialize (H _ E). discriminate.
Qed.

(** A [<] of a layout lies inside one of its calls. *)
Lemma lt_in_layout (segments : list (jsstring * InvokeCall))
  (last : jsstring) :
  forallb wellFormedSegment segments = true ->
  plain last = true ->
  forall pos i,
    nth_error (layout segments last) i = Some 60%N ->
    exists r,
      In r (spans pos segments)
      /\ index r <= pos + i < lastIndex r.
Proof.
  intros Hsegs Hlast.
  induction segments as [|[t c] rest IH]; intros pos i Hi; cbn [layout spans] in *.
  - now apply plain_nth in Hi.
  - cbn [forallb] in Hsegs. apply andb_true_iff in Hsegs as [Hseg Hrest].
    unfold wellFormedSegment in Hseg; cbn [fst snd] in Hseg.
    apply andb_true_iff in Hseg as [Ht _].
    destruct (Nat.lt_ge_cases i (length t)) as [Hlt|Hge].
    { rewrite nth_error_app1 in Hi by exact Hlt. now apply plain_nth in Hi. }
    rewrite nth_error_app2 in Hi by exact Hge.
    destruct (Nat.lt_ge_cases (i - length t) (length (renderInvoke c)))
      as [Hlt|Hge'].
    + eexists. split; [left; reflexivity|]. cbn [index lastIndex]. lia.
    + rewrite nth_error_app2 in Hi by exact Hge'.
      destruct (IH Hrest (pos + length t + length (renderInvoke c)) _ Hi)
        as (r & Hin & Hr).
      exists r. split; [right; exact Hin|]. lia.
Qed.

Lemma nth_error_skipn_head {A} (s : list A) (i : nat) {x : A} {r : list A} :
  skipn i s = x :: r -> nth_error s i = Some x.
Proof.
  revert s; induction i as [|i IH]; intros [|y s] H; cbn in *;
    try discriminate.
  - now inversion H.
  - now apply IH.
Qed.

(** In a layout, every match of the direct-tag pattern starts inside a
    call, and the second loop keeps none. *)
Lemma addDirectCalls_layout (segments : list (jsstring * InvokeCall))
  (last : jsstring) :
  forallb wellFormedSegment segments = true ->
  plain last = true ->
  let text := layout segments last in
  addDirectCalls text (map toolCallOfMatch (spans 0 segments))
  = map toolCallOfMatch (spans 0 segments).
Proof.
  intros Hsegs Hlast text.
  unfold addDirectCalls.
  assert (Hall : forall m, In m (exec_all direct_tool_re 0 0 text) ->
            overlaps (map toolCallOfMatch (spans 0 segments))
              (index m) (lastIndex m) = true).
  { intros m Hm.
    destruct (exec_all_In direct_tool_re text 0 0 m Hm)
      as (_ & len & Hre & _ & Hlt).
    rewrite Nat.sub_0_r in Hre, Hlt.
    assert (Hchar : nth_error text (index m) = Some 60%N).
    { destruct (skipn (index m) text) as [|x r] eqn:E.
      - discriminate Hre.
      - rewrite (nth_error_skipn_head _ _ E). f_equal.
        destruct (N.eqb_spec x 60) as [->|Hne]; [reflexivity|].
        rewrite direct_tool_re_needs_lt in Hre; [discriminate|].
        unfold not_lt. now apply negb_true_iff, N.eqb_neq. }
    destruct (lt_in_layout segments last Hsegs Hlast 0 _ Hchar)
      as (r & Hin & Hr).
    unfold overlaps. apply existsb_exists.
    exists (toolCallOfMatch r). split; [now apply in_map|].
    cbn [toolCallOfMatch start end_].
    apply orb_true_iff. left. apply andb_true_iff.
    split; [apply Nat.leb_le|apply Nat.ltb_lt]; lia. }
  revert Hall. generalize (exec_all direct_tool_re 0 0 text).
  intros ms. induction ms as [|m ms IH]; intros Hall; [reflexivity|].
  cbn [fold_left]. rewrite (Hall m (or_introl eq_refl)).
  apply IH. intros m' Hm'. apply Hall. now right.
Qed.

Lemma spans_from (segments : list (jsstring * InvokeCall)) :
  forall pos, Forall (fun r => pos <= index r) (spans pos segments).
Proof.
  induction segments as [|[t c] rest IH]; intros pos; cbn [spans];
    constructor.
  - cbn [index]. lia.
  - eapply Forall_impl; [|apply IH]. cbn. intros; lia.
Qed.

Lemma spans_sorted (segments : list (jsstring * InvokeCall)) :
  forall pos,
    StronglySorted byStart (map toolCallOfMatch (spans pos segments)).
Proof.
  induction segments as [|[t c] rest IH]; intros pos; cbn [spans map];
    constructor.
  - apply IH.
  - apply Forall_map.
    eapply Forall_impl; [|apply spans_from].
    unfold byStart. cbn. intros; lia.
Qed.

(** Sorting changes nothing in an array that is in order. *)
Lemma sortByStart_sorted_id (l : list ToolCall) :
  StronglySorted byStart l -> sortByStart l = l.
Proof.
  intros H. induction H as [|x l Hl IH Hx]; [reflexivity|].
  cbn [sortByStart fold_right]. fold (sortByStart l). rewrite IH.
  destruct l as [|y l]; [reflexivity|].
  cbn [insertByStart].
  apply Forall_inv in Hx. unfold byStart in Hx.
  apply Nat.leb_le in Hx. now rewrite Hx.
Qed.

(** The candidates of a layout without fabricated result and without
    wrapper are its calls. *)
Lemma collectToolCalls_layout (segments : list (jsstring * InvokeCall))
  (last : jsstring) :
  forallb wellFormedSegment segments = true ->
  plain last = true ->
  collectToolCalls (layout segments last)
  = map toolCallOfMatch (spans 0 segments).
Proof.
  intros Hsegs Hlast.
  unfold collectToolCalls, invokeCalls.
  rewrite (exec_all_invoke_layout segments last Hsegs Hlast).
  rewrite (addDirectCalls_layout segments last Hsegs Hlast).
  apply sortByStart_sorted_id, spans_sorted.
Qed.

Lemma preprocess_id (text : jsstring) :
  includes text (u16 "<function_result>") = false ->
  includes text (u16 "<function_calls>") = false ->
  preprocess text = text.
Proof.
  intros Hres Hcalls.
  unfold preprocess, removeFabricated.
  rewrite (remove_all_no_match function_result_re text 0)
    by (now apply delimited_needs_opener).
  unfold unwrapFunctionCalls, functionCallBlocks.
  rewrite (exec_all_no_match function_calls_re text 0 0)
    by (now apply delimited_needs_opener).
  reflexivity.
Qed.

Lemma keptTexts_app (a b : list jsstring) :
  keptTexts (a ++ b) = keptTexts a ++ keptTexts b.
Proof.
  induction a as [|t a IH]; [reflexivity|].
  cbn [app keptTexts]. rewrite IH. now destruct (trim t).
Qed.

Lemma layout_last (segments : list (jsstring * InvokeCall)) (last : jsstring) :
  layout segments last = layout segments [] ++ last.
Proof.
  induction segments as [|[t c] rest IH]; cbn [layout]; [reflexivity|].
  rewrite IH. now rewrite !app_assoc.
Qed.

Section Loop.

Variable JSON_parse : jsstring -> option value.

(** The text pushed before a call that starts [length t] code units
    after the last index. *)
Lemma textBefore_layout (pre t rest : jsstring) (texts : list jsstring) :
  (if length pre <? length pre + length t
   then
     match trim (substring (pre ++ t ++ rest) (length pre)
                   (length pre + length t)) with
     | [] => texts
     | _ :: _ =>
         texts ++ [trim (substring (pre ++ t ++ rest) (length pre)
                           (length pre + length t))]
     end
   else texts)
  = texts ++ keptTexts [t].
Proof.
  destruct (Nat.ltb_spec (length pre) (length pre + length t)) as [Hlt|Hge].
  - unfold substring.
    rewrite skipn_app, skipn_all, Nat.sub_diag. cbn [skipn app].
    replace (length pre + length t - length pre) with (length t) by lia.
    rewrite firstn_app_exact.
    cbn [keptTexts]. destruct (trim t); [now rewrite app_nil_r|reflexivity].
  - destruct t as [|x t]; [|cbn [length] in Hge; lia].
    cbn. now rewrite app_nil_r.
Qed.

Lemma processToolCalls_layout (segments : list (jsstring * InvokeCall))
  (last : jsstring) :
  forall pre st,
    lastIndex_ st = length pre ->
    fold_left (processToolCall JSON_parse (pre ++ layout segments last))
      (map toolCallOfMatch (spans (length pre) segments)) st
    = mkLoopState (length pre + length (layout segments []))
        (acc_text st ++ keptTexts (map fst segments))
        (acc_calls st ++ map (fun seg => invocationOf JSON_parse (snd seg)) segments).
Proof.
  induction segments as [|[t c] rest IH]; intros pre st Hst.
  - destruct st as [li tx cs]. cbn in *. subst li.
    now rewrite Nat.add_0_r, !app_nil_r.
  - cbn [layout spans map fold_left fst snd].
    set (rc := renderInvoke c).
    replace (pre ++ t ++ rc ++ layout rest last)
      with ((pre ++ t ++ rc) ++ layout rest last)
      by (now rewrite <- !app_assoc).
    replace (length pre + length t + length rc)
      with (length (pre ++ t ++ rc))
      by (rewrite !length_app; lia).
    rewrite IH.
    + f_equal.
      * rewrite !length_app. lia.
      * cbn [processToolCall acc_text toolCallOfMatch start index].
        rewrite Hst.
        replace ((pre ++ t ++ rc) ++ layout rest last)
          with (pre ++ t ++ (rc ++ layout rest last))
          by (now rewrite <- !app_assoc).
        cbv zeta. rewrite textBefore_layout.
        rewrite <- app_assoc. f_equal.
        change (t :: map fst rest) with ([t] ++ map fst rest).
        now rewrite keptTexts_app.
      * cbn [processToolCall acc_calls]. rewrite <- app_assoc. reflexivity.
    + cbn [processToolCall lastIndex_ toolCallOfMatch end_ lastIndex].
      rewrite !length_app. lia.
Qed.

End Loop.

Section Order.

Variable JSON_parse : jsstring -> option value.

(** What the parser returns for a layout with at least one call. *)
Lemma parseAnthropicToolCalls_layout
  (segments : list (jsstring * InvokeCall)) (last : jsstring) :
  forallb wellFormedSegment segments = true ->
  plain last = true ->
  segments <> [] ->
  includes (layout segments last) (u16 "<function_result>") = false ->
  includes (layout segments last) (u16 "<function_calls>") = false ->
  parseAnthropicToolCalls JSON_parse (layout segments last)
  = mkParseResult
      (keptTexts (map fst segments ++ [last]))
      (map (fun seg => invocationOf JSON_parse (snd seg)) segments).
Proof.
  intros Hsegs Hlast Hne Hres Hcalls.
  unfold parseAnthropicToolCalls.
  rewrite (preprocess_id _ Hres Hcalls).
  rewrite (collectToolCalls_layout segments last Hsegs Hlast).
  pose proof (processToolCalls_layout JSON_parse segments last []
                (mkLoopState 0 [] []) eq_refl) as Hloop.
  cbn [app length lastIndex_ acc_text acc_calls Nat.add] in Hloop.
  rewrite Hloop. cbn [lastIndex_ acc_text acc_calls].
  destruct segments as [|seg rest]; [congruence|].
  cbn [map]. f_equal.
  rewrite keptTexts_app.
  rewrite (layout_last (seg :: rest) last), length_app.
  set (body := layout (seg :: rest) []).
  destruct (Nat.ltb_spec (length body) (length body + length last))
    as [Hlt|Hge].
  - unfold substring_from.
    rewrite skipn_app, skipn_all, Nat.sub_diag. cbn [skipn app].
    cbn [keptTexts]. destruct (trim last); [now rewrite app_nil_r|reflexivity].
  - destruct last as [|x last']; [|cbn [length] in Hge; lia].
    cbn. now rewrite app_nil_r.
Qed.

End Order.

Section OrderParts.

Import Anthropic.

Variable JSON_parse : jsstring -> option value.

(** C1, as the code has it.  The input is made of N >= 1 invoke-style
    calls written out in full, each after a stretch of text without [<],
    and a last such stretch, and has no [<function_result>] and no
    [<function_calls>] tag.  The parser returns exactly N function
    calls, those of the source in left-to-right order.
    [convertAnthropicResponseToParts] emits them as invocation parts
    after at most one text part, which holds every text segment that is
    not blank, trimmed, joined by newlines: the segments that precede a
    call and those that follow it alike.  The fallback of
    [generateContent] emits the N invocation parts and no text part. *)
Theorem invoke_calls_in_source_order
  (segments : list (jsstring * InvokeCall)) (last : jsstring)
  (content : value) :
  forallb wellFormedSegment segments = true ->
  plain last = true ->
  segments <> [] ->
  includes (layout segments last) (u16 "<function_result>") = false ->
  includes (layout segments last) (u16 "<function_calls>") = false ->
  opt_prop (opt_index0 content) (u16 "text")
  = VString (layout segments last) ->
  let input := layout segments last in
  let calls := map (fun seg => invocationOf JSON_parse (snd seg)) segments in
  let combinedText :=
    trim (join [10%N] (keptTexts (map fst segments ++ [last]))) in
  length calls = length segments
  /\ map fc_name calls = map (fun seg => inv_name (snd seg)) segments
  /\ functionCalls (parseAnthropicToolCalls JSON_parse input) = calls
  /\ convertAnthropicResponseToParts JSON_parse input
     = match combinedText with
       | [] => []
       | _ :: _ => [PText combinedText]
       end ++ map PFunctionCall calls
  /\ exists acc,
       fallbackParts JSON_parse content = Ok acc
       /\ Anthropic.acc_parts acc = map partOfFunctionCall calls.
Proof.
  intros Hsegs Hlast Hne Hres Hcalls Hcontent input calls combinedText.
  pose proof (parseAnthropicToolCalls_layout JSON_parse segments last
                Hsegs Hlast Hne Hres Hcalls) as Hparse.
  fold input in Hparse. fold calls in Hparse.
  split; [apply length_map|].
  split; [unfold calls; rewrite map_map; reflexivity|].
  split; [now rewrite Hparse|].
  split.
  - unfold convertAnthropicResponseToParts. rewrite Hparse. reflexivity.
  - unfold fallbackParts. rewrite Hcontent. fold input.
    assert (Htext : or_else (VString input) (VString []) = VString input).
    { unfold or_else. now destruct input. }
    rewrite Htext, Hparse. cbn [functionCalls].
    eexists. split; [reflexivity|].
    cbn [Anthropic.acc_parts].
    unfold calls. destruct segments as [|seg rest]; [congruence|].
    cbn [map]. now destruct input.
Qed.

End OrderParts.

(** C1, as the code has it, on two calls, the first with a parameter,
    with text before, between and after them. *)
Lemma invoke_calls_in_source_order_witness :
  let segments :=
    [(u16 "first ",
      mkInvoke (u16 " ") (u16 "read_file")
        (jq "<parameter name='path'>/a</parameter>"));
     (u16 " then ", mkInvoke (u16 " ") (u16 "g") [])] in
  let last := u16 " done" in
  let input := layout segments last in
  let content := VObject [(u16 "0", VObject [(u16 "text", VString input)])] in
  let calls :=
    [mkFunctionCall (u16 "read_file")
       [(u16 "absolute_path", VString (u16 "/a"))];
     mkFunctionCall (u16 "g") []] in
  input
  = jq "first <invoke name='read_file'><parameter name='path'>/a</parameter></invoke> then <invoke name='g'></invoke> done"
  /\ functionCalls (parseAnthropicToolCalls Json.parse input) = calls
  /\ convertAnthropicResponseToParts Json.parse input
     = PText (u16 "first" ++ [10%N] ++ u16 "then" ++ [10%N] ++ u16 "done")
       :: map PFunctionCall calls
  /\ exists acc,
       Anthropic.fallbackParts Json.parse content = Anthropic.Ok acc
       /\ Anthropic.acc_parts acc = map Anthropic.partOfFunctionCall calls.
Proof.
  intros segments last input content calls.
  split; [reflexivity|].
  destruct (@invoke_calls_in_source_order Json.parse segments last content)
    as (_ & _ & Hcalls & Hparts & Hfallback);
    try reflexivity; [discriminate|].
  split; [exact Hcalls|]. split; [exact Hparts|exact Hfallback].
Defined.

(** C1 as stated fails.  With one invoke-style call after the text
    [before], the fallback of [generateContent] emits the invocation
    alone: the text that precedes the call in the source is in no part.
    With a shorthand tag in the text around one invoke-style call,
    there are two invocation parts, not one. *)
Lemma text_before_call_is_dropped :
  let input := jq "before <invoke name='f'></invoke>" in
  let data :=
    VObject [(u16 "content",
              VObject [(u16 "0", VObject [(u16 "text", VString input)])])] in
  (exists r,
      Anthropic.responseOfData Json.parse (fun _ => []) data = Anthropic.Ok r
      /\ Anthropic.parts r
         = [Anthropic.FunctionCallPart (VString (u16 "f")) (VObject [])])
  /\ length (invokeCalls (jq "see <b>x</b> <invoke name='f'></invoke>")) = 1
  /\ convertAnthropicResponseToParts Json.parse
       (jq "see <b>x</b> <invoke name='f'></invoke>")
     = [PText (u16 "see");
        PFunctionCall (mkFunctionCall (u16 "b") []);
        PFunctionCall (mkFunctionCall (u16 "f") [])].
Proof.
  intros input data.
  split; [eexists; split; reflexivity|].
  split; reflexivity.
Qed.

(** ** What the overlap test lets through *)

(** What the test of the second loop excludes: a match whose start or
    whose end lies inside the span of a call. *)
Lemma overlaps_false (toolCalls : list ToolCall) (matchStart matchEnd : nat) :
  overlaps toolCalls matchStart matchEnd = false ->
  forall tc,
    In tc toolCalls ->
    (matchEnd <= start tc \/ end_ tc <= matchStart)
    \/ (matchStart < start tc /\ end_ tc < matchEnd).
Proof.
  unfold overlaps. intros H tc Hin.
  destruct (((start tc <=? matchStart) && (matchStart <? end_ tc))
            || ((start tc <? matchEnd) && (matchEnd <=? end_ tc))) eqn:E.
  - exfalso.
    assert (existsb
              (fun tc0 =>
                 ((start tc0 <=? matchStart) && (matchStart <? end_ tc0))
                 || ((start tc0 <? matchEnd) && (matchEnd <=? end_ tc0)))
              toolCalls = true)
      by (apply existsb_exists; exists tc; auto).
    congruence.
  - apply orb_false_iff in E as [E1 E2].
    apply andb_false_iff in E1. apply andb_false_iff in E2.
    rewrite Nat.leb_gt, Nat.ltb_ge in E1.
    rewrite Nat.ltb_ge, Nat.leb_gt in E2.
    lia.
Qed.

(** A direct match that is kept is disjoint from every invoke-style
    call, or strictly encloses it: the one overlap that the test lets
    through. *)
Lemma kept_direct_call_misses_or_encloses (text : jsstring)
  (invoke : list ToolCall) (d : ToolCall) :
  In d (addDirectCalls text invoke) ->
  In d invoke
  \/ forall tc,
       In tc invoke ->
       (end_ d <= start tc \/ end_ tc <= start d)
       \/ (start d < start tc /\ end_ tc < end_ d).
Proof.
  unfold addDirectCalls.
  generalize (exec_all direct_tool_re 0 0 text). intros ms.
  assert (H : forall acc,
             incl invoke acc ->
             In d (fold_left
                     (fun tcs m =>
                        if overlaps tcs (index m) (lastIndex m) then tcs
                        else tcs ++ [toolCallOfMatch m]) ms acc) ->
             In d acc
             \/ forall tc,
                  In tc invoke ->
                  (end_ d <= start tc \/ end_ tc <= start d)
                  \/ (start d < start tc /\ end_ tc < end_ d)).
  { induction ms as [|m ms IH]; intros acc Hincl Hd; cbn [fold_left] in Hd.
    - now left.
    - destruct (overlaps acc (index m) (lastIndex m)) eqn:E.
      + now apply IH.
      + destruct (IH (acc ++ [toolCallOfMatch m])) as [Hin|Hout]; auto.
        * now apply incl_appl.
        * apply in_app_or in Hin as [Hin|[<-|[]]]; [now left|right].
          intros tc Htc.
          apply (overlaps_false _ _ _ E tc (Hincl _ Htc)). }
  intros Hd. exact (H invoke (incl_refl _) Hd).
Qed.

(** In particular a shorthand tag inside an invoke-style call is
    discarded. *)
Example enclosed_direct_tag_is_discarded :
  collectToolCalls (jq "<invoke name='f'><a>1</a></invoke>")
  = [mkToolCall (u16 "f") (u16 "<a>1</a>") 0 34].
Proof. reflexivity. Qed.

(** ** Settlements along a trace *)

Section Settlement.

Import Aider.

Lemma write_accounted (line : jsstring) (s : AiderService) :
  settlements (write line s) = settlements s
  /\ currentCommand (write line s) = currentCommand s
  /\ commandQueue (write line s) = commandQueue s.
Proof. unfold write. now destruct (aiderProcess s). Qed.

Lemma writes_accounted {X : Type} (g : AiderService -> X -> AiderService)
  (lines : list X) :
  (forall st x,
      settlements (g st x) = settlements st
      /\ currentCommand (g st x) = currentCommand st
      /\ commandQueue (g st x) = commandQueue st) ->
  forall s,
    settlements (fold_left g lines s) = settlements s
    /\ currentCommand (fold_left g lines s) = currentCommand s
    /\ commandQueue (fold_left g lines s) = commandQueue s.
Proof.
  intros Hg.
  induction lines as [|l ls IH]; intros s; cbn [fold_left]; [auto|].
  destruct (IH (g s l)) as (H1 & H2 & H3).
  destruct (Hg s l) as (W1 & W2 & W3).
  now rewrite H1, H2, H3, W1, W2, W3.
Qed.

Lemma processNextCommand_accounted (s : AiderService) :
  accounted (processNextCommand s) = accounted s.
Proof.
  unfold processNextCommand.
  destruct (currentCommand s) as [cur|] eqn:Ecur; [reflexivity|].
  destruct (commandQueue s) as [|c queue] eqn:Eq; [reflexivity|].
  unfold accounted, pending.
  cbn [settlements currentCommand commandQueue].
  match goal with
  | |- context [write ?l (fold_left ?g ?ls ?s1)] =>
      destruct (write_accounted l (fold_left g ls s1)) as (W1 & W2 & W3);
      destruct (writes_accounted g ls
                  (fun st x => write_accounted _ st) s1)
        as (H1 & H2 & H3)
  end.
  rewrite W1, W2, W3, H1, H2, H3.
  cbn [settlements currentCommand commandQueue].
  now rewrite Ecur, Eq.
Qed.

Lemma completeCurrentCommand_accounted (s : AiderService) :
  accounted (completeCurrentCommand s) = accounted s.
Proof.
  unfold completeCurrentCommand.
  destruct (currentCommand s) as [c|] eqn:Ecur; [|reflexivity].
  rewrite processNextCommand_accounted.
  unfold accounted, pending, settle.
  cbn [settlements currentCommand commandQueue]. rewrite Ecur.
  rewrite map_app, <- app_assoc. reflexivity.
Qed.

Lemma created_cons (e : event) (es : list event) :
  created (e :: es) = created [e] ++ created es.
Proof. unfold created. cbn [flat_map]. now rewrite app_nil_r. Qed.

(** A step settles only commands that were pending, and leaves the
    others as they are. *)
Lemma step_accounted (s : AiderService) (e : event) :
  Permutation (accounted (step s e)) (accounted s ++ created [e])
  \/ accounted (step s e) = accounted s.
Proof.
  destruct e as [c|c|data|n|]; cbn [step created flat_map app].
  - left. unfold executor. rewrite processNextCommand_accounted.
    unfold accounted, pending. cbn [settlements currentCommand commandQueue].
    destruct (currentCommand s);
      cbn [map]; rewrite ?map_app, <- ?app_assoc; reflexivity.
  - unfold updateRepoMap. destruct (aiderProcess s); [left|now right].
    rewrite processNextCommand_accounted.
    unfold accounted, pending. cbn [settlements currentCommand commandQueue].
    destruct (currentCommand s); cbn [map cmd].
    + rewrite <- app_assoc. apply Permutation_app_head. cbn [app].
      apply perm_skip. apply Permutation_cons_append.
    + rewrite <- app_assoc. apply Permutation_app_head.
      apply Permutation_cons_append.
  - right. unfold handleOutput.
    match goal with |- context [if ?b then _ else _] => destruct b end;
      [rewrite completeCurrentCommand_accounted|]; reflexivity.
  - right. unfold timeoutFires.
    destruct (nth_error (timers s) n); [|reflexivity].
    match goal with |- context [if ?b then _ else _] => destruct b end;
      [rewrite completeCurrentCommand_accounted|]; reflexivity.
  - right.
    destruct (onClose_rejects_pending s) as (H1 & H2 & H3 & _).
    unfold accounted at 1. unfold pending at 1. rewrite H1, H2, H3.
    unfold accounted. cbn [map]. rewrite app_nil_r, map_app, map_map.
    reflexivity.
Qed.

(** X16.  No command is settled twice: when the commands that the state
    accounts for and those that the events create are all distinct
    objects, so are the ones settled at the end of the trace. *)
Lemma settled_at_most_once (es : list event) :
  forall s,
    NoDup (accounted s ++ created es) ->
    NoDup (map settled_cmd (settlements (run s es))).
Proof.
  assert (H : forall s, NoDup (accounted s ++ created es) ->
                        NoDup (accounted (run s es))).
  { induction es as [|e es IH]; intros s Hs.
    - cbn in *. now rewrite app_nil_r in Hs.
    - change (run s (e :: es)) with (run (step s e) es).
      apply IH.
      rewrite created_cons in Hs.
      destruct (step_accounted s e) as [Hp|He].
      + eapply Permutation_NoDup; [|exact Hs].
        rewrite app_assoc. apply Permutation_app_tail. now symmetry.
      + rewrite He.
        apply (NoDup_app_remove_l (created [e])).
        eapply Permutation_NoDup; [|exact Hs].
        apply Permutation_app_swap_app. }
  intros s Hs. specialize (H s Hs).
  unfold accounted in H. now apply NoDup_app_remove_r in H.
Qed.

End Settlement.

(** X16 on a trace in which the timeout of the first command fires after
    its completion, and the child exits. *)
Lemma settled_at_most_once_witness :
  let es :=
    [Aider.Execute QueueTraces.cmdA; Aider.Execute QueueTraces.cmdB;
     Aider.Output (u16 "> "); Aider.TimeoutFires 0; Aider.Close] in
  NoDup (map Aider.settled_cmd
           (Aider.settlements (Aider.run QueueTraces.ready es)))
  /\ length (Aider.settlements (Aider.run QueueTraces.ready es)) = 2.
Proof.
  intros es. split; [|reflexivity].
  apply (settled_at_most_once es QueueTraces.ready).
  repeat constructor; cbn; intuition discriminate.
Defined.

(** ** Text without tool call *)

Section NoToolCall.

Import Tags.

Variable JSON_parse : jsstring -> option value.


Lemma exec_first_plain {A : Type} (m : matcher A) (t : jsstring) :
  (forall c x, not_lt c = true -> m (c :: x) = None) ->
  plain t = true ->
  forall pos, exec_first m pos t = None.
Proof.
  intros Hm. induction t as [|c t IH]; intros Ht pos; [reflexivity|].
  unfold plain in Ht. cbn [forallb] in Ht.
  apply andb_true_iff in Ht as [Hc Ht].
  cbn [exec_first]. rewrite (Hm _ _ Hc). now apply IH.
Qed.

Lemma delimited_needs_lt (tag close : jsstring) (c : N) (x : jsstring) :
  not_lt c = true -> delimited (60%N :: tag) close (c :: x) = None.
Proof.
  unfold not_lt, delimited. intros H. cbn [strip_prefix].
  destruct (N.eqb_spec 60 c) as [<-|]; [discriminate|reflexivity].
Qed.

(** Text without [<] has no tag. *)
Lemma plain_noToolTag (text : jsstring) :
  plain text = true -> noToolTag text = true.
Proof.
  intros H. unfold noToolTag.
  rewrite (exec_first_plain function_result_re text
             (delimited_needs_lt _ _) H).
  rewrite (exec_first_plain function_calls_re text
             (delimited_needs_lt _ _) H).
  rewrite (exec_first_plain invoke_re text invoke_re_needs_lt H).
  rewrite (exec_first_plain direct_tool_re text direct_tool_re_needs_lt H).
  reflexivity.
Qed.

Lemma parseAnthropicToolCalls_without_tag (text : jsstring) :
  noToolTag text = true ->
  parseAnthropicToolCalls JSON_parse text = mkParseResult [text] [].
Proof.
  unfold noToolTag. intros H.
  destruct (exec_first function_result_re 0 text) eqn:Eres; [discriminate|].
  destruct (exec_first function_calls_re 0 text) eqn:Ecalls; [discriminate|].
  destruct (exec_first invoke_re 0 text) eqn:Einv; [discriminate|].
  destruct (exec_first direct_tool_re 0 text) eqn:Edir; [discriminate|].
  unfold parseAnthropicToolCalls, preprocess, removeFabricated.
  rewrite (remove_all_no_match function_result_re text 0 Eres).
  unfold unwrapFunctionCalls, functionCallBlocks.
  rewrite (exec_all_no_match function_calls_re text 0 0 Ecalls).
  cbn [map fold_left].
  unfold collectToolCalls, invokeCalls, addDirectCalls.
  rewrite (exec_all_no_match invoke_re text 0 0 Einv).
  rewrite (exec_all_no_match direct_tool_re text 0 0 Edir).
  reflexivity.
Qed.

(** X1.  A text in which no pattern matches, as every text without [<],
    comes back whole, as the only text part and without function call;
    the conversion to parts gives the trimmed text, or nothing when the
    text is blank. *)
Theorem text_without_tag_is_one_text_part (text : jsstring) :
  noToolTag text = true ->
  parseAnthropicToolCalls JSON_parse text = mkParseResult [text] []
  /\ convertAnthropicResponseToParts JSON_parse text
     = match trim text with
       | [] => []
       | _ :: _ => [PText (trim text)]
       end.
Proof.
  intros H.
  pose proof (parseAnthropicToolCalls_without_tag text H) as Hparse.
  split; [exact Hparse|].
  unfold convertAnthropicResponseToParts. rewrite Hparse.
  cbn [textParts functionCalls join map]. now rewrite app_nil_r.
Qed.

End NoToolCall.

(** X1 on a text with a comparison sign that opens no tag. *)
Lemma text_without_tag_is_one_text_part_witness :
  let text := u16 "  if a < b then c > d  " in
  parseAnthropicToolCalls Json.parse text = mkParseResult [text] []
  /\ convertAnthropicResponseToParts Json.parse text
     = [PText (u16 "if a < b then c > d")].
Proof.
  intros text.
  apply (text_without_tag_is_one_text_part Json.parse text). reflexivity.
Defined.

(** ** Spans of the accepted candidates *)

Import Tags.


Section ScanOrder.

Context {A : Type} (m : matcher A).

(** The matches of a scan come one after the other: each starts at or
    after the end of the previous one. *)
Lemma exec_all_from (s : jsstring) :
  forall pos skip,
    Forall (fun r => pos + skip <= index r) (exec_all m pos skip s).
Proof.
  induction s as [|c s IH]; intros pos skip; cbn [exec_all]; [constructor|].
  destruct skip as [|k].
  - destruct (m (c :: s)) as [[a len]|].
    + constructor; [cbn; lia|].
      eapply Forall_impl; [|apply (IH (S pos) (len - 1))]. cbn. intros; lia.
    + eapply Forall_impl; [|apply (IH (S pos) 0)]. cbn. intros; lia.
  - eapply Forall_impl; [|apply (IH (S pos) k)]. cbn. intros; lia.
Qed.

Lemma exec_all_ordered (s : jsstring) :
  forall pos skip,
    StronglySorted (fun a b => lastIndex a <= index b)
      (exec_all m pos skip s).
Proof.
  induction s as [|c s IH]; intros pos skip; cbn [exec_all]; [constructor|].
  destruct skip as [|k]; [|apply IH].
  destruct (m (c :: s)) as [[a len]|]; [|apply IH].
  constructor; [apply IH|].
  eapply Forall_impl; [|apply (exec_all_from s (S pos) (len - 1))].
  cbn. intros; lia.
Qed.

End ScanOrder.

Lemma invokeCalls_disjoint (text : jsstring) :
  ForallOrdPairs disjoint (invokeCalls text).
Proof.
  unfold invokeCalls.
  pose proof (exec_all_ordered invoke_re text 0 0) as H.
  induction H as [|r l Hl IH Hr]; cbn [map]; constructor.
  - apply Forall_map. eapply Forall_impl; [|exact Hr].
    intros b Hb. left. exact Hb.
  - exact IH.
Qed.

(** X3.  Of two candidates that the parser accepts, the later one in the
    array is apart from the earlier one or has it strictly inside: no
    two accepted spans cross, and none starts or ends inside another. *)
Theorem accepted_spans_apart_or_nested (text : jsstring) :
  ForallOrdPairs (fun a b => disjoint a b \/ strictlyInside a b)
    (addDirectCalls text (invokeCalls text)).
Proof.
  unfold addDirectCalls.
  assert (Hinit : ForallOrdPairs
                    (fun a b => disjoint a b \/ strictlyInside a b)
                    (invokeCalls text)).
  { pose proof (invokeCalls_disjoint text) as H.
    induction H as [|a l Ha Hl IH]; constructor; [|exact IH].
    eapply Forall_impl; [|exact Ha]. intros; now left. }
  revert Hinit. generalize (invokeCalls text).
  generalize (exec_all direct_tool_re 0 0 text).
  intros ms. induction ms as [|m ms IH]; intros acc Hacc; cbn [fold_left].
  - exact Hacc.
  - destruct (overlaps acc (index m) (lastIndex m)) eqn:E; [now apply IH|].
    apply IH.
    clear IH. induction Hacc as [|a l Ha Hl IHl]; cbn [app].
    + repeat constructor.
    + constructor.
      * apply Forall_app. split; [exact Ha|].
        constructor; [|constructor].
        destruct (overlaps_false _ _ _ E a (or_introl eq_refl)) as [H|H].
        -- left. unfold disjoint. cbn [toolCallOfMatch start end_]. lia.
        -- right. unfold strictlyInside. cbn [toolCallOfMatch start end_]. lia.
      * apply IHl.
        unfold overlaps in E |- *. cbn [existsb] in E.
        now apply orb_false_iff in E as [_ E].
Qed.

(** ** Objects *)

Lemma str_eqb_neq (a b : jsstring) : a <> b -> str_eqb a b = false.
Proof.
  intros H. destruct (str_eqb a b) eqn:E; [|reflexivity].
  now apply str_eqb_eq in E.
Qed.

Lemma obj_lookup_define_same (k : jsstring) (v : value) (o : object) :
  obj_lookup k (obj_define k v o) = Some v.
Proof.
  induction o as [|[k' v'] o IH]; cbn [obj_define obj_lookup].
  - now rewrite str_eqb_refl.
  - destruct (str_eqb k k') eqn:E; cbn [obj_lookup]; now rewrite E.
Qed.

Lemma obj_lookup_define_other (k k' : jsstring) (v : value) (o : object) :
  k' <> k -> obj_lookup k' (obj_define k v o) = obj_lookup k' o.
Proof.
  intros Hne.
  induction o as [|[k0 v0] o IH]; cbn [obj_define obj_lookup].
  - now rewrite (str_eqb_neq _ _ Hne).
  - destruct (str_eqb k k0) eqn:E; cbn [obj_lookup]; [|now rewrite IH].
    apply str_eqb_eq in E. subst k0. now rewrite (str_eqb_neq _ _ Hne).
Qed.

Lemma obj_lookup_delete_same (k : jsstring) (o : object) :
  obj_lookup k (obj_delete k o) = None.
Proof.
  induction o as [|[k' v'] o IH]; cbn [obj_delete obj_lookup]; [reflexivity|].
  destruct (str_eqb k k') eqn:E; [exact IH|].
  cbn [obj_lookup]. now rewrite E.
Qed.

Lemma obj_lookup_delete_other (k k' : jsstring) (o : object) :
  k' <> k -> obj_lookup k' (obj_delete k o) = obj_lookup k' o.
Proof.
  intros Hne.
  induction o as [|[k0 v0] o IH]; cbn [obj_delete obj_lookup]; [reflexivity|].
  destruct (str_eqb k k0) eqn:E.
  - apply str_eqb_eq in E. subst k0.
    now rewrite IH, (str_eqb_neq _ _ Hne).
  - cbn [obj_lookup]. now rewrite IH.
Qed.

(** ** Aliases of argument names *)

(** A renaming that applies moves the value to the new name, removes
    the old name and touches nothing else. *)
Lemma rename_applies (from to : jsstring) (o : object) (v : value) :
  str_eqb to (u16 "__proto__") = false ->
  from <> to ->
  obj_lookup from o = Some v ->
  obj_lookup to o = None ->
  rename from to o
  = (obj_delete from (obj_define to v o), true)
  /\ obj_lookup to (fst (rename from to o)) = Some v
  /\ obj_lookup from (fst (rename from to o)) = None
  /\ forall k, k <> from -> k <> to ->
               obj_lookup k (fst (rename from to o)) = obj_lookup k o.
Proof.
  intros Hproto Hne Hfrom Hto.
  assert (E : rename from to o = (obj_delete from (obj_define to v o), true)).
  { unfold rename, obj_has, obj_assign. now rewrite Hfrom, Hto, Hproto. }
  rewrite E. cbn [fst]. split; [reflexivity|]. split; [|split].
  - rewrite obj_lookup_delete_other by congruence.
    apply obj_lookup_define_same.
  - apply obj_lookup_delete_same.
  - intros k Hk1 Hk2.
    rewrite obj_lookup_delete_other by exact Hk1.
    now apply obj_lookup_define_other.
Qed.

Lemma rename_skips (from to : jsstring) (o : object) :
  obj_lookup from o = None \/ obj_has to o = true ->
  rename from to o = (o, false).
Proof.
  unfold rename. intros [H|H].
  - now rewrite H.
  - rewrite H. now destruct (obj_lookup from o).
Qed.

Section Aliases.

Variable args : object.
Variable v : value.

(** X4.  An argument given under an alias reaches the tool under the
    expected name, and the alias is gone: [path] for [read_file] and
    [write_file], [cmd] for [run_shell_command], [directory] and, when
    there is no [directory], [dir] for [ls], [content] for
    [write_file]. *)
Theorem mapArgs_resolves_alias :
  (obj_lookup (u16 "path") args = Some v ->
   obj_lookup (u16 "absolute_path") args = None ->
   obj_lookup (u16 "absolute_path") (mapArgs (u16 "read_file") args) = Some v
   /\ obj_lookup (u16 "path") (mapArgs (u16 "read_file") args) = None
   /\ obj_lookup (u16 "absolute_path") (mapArgs (u16 "write_file") args)
      = Some v
   /\ obj_lookup (u16 "path") (mapArgs (u16 "write_file") args) = None)
  /\ (obj_lookup (u16 "cmd") args = Some v ->
      obj_lookup (u16 "command") args = None ->
      obj_lookup (u16 "command") (mapArgs (u16 "run_shell_command") args)
      = Some v
      /\ obj_lookup (u16 "cmd") (mapArgs (u16 "run_shell_command") args)
         = None)
  /\ (obj_lookup (u16 "directory") args = Some v ->
      obj_lookup (u16 "path") args = None ->
      obj_lookup (u16 "path") (mapArgs (u16 "ls") args) = Some v
      /\ obj_lookup (u16 "directory") (mapArgs (u16 "ls") args) = None)
  /\ (obj_lookup (u16 "dir") args = Some v ->
      obj_lookup (u16 "directory") args = None ->
      obj_lookup (u16 "path") args = None ->
      obj_lookup (u16 "path") (mapArgs (u16 "ls") args) = Some v
      /\ obj_lookup (u16 "dir") (mapArgs (u16 "ls") args) = None)
  /\ (obj_lookup (u16 "content") args = Some v ->
      obj_lookup (u16 "contents") args = None ->
      obj_lookup (u16 "contents") (mapArgs (u16 "write_file") args) = Some v
      /\ obj_lookup (u16 "content") (mapArgs (u16 "write_file") args) = None).
Proof.
  split; [|split; [|split; [|split]]].
  - intros Hfrom Hto.
    destruct (rename_applies (u16 "path") (u16 "absolute_path") args v)
      as (_ & H1 & H2 & _); try assumption; [reflexivity|discriminate|].
    split; [exact H1|]. split; [exact H2|].
    change (mapArgs (u16 "write_file") args)
      with (fst (rename (u16 "path") (u16 "absolute_path")
                   (fst (rename (u16 "content") (u16 "contents") args)))).
    destruct (obj_lookup (u16 "content") args) as [c|] eqn:Ec.
    + destruct (obj_lookup (u16 "contents") args) as [c'|] eqn:Ec'.
      * rewrite (rename_skips (u16 "content") (u16 "contents") args)
          by (right; unfold obj_has; now rewrite Ec').
        cbn [fst]. split; assumption.
      * destruct (rename_applies (u16 "content") (u16 "contents") args c)
          as (_ & _ & _ & Hk); try assumption; [reflexivity|discriminate|].
        set (o1 := fst (rename (u16 "content") (u16 "contents") args)) in *.
        destruct (rename_applies (u16 "path") (u16 "absolute_path") o1 v)
          as (_ & G1 & G2 & _); try (reflexivity || discriminate).
        -- rewrite Hk by discriminate. exact Hfrom.
        -- rewrite Hk by discriminate. exact Hto.
        -- split; assumption.
    + rewrite (rename_skips (u16 "content") (u16 "contents") args)
        by (now left).
      cbn [fst]. split; assumption.
  - intros Hfrom Hto.
    destruct (rename_applies (u16 "cmd") (u16 "command") args v)
      as (_ & H1 & H2 & _); try assumption; [reflexivity|discriminate|].
    split; assumption.
  - intros Hfrom Hto.
    destruct (rename_applies (u16 "directory") (u16 "path") args v)
      as (E & H1 & H2 & _); try assumption; [reflexivity|discriminate|].
    change (mapArgs (u16 "ls") args)
      with (let (o, taken) := rename (u16 "directory") (u16 "path") args in
            if taken then o
            else fst (rename (u16 "dir") (u16 "path") args)).
    rewrite E in H1, H2 |- *. cbn [fst] in H1, H2. split; assumption.
  - intros Hfrom Hdir Hto.
    destruct (rename_applies (u16 "dir") (u16 "path") args v)
      as (_ & H1 & H2 & _); try assumption; [reflexivity|discriminate|].
    change (mapArgs (u16 "ls") args)
      with (let (o, taken) := rename (u16 "directory") (u16 "path") args in
            if taken then o
            else fst (rename (u16 "dir") (u16 "path") args)).
    rewrite (rename_skips (u16 "directory") (u16 "path") args) by (now left).
    split; assumption.
  - intros Hfrom Hto.
    change (mapArgs (u16 "write_file") args)
      with (fst (rename (u16 "path") (u16 "absolute_path")
                   (fst (rename (u16 "content") (u16 "contents") args)))).
    destruct (rename_applies (u16 "content") (u16 "contents") args v)
      as (_ & H1 & H2 & Hk); try assumption; [reflexivity|discriminate|].
    set (o1 := fst (rename (u16 "content") (u16 "contents") args)) in *.
    destruct (obj_lookup (u16 "path") o1) as [p|] eqn:Ep.
    + destruct (obj_lookup (u16 "absolute_path") o1) as [p'|] eqn:Ep'.
      * rewrite (rename_skips (u16 "path") (u16 "absolute_path") o1)
          by (right; unfold obj_has; now rewrite Ep').
        split; assumption.
      * destruct (rename_applies (u16 "path") (u16 "absolute_path") o1 p)
          as (_ & _ & _ & Hk'); try assumption; [reflexivity|discriminate|].
        rewrite !Hk' by discriminate. split; assumption.
    + rewrite (rename_skips (u16 "path") (u16 "absolute_path") o1)
        by (now left).
      split; assumption.
Qed.

End Aliases.

(** X4 on the arguments of a [read_file] call that names its file [path]. *)
Lemma mapArgs_resolves_alias_witness :
  let args := [(u16 "path", VString (u16 "/a.txt"))] in
  obj_lookup (u16 "absolute_path") (mapArgs (u16 "read_file") args)
  = Some (VString (u16 "/a.txt"))
  /\ obj_lookup (u16 "path") (mapArgs (u16 "read_file") args) = None
  /\ obj_lookup (u16 "absolute_path") (mapArgs (u16 "write_file") args)
     = Some (VString (u16 "/a.txt"))
  /\ obj_lookup (u16 "path") (mapArgs (u16 "write_file") args) = None.
Proof.
  intros args.
  apply (proj1 (mapArgs_resolves_alias args (VString (u16 "/a.txt"))));
    reflexivity.
Defined.

(** X5.  The arguments are left as they are for every other tool, when no
    alias is used, and when the expected name is given as well: the
    alias then stays beside it. *)
Theorem mapArgs_leaves_other_arguments (toolName : jsstring) (args : object) :
  (toolName <> u16 "read_file" -> toolName <> u16 "run_shell_command" ->
   toolName <> u16 "ls" -> toolName <> u16 "write_file" ->
   mapArgs toolName args = args)
  /\ (obj_lookup (u16 "path") args = None ->
      obj_lookup (u16 "cmd") args = None ->
      obj_lookup (u16 "directory") args = None ->
      obj_lookup (u16 "dir") args = None ->
      obj_lookup (u16 "content") args = None ->
      mapArgs toolName args = args)
  /\ (obj_has (u16 "absolute_path") args = true ->
      mapArgs (u16 "read_file") args = args)
  /\ (obj_has (u16 "command") args = true ->
      mapArgs (u16 "run_shell_command") args = args)
  /\ (obj_has (u16 "path") args = true ->
      mapArgs (u16 "ls") args = args).
Proof.
  split; [|split; [|split; [|split]]].
  - intros H1 H2 H3 H4. unfold mapArgs.
    now rewrite !str_eqb_neq by assumption.
  - intros Hpath Hcmd Hdirectory Hdir Hcontent. unfold mapArgs.
    repeat match goal with
           | |- context [if str_eqb toolName ?x then _ else _] =>
               destruct (str_eqb toolName x)
           end;
      repeat (rewrite (rename_skips _ _ args) by (now left); cbn [fst]);
      reflexivity.
  - intros H.
    change (mapArgs (u16 "read_file") args)
      with (fst (rename (u16 "path") (u16 "absolute_path") args)).
    now rewrite rename_skips by (now right).
  - intros H.
    change (mapArgs (u16 "run_shell_command") args)
      with (fst (rename (u16 "cmd") (u16 "command") args)).
    now rewrite rename_skips by (now right).
  - intros H.
    change (mapArgs (u16 "ls") args)
      with (let (o, taken) := rename (u16 "directory") (u16 "path") args in
            if taken then o
            else fst (rename (u16 "dir") (u16 "path") args)).
    rewrite (rename_skips (u16 "directory") (u16 "path") args)
      by (now right).
    now rewrite rename_skips by (now right).
Qed.

(** X5 on the arguments of a tool without alias. *)
Lemma mapArgs_leaves_other_arguments_witness :
  let args := [(u16 "path", VString (u16 "src"));
               (u16 "pattern", VString (u16 "TODO"))] in
  mapArgs (u16 "grep") args = args.
Proof.
  intros args.
  apply (proj1 (mapArgs_leaves_other_arguments (u16 "grep") args));
    discriminate.
Defined.

(** ** The wrapper of a group of calls *)

Section Unwrap.

Import Tags.

Lemma exec_all_cons {A : Type} (m : matcher A) (pos : nat) (c : N)
  (rest : jsstring) (r : A) (len : nat) :
  m (c :: rest) = Some (r, len) ->
  exec_all m pos 0 (c :: rest)
  = RMatch r pos (pos + len) :: exec_all m (S pos) (len - 1) rest.
Proof. intros H. cbn [exec_all]. now rewrite H. Qed.

Lemma expand_replacement_literal (repl matched before after : jsstring) :
  forallb no_dollar repl = true ->
  expand_replacement repl matched before after = repl.
Proof.
  induction repl as [|c r IH]; intros H; [reflexivity|].
  cbn [forallb] in H. apply andb_true_iff in H as [Hc Hr].
  specialize (IH Hr).
  unfold no_dollar in Hc. apply negb_true_iff, N.eqb_neq in Hc.
  cbn [expand_replacement].
  destruct c as [|p]; [now rewrite IH|].
  do 6 (destruct p as [p|p|]; try (now rewrite IH)).
Qed.

Lemma exec_first_no_start {A : Type} (m : matcher A) (t s : jsstring) :
  (forall c x, not_lt c = true -> m (c :: x) = None) ->
  plain t = true ->
  forall pos, exec_first m pos (t ++ s) = exec_first m (pos + length t) s.
Proof.
  intros Hm. induction t as [|c t IH]; intros Ht pos; cbn [app length].
  - now rewrite Nat.add_0_r.
  - unfold plain in Ht. cbn [forallb] in Ht.
    apply andb_true_iff in Ht as [Hc Ht].
    cbn [exec_first]. rewrite (Hm _ _ Hc), (IH Ht). f_equal. lia.
Qed.

Variables pre body post : jsstring.

Let opening := u16 "<function_calls>".
Let closing := u16 "</function_calls>".
Let text := pre ++ opening ++ body ++ closing ++ post.

Hypothesis pre_plain : plain pre = true.
Hypothesis body_closed :
  indexOf (body ++ closing) closing = Some (length body).
Hypothesis body_literal : forallb no_dollar body = true.
Hypothesis post_free : includes post opening = false.

Lemma function_calls_re_wrapper :
  function_calls_re (opening ++ body ++ closing ++ post)
  = Some (body, length (opening ++ body ++ closing)).
Proof.
  unfold function_calls_re, delimited. fold opening closing.
  rewrite strip_prefix_app, (indexOf_extend _ _ post body_closed).
  rewrite firstn_app_exact, !length_app. do 2 f_equal; lia.
Qed.

Lemma functionCallBlocks_wrapper : functionCallBlocks text = [body].
Proof.
  unfold functionCallBlocks, text.
  rewrite (exec_all_no_start function_calls_re not_lt pre _
             (delimited_needs_lt _ _) pre_plain).
  pose proof function_calls_re_wrapper as Hm.
  assert (E : opening ++ body ++ closing ++ post
              = 60%N :: (u16 "function_calls>" ++ body ++ closing ++ post))
    by reflexivity.
  rewrite E in Hm |- *.
  rewrite (exec_all_cons _ _ _ _ _ _ Hm).
  cbn [map captures]. f_equal.
  replace (length (opening ++ body ++ closing) - 1)
    with (length (u16 "function_calls>" ++ body ++ closing))
    by (rewrite !length_app;
        change (length opening) with 16;
        change (length (u16 "function_calls>")) with 15; lia).
  replace (u16 "function_calls>" ++ body ++ closing ++ post)
    with ((u16 "function_calls>" ++ body ++ closing) ++ post)
    by (now rewrite <- !app_assoc).
  rewrite exec_all_skip.
  now rewrite (exec_all_no_match function_calls_re post 0 _
                 (delimited_needs_opener _ _ _ post_free 0)).
Qed.

(** X6.  One wrapper around content without dollar sign, after text without
    [<] and before text without another wrapper: the wrapper goes and
    its content stays in place. *)
Theorem unwrapFunctionCalls_wrapper :
  unwrapFunctionCalls text = pre ++ body ++ post.
Proof.
  unfold unwrapFunctionCalls. rewrite functionCallBlocks_wrapper.
  cbn [fold_left]. unfold replace_first, text.
  rewrite (exec_first_no_start function_calls_re pre _
             (delimited_needs_lt _ _) pre_plain).
  pose proof function_calls_re_wrapper as Hm.
  change (opening ++ body ++ closing ++ post)
    with (60%N :: (u16 "function_calls>" ++ body ++ closing ++ post))
    in Hm |- *.
  cbn [exec_first]. rewrite Hm. cbn [index lastIndex Nat.add].
  rewrite expand_replacement_literal by exact body_literal.
  change (60%N :: (u16 "function_calls>" ++ body ++ closing ++ post))
    with (opening ++ body ++ closing ++ post).
  rewrite firstn_app_exact.
  f_equal. f_equal.
  replace (pre ++ opening ++ body ++ closing ++ post)
    with ((pre ++ opening ++ body ++ closing) ++ post)
    by (now rewrite <- !app_assoc).
  rewrite skipn_app.
  replace (length pre + length (opening ++ body ++ closing))
    with (length (pre ++ opening ++ body ++ closing))
    by (rewrite !length_app; lia).
  now rewrite skipn_all, Nat.sub_diag.
Qed.

End Unwrap.

(** X6 on a group of one call between two texts. *)
Lemma unwrapFunctionCalls_wrapper_witness :
  unwrapFunctionCalls
    (jq "Listing. <function_calls><invoke name='ls'></invoke></function_calls> Done.")
  = jq "Listing. <invoke name='ls'></invoke> Done.".
Proof.
  apply (unwrapFunctionCalls_wrapper (u16 "Listing. ")
           (jq "<invoke name='ls'></invoke>") (u16 " Done."));
    reflexivity.
Defined.

(** A dollar sign in the content is read as part of a replacement
    pattern. *)
Example unwrapFunctionCalls_dollar :
  unwrapFunctionCalls
    (u16 "<function_calls><cmd>echo $$</cmd></function_calls>")
  = u16 "<cmd>echo $</cmd>".
Proof. reflexivity. Qed.

(** ** Lines of a stream *)

Lemma split_on_nonempty (sep : N) (s : jsstring) : split_on sep s <> [].
Proof.
  destruct s as [|c s]; cbn [split_on]; [discriminate|].
  destruct (N.eqb c sep); [discriminate|].
  destruct (split_on sep s); discriminate.
Qed.

(** Splitting a text cut in two: the lines of the first piece but its
    last one, then the lines of that last one followed by the second
    piece. *)
Lemma split_on_app (sep : N) (x y : jsstring) :
  split_on sep (x ++ y)
  = removelast (split_on sep x)
    ++ split_on sep (last (split_on sep x) [] ++ y).
Proof.
  induction x as [|c x IH]; cbn [app split_on].
  - reflexivity.
  - destruct (N.eqb c sep) eqn:E.
    + rewrite IH.
      pose proof (split_on_nonempty sep x) as Hne.
      destruct (split_on sep x) as [|l ls] eqn:Ex; [congruence|].
      reflexivity.
    + rewrite IH.
      pose proof (split_on_nonempty sep x) as Hne.
      destruct (split_on sep x) as [|l ls] eqn:Ex; [congruence|].
      destruct ls as [|l' ls'].
      * cbn [removelast last app split_on]. rewrite E.
        destruct (split_on sep (l ++ y)); reflexivity.
      * cbn [removelast last app].
        pose proof (split_on_nonempty sep (last (l' :: ls') [] ++ y)) as Hne'.
        destruct (removelast (l' :: ls')
                  ++ split_on sep (last (l' :: ls') [] ++ y))
          eqn:Er; reflexivity.
Qed.

Lemma last_app_nonempty {A : Type} (l l' : list A) (d : A) :
  l' <> [] -> last (l ++ l') d = last l' d.
Proof.
  intros H. induction l as [|x l IH]; [reflexivity|].
  cbn [app last]. rewrite IH.
  destruct (l ++ l') eqn:E; [|reflexivity].
  apply app_eq_nil in E as [_ E]. congruence.
Qed.

Lemma split_on_no_sep (sep : N) (s : jsstring) :
  forallb (fun c => negb (N.eqb c sep)) s = true -> split_on sep s = [s].
Proof.
  induction s as [|c s IH]; intros H; [reflexivity|].
  cbn [forallb] in H. apply andb_true_iff in H as [Hc Hs].
  cbn [split_on]. apply negb_true_iff in Hc. rewrite Hc, (IH Hs).
  reflexivity.
Qed.

Lemma split_on_last_no_sep (sep : N) (s : jsstring) :
  forallb (fun c => negb (N.eqb c sep)) (last (split_on sep s) []) = true.
Proof.
  induction s as [|c s IH]; [reflexivity|].
  cbn [split_on].
  pose proof (split_on_nonempty sep s) as Hne.
  destruct (N.eqb c sep) eqn:E.
  - destruct (split_on sep s) as [|l ls]; [congruence|]. exact IH.
  - destruct (split_on sep s) as [|l ls]; [congruence|].
    destruct ls as [|l' ls'].
    + cbn [last] in *. cbn [forallb]. now rewrite E, IH.
    + exact IH.
Qed.

Section Chunks.

Import Anthropic MoreEvents.

Variable JSON_parse : jsstring -> option value.
Variable ToString_other : value -> jsstring.

Let lines := handleLines JSON_parse ToString_other.
Let chunk := handleChunk JSON_parse ToString_other.

Lemma handleLines_app (l1 l2 : list jsstring) :
  forall cur,
    lines cur (l1 ++ l2)
    = (fst (lines (fst (lines cur l1)) l2),
       snd (lines cur l1) ++ snd (lines (fst (lines cur l1)) l2)).
Proof.
  unfold lines.
  induction l1 as [|l l1 IH]; intros cur; cbn [app handleLines fst snd].
  - now destruct (handleLines JSON_parse ToString_other cur l2).
  - destruct (handleLine JSON_parse ToString_other cur l) as [c1 o1].
    rewrite IH.
    destruct (handleLines JSON_parse ToString_other c1 l1) as [c2 o2].
    cbn [fst snd].
    destruct (handleLines JSON_parse ToString_other c2 l2) as [c3 o3].
    cbn [fst snd]. now rewrite app_assoc.
Qed.

(** Two chunks one after the other are handled as the one chunk made of
    both: same fragments, same state after. *)
Lemma handleChunk_app (st : StreamState) (a b : jsstring) :
  chunk st (a ++ b)
  = (fst (chunk (fst (chunk st a)) b),
     snd (chunk st a) ++ snd (chunk (fst (chunk st a)) b)).
Proof.
  unfold chunk, handleChunk.
  rewrite app_assoc, split_on_app.
  set (la := split_on 10 (buffer st ++ a)).
  change (handleLines JSON_parse ToString_other) with lines.
  destruct (lines (currentToolCall st) (removelast la)) as [c1 o1] eqn:E1.
  cbn [fst snd buffer currentToolCall].
  set (lb := split_on 10 (last la [] ++ b)).
  assert (Hlb : lb <> []) by apply split_on_nonempty.
  rewrite removelast_app, last_app_nonempty by exact Hlb.
  rewrite handleLines_app, E1. cbn [fst snd].
  destruct (lines c1 (removelast lb)) as [c2 o2]. reflexivity.
Qed.

Lemma streamFrom_app (st : StreamState) (a b : jsstring)
  (cs : list jsstring) :
  streamFrom JSON_parse ToString_other st (a :: b :: cs)
  = streamFrom JSON_parse ToString_other st ((a ++ b) :: cs).
Proof.
  cbn [streamFrom].
  pose proof (handleChunk_app st a b) as H. unfold chunk in H. rewrite H.
  destruct (handleChunk JSON_parse ToString_other st a) as [st1 o1].
  cbn [fst snd].
  destruct (handleChunk JSON_parse ToString_other st1 b) as [st2 o2].
  cbn [fst snd]. now rewrite app_assoc.
Qed.


Lemma handleChunk_empty (st : StreamState) :
  bufferOk st -> chunk st [] = (st, []).
Proof.
  unfold bufferOk, chunk, handleChunk. intros H.
  rewrite app_nil_r, (split_on_no_sep 10 _ H).
  cbn. now destruct st.
Qed.

Lemma handleChunk_bufferOk (st : StreamState) (a : jsstring) :
  bufferOk (fst (chunk st a)).
Proof.
  unfold bufferOk, chunk, handleChunk.
  destruct (handleLines _ _ _ _) as [c o]. cbn [fst buffer].
  apply split_on_last_no_sep.
Qed.

Lemma streamFrom_concat (chunks : list jsstring) :
  forall st,
    bufferOk st ->
    streamFrom JSON_parse ToString_other st chunks
    = streamFrom JSON_parse ToString_other st [concat chunks].
Proof.
  induction chunks as [|c cs IH]; intros st Hst.
  - cbn [concat streamFrom].
    pose proof (handleChunk_empty st Hst) as He. unfold chunk in He.
    now rewrite He.
  - cbn [concat]. rewrite <- streamFrom_app.
    cbn [streamFrom].
    pose proof (handleChunk_bufferOk st c) as Hok. unfold chunk in Hok.
    destruct (handleChunk JSON_parse ToString_other st c) as [st1 o1].
    cbn [fst] in Hok.
    f_equal. rewrite (IH st1 Hok). reflexivity.
Qed.

(** X7.  The fragments of a stream do not depend on where its body is cut
    into chunks: they are those of the whole body in one chunk. *)
Theorem stream_is_independent_of_chunking (chunks : list jsstring) :
  generateContentStream JSON_parse ToString_other chunks
  = generateContentStream JSON_parse ToString_other [concat chunks].
Proof.
  unfold generateContentStream. apply streamFrom_concat. reflexivity.
Qed.

(** X8.  What follows the last line feed of the body is never handled: a
    last line that the body does not terminate yields nothing. *)
Theorem unterminated_last_line_is_dropped (chunks : list jsstring)
  (tail : jsstring) :
  forallb (fun c => negb (N.eqb c 10)) tail = true ->
  generateContentStream JSON_parse ToString_other (chunks ++ [tail])
  = generateContentStream JSON_parse ToString_other chunks.
Proof.
  intros Htail.
  unfold generateContentStream.
  assert (Hinit : bufferOk (mkStreamState [] None)) by reflexivity.
  rewrite (streamFrom_concat (chunks ++ [tail]) _ Hinit).
  rewrite (streamFrom_concat chunks _ Hinit).
  rewrite concat_app. cbn [concat]. rewrite app_nil_r.
  rewrite <- (streamFrom_app _ (concat chunks) tail []).
  cbn [streamFrom].
  pose proof (handleChunk_bufferOk (mkStreamState [] None) (concat chunks))
    as Hok.
  unfold chunk in Hok.
  destruct (handleChunk JSON_parse ToString_other (mkStreamState [] None)
              (concat chunks)) as [st1 o1].
  cbn [fst] in Hok. f_equal.
  unfold handleChunk.
  assert (H : forallb (fun c => negb (N.eqb c 10)) (buffer st1 ++ tail)
              = true).
  { rewrite forallb_app. unfold bufferOk in Hok. now rewrite Hok, Htail. }
  rewrite (split_on_no_sep 10 _ H). reflexivity.
Qed.

End Chunks.

(** X8 on a body whose last line, a stop of the message, lacks its line
    feed: the line before it is handled, the last one is not. *)
Lemma unterminated_last_line_is_dropped_witness :
  let delta := u16 "data: " ++ jq "{'type':'content_block_delta','delta':{'type':'text_delta','text':'hi'}}" in
  let stop := u16 "data: " ++ jq "{'type':'message_stop'}" in
  Anthropic.generateContentStream Json.parse (fun _ => [])
    ([delta ++ [10%N]] ++ [stop])
  = Anthropic.generateContentStream Json.parse (fun _ => [])
      [delta ++ [10%N]]
  /\ Anthropic.generateContentStream Json.parse (fun _ => [])
       [delta ++ [10%N]]
     = [MoreEvents.textChunk (u16 "hi")].
Proof.
  intros delta stop. split; [|reflexivity].
  apply (unterminated_last_line_is_dropped Json.parse (fun _ => [])
           [delta ++ [10%N]] stop).
  reflexivity.
Defined.

(** ** Events of a stream *)

Section Events.

Import Anthropic StreamEvents MoreEvents.

Variable JSON_parse : jsstring -> option value.
Variable ToString_other : value -> jsstring.

(** Text deltas are yielded one for one, in order, whatever tool call is
    pending, and leave it pending. *)
Lemma handleEvents_text_deltas
  (cur : option PendingToolCall) (texts : list jsstring) :
  Forall (fun t => t <> []) texts ->
  handleEvents JSON_parse ToString_other cur (map textDelta texts)
  = (cur, map textChunk texts).
Proof.
  intros H. induction H as [|t ts Ht Hts IH]; [reflexivity|].
  destruct t as [|c t]; [congruence|].
  cbn [map handleEvents].
  change (handleEvent JSON_parse ToString_other cur (textDelta (c :: t)))
    with (Some (cur, [textChunk (c :: t)])).
  cbv beta iota. now rewrite IH.
Qed.

(** Argument deltas add to the pending call and yield nothing. *)
Lemma argument_deltas_accumulate (name : value) (deltas : list jsstring) :
  forall input,
    handleEvents JSON_parse ToString_other (Some (mkPending name input))
      (map toolArgumentDelta deltas)
    = (Some (mkPending name (input ++ concat deltas)), []).
Proof.
  induction deltas as [|d ds IH]; intros input; cbn [map concat handleEvents].
  - now rewrite app_nil_r.
  - destruct d as [|c d].
    + cbn [app]. change (handleEvent JSON_parse ToString_other
                (Some (mkPending name input)) (toolArgumentDelta []))
        with (Some (Some (mkPending name input), @nil Chunk)).
      cbv beta iota. now rewrite IH.
    + change (handleEvent JSON_parse ToString_other
                (Some (mkPending name input)) (toolArgumentDelta (c :: d)))
        with (Some (Some (mkPending name (input ++ c :: d)), @nil Chunk)).
      cbv beta iota. rewrite IH. now rewrite <- app_assoc.
Qed.

Lemma handleEvents_app (e1 e2 : list value) :
  forall cur,
    handleEvents JSON_parse ToString_other cur (e1 ++ e2)
    = (fst (handleEvents JSON_parse ToString_other
              (fst (handleEvents JSON_parse ToString_other cur e1)) e2),
       snd (handleEvents JSON_parse ToString_other cur e1)
       ++ snd (handleEvents JSON_parse ToString_other
                 (fst (handleEvents JSON_parse ToString_other cur e1)) e2)).
Proof.
  induction e1 as [|e e1 IH]; intros cur; cbn [app handleEvents fst snd].
  - now destruct (handleEvents JSON_parse ToString_other cur e2).
  - destruct (match handleEvent JSON_parse ToString_other cur e with
              | Some r => r
              | None => (cur, [])
              end) as [c1 o1].
    rewrite IH.
    destruct (handleEvents JSON_parse ToString_other c1 e1) as [c2 o2].
    cbn [fst snd].
    destruct (handleEvents JSON_parse ToString_other c2 e2) as [c3 o3].
    cbn [fst snd]. now rewrite app_assoc.
Qed.

(** The argument text of a tool call is what its deltas carry, put
    together: however it is cut into deltas, the call is yielded once,
    at its stop event, with the decoded arguments, or with the empty
    object when they do not decode. *)
Lemma handleEvents_tool_block
  (cur : option PendingToolCall) (name : jsstring) (deltas : list jsstring) :
  handleEvents JSON_parse ToString_other cur
    (toolBlockStart name :: map toolArgumentDelta deltas ++ [toolBlockStop])
  = (None,
     [invocationChunk (VString name)
        match JSON_parse (concat deltas) with
        | Some args => args
        | None => VObject []
        end]).
Proof.
  cbn [handleEvents].
  change (handleEvent JSON_parse ToString_other cur (toolBlockStart name))
    with (Some (Some (mkPending (VString name) []), @nil Chunk)).
  cbv beta iota. rewrite handleEvents_app, argument_deltas_accumulate. cbn [fst snd app].
  reflexivity.
Qed.

(** One event yields at most one fragment, of one part. *)
Lemma handleEvent_fragments (cur : option PendingToolCall) (e : value) :
  forall c out,
    handleEvent JSON_parse ToString_other cur e = Some (c, out) ->
    length out <= 1 /\ Forall fragmentOk out.
Proof.
  intros c out. unfold handleEvent.
  destruct (get_prop e (u16 "type")) as [ty|]; [|discriminate].
  repeat match goal with
         | |- context [if ?b then _ else _] => destruct b
         | |- context [match ?x with Some _ => _ | None => _ end] =>
             destruct x
         | |- context [match ?x with true => _ | false => _ end] =>
             destruct x
         end;
    intros H; inversion H; subst; cbn [length]; split; try lia;
    repeat constructor; cbn; auto; try discriminate; congruence.
Qed.

(** X11.  Whatever the events, each yields at most one fragment, and every
    fragment has exactly one part; usage metadata only comes with the
    finish reason [STOP]. *)
Theorem stream_fragments_have_one_part (events : list value) :
  forall cur,
    length (snd (handleEvents JSON_parse ToString_other cur events))
    <= length events
    /\ Forall fragmentOk
         (snd (handleEvents JSON_parse ToString_other cur events)).
Proof.
  induction events as [|e es IH]; intros cur; cbn [handleEvents].
  - cbn. split; [lia|constructor].
  - destruct (handleEvent JSON_parse ToString_other cur e) as [[c1 o1]|] eqn:E.
    + destruct (handleEvent_fragments cur e c1 o1 E) as [Hlen Hok].
      destruct (IH c1) as [Hlen' Hok'].
      destruct (handleEvents JSON_parse ToString_other c1 es) as [c2 o2].
      cbn [snd length] in *. rewrite length_app. split; [lia|].
      apply Forall_app. now split.
    + destruct (IH cur) as [Hlen' Hok'].
      destruct (handleEvents JSON_parse ToString_other cur es) as [c2 o2].
      cbn [snd length app] in *. split; [lia|exact Hok'].
Qed.

End Events.

(** ** Streaming reconstruction *)

Section WireLines.

Import Anthropic StreamEvents MoreEvents Wire.

Variable JSON_parse : jsstring -> option value.
Variable ToString_other : value -> jsstring.

Lemma split_on_line (sep : N) (l rest : jsstring) :
  forallb (fun c => negb (N.eqb c sep)) l = true ->
  split_on sep (l ++ sep :: rest) = l :: split_on sep rest.
Proof.
  induction l as [|c l IH]; intros H; cbn [app split_on].
  - now rewrite N.eqb_refl.
  - cbn [forallb] in H. apply andb_true_iff in H as [Hc Hl].
    apply negb_true_iff in Hc. rewrite Hc, (IH Hl). reflexivity.
Qed.

Lemma split_on_feed (ls : list jsstring) :
  Forall (fun l => noLineFeed l = true) ls ->
  split_on 10 (feed ls) = ls ++ [[]].
Proof.
  induction 1 as [|l ls Hl Hls IH]; [reflexivity|].
  unfold feed in *. cbn [map concat app].
  rewrite <- app_assoc. cbn [app].
  rewrite (split_on_line 10 l _ Hl), IH. reflexivity.
Qed.

Lemma split_on_ends (x : jsstring) :
  last (split_on 10 (x ++ [10%N])) [] = [].
Proof.
  rewrite split_on_app.
  rewrite (split_on_line 10 (last (split_on 10 x) []) []
             (split_on_last_no_sep 10 x)).
  rewrite last_app_nonempty by discriminate. reflexivity.
Qed.

Lemma feed_ends (ls : list jsstring) :
  last (split_on 10 (feed ls)) [] = [].
Proof.
  destruct ls as [|l ls] using rev_ind; [reflexivity|].
  unfold feed. rewrite map_app, concat_app. cbn [map concat].
  rewrite app_nil_r, app_assoc. apply split_on_ends.
Qed.

(** A body of whole lines leaves nothing in the buffer. *)
Lemma handleChunk_feed_buffer (cur : option PendingToolCall)
  (ls : list jsstring) :
  buffer (fst (handleChunk JSON_parse ToString_other
                 (mkStreamState [] cur) (feed ls))) = [].
Proof.
  unfold handleChunk. cbn [buffer currentToolCall app].
  destruct (handleLines _ _ _ _) as [c o]. cbn [fst buffer].
  apply feed_ends.
Qed.

(** A body of lines without line feed inside is handled line by line. *)
Lemma handleChunk_feed_lines (cur : option PendingToolCall)
  (ls : list jsstring) :
  Forall (fun l => noLineFeed l = true) ls ->
  handleChunk JSON_parse ToString_other (mkStreamState [] cur) (feed ls)
  = (mkStreamState []
       (fst (handleLines JSON_parse ToString_other cur ls)),
     snd (handleLines JSON_parse ToString_other cur ls)).
Proof.
  intros H. unfold handleChunk. cbn [buffer currentToolCall app].
  rewrite (split_on_feed ls H), removelast_last, last_last.
  now destruct (handleLines JSON_parse ToString_other cur ls).
Qed.

(** The loop over the lines handles the events that the lines carry,
    and skips the other lines. *)
Lemma handleLines_eventOf (lines : list jsstring) :
  forall cur,
    handleLines JSON_parse ToString_other cur lines
    = handleEvents JSON_parse ToString_other cur
        (flat_map (fun line =>
                     match eventOf JSON_parse line with
                     | Some e => [e]
                     | None => []
                     end) lines).
Proof.
  induction lines as [|l ls IH]; intros cur; [reflexivity|].
  cbn [handleLines flat_map]. unfold handleLine, eventOf.
  destruct (strip_prefix (u16 "data: ") l) as [data|]; cbn [app].
  - destruct (str_eqb data (u16 "[DONE]")); cbn [app].
    + rewrite IH.
      now destruct (handleEvents JSON_parse ToString_other cur _).
    + destruct (JSON_parse data) as [parsed|]; cbn [app handleEvents].
      * destruct (match handleEvent JSON_parse ToString_other cur parsed with
                  | Some r => r
                  | None => (cur, [])
                  end) as [c1 o1].
        now rewrite IH.
      * rewrite IH.
        now destruct (handleEvents JSON_parse ToString_other cur _).
  - rewrite IH.
    now destruct (handleEvents JSON_parse ToString_other cur _).
Qed.

(** Whatever the body and its chunks, the generator yields what
    [handleEvents] yields on the events of the whole lines of the
    body. *)
Lemma stream_eventsOf (chunks : list jsstring) :
  generateContentStream JSON_parse ToString_other chunks
  = snd (handleEvents JSON_parse ToString_other None
           (eventsOf JSON_parse (concat chunks))).
Proof.
  assert (Hinit : bufferOk (mkStreamState [] None)) by reflexivity.
  unfold generateContentStream.
  rewrite (streamFrom_concat JSON_parse ToString_other chunks _ Hinit).
  cbn [streamFrom]. unfold handleChunk. cbn [buffer currentToolCall app].
  rewrite handleLines_eventOf. unfold eventsOf.
  destruct (handleEvents JSON_parse ToString_other None _) as [c o].
  cbn [snd]. now rewrite app_nil_r.
Qed.

(** The lines that carry the texts of events are handled as the events:
    [handleEvents] is what the loop over the lines does on them. *)
Lemma handleLines_events (datas : list jsstring) (events : list value) :
  Forall2 (decodesTo JSON_parse) datas events ->
  forall cur,
    handleLines JSON_parse ToString_other cur (map dataLine datas)
    = handleEvents JSON_parse ToString_other cur events.
Proof.
  induction 1 as [|d e ds es (Hlf & Hdone & Hd) Hrest IH]; intros cur;
    [reflexivity|].
  cbn [map handleLines handleEvents].
  unfold handleLine at 1. unfold dataLine at 1.
  rewrite strip_prefix_app, Hdone, Hd.
  destruct (match handleEvent JSON_parse ToString_other cur e with
            | Some r => r
            | None => (cur, [])
            end) as [c1 o1].
  now rewrite IH.
Qed.

Lemma dataLines_noLineFeed (datas : list jsstring) (events : list value) :
  Forall2 (decodesTo JSON_parse) datas events ->
  Forall (fun l => noLineFeed l = true) (map dataLine datas).
Proof.
  induction 1 as [|d e ds es (Hlf & _) _ IH]; cbn [map]; constructor.
  - unfold dataLine, noLineFeed in *. rewrite forallb_app, Hlf. reflexivity.
  - exact IH.
Qed.

Lemma fold_handleChunk_concat (chunks : list jsstring) :
  forall st,
    bufferOk st ->
    fold_left (fun st c => fst (handleChunk JSON_parse ToString_other st c))
      chunks st
    = fst (handleChunk JSON_parse ToString_other st (concat chunks)).
Proof.
  induction chunks as [|c cs IH]; intros st Hst; cbn [fold_left concat].
  - now rewrite (handleChunk_empty JSON_parse ToString_other st Hst).
  - rewrite (IH _ (handleChunk_bufferOk JSON_parse ToString_other st c)).
    now rewrite (handleChunk_app JSON_parse ToString_other st c (concat cs)).
Qed.

(** The stream of a body of whole lines followed by the lines of
    events: what the first lines yield, then what the events yield from
    the pending call that the first lines leave. *)
Lemma stream_of_events (before datas : list jsstring) (events : list value)
  (chunks : list jsstring) :
  Forall2 (decodesTo JSON_parse) datas events ->
  concat chunks = feed before ++ feed (map dataLine datas) ->
  generateContentStream JSON_parse ToString_other chunks
  = generateContentStream JSON_parse ToString_other [feed before]
    ++ snd (handleEvents JSON_parse ToString_other
              (pendingAfter JSON_parse ToString_other [feed before]) events)
  /\ stateAfter JSON_parse ToString_other chunks
     = mkStreamState []
         (fst (handleEvents JSON_parse ToString_other
                 (pendingAfter JSON_parse ToString_other [feed before])
                 events)).
Proof.
  intros Hd Hbody.
  assert (Hinit : bufferOk (mkStreamState [] None)) by reflexivity.
  unfold generateContentStream, pendingAfter, stateAfter.
  rewrite (streamFrom_concat JSON_parse ToString_other chunks _ Hinit).
  rewrite (fold_handleChunk_concat chunks _ Hinit).
  rewrite Hbody. cbn [fold_left].
  rewrite <- (streamFrom_app JSON_parse ToString_other _ (feed before) _ []).
  rewrite (handleChunk_app JSON_parse ToString_other).
  cbn [streamFrom fst snd].
  pose proof (handleChunk_feed_buffer None before) as Hbuf.
  destruct (handleChunk JSON_parse ToString_other (mkStreamState [] None)
              (feed before)) as [[buf1 cur1] o1].
  cbn [fst buffer] in Hbuf. subst buf1. cbn [fst snd currentToolCall].
  rewrite (handleChunk_feed_lines cur1 _ (dataLines_noLineFeed _ _ Hd)).
  rewrite (handleLines_events _ _ Hd). cbn [fst snd].
  rewrite !app_nil_r. split; reflexivity.
Qed.

End WireLines.

Section WireEvents.

Import Anthropic StreamEvents MoreEvents Wire.

Variable JSON_parse : jsstring -> option value.
Variable ToString_other : value -> jsstring.

Ltac decoded :=
  repeat (apply Forall2_cons; [assumption|]); apply Forall2_nil.

(** An event that is no [content_block_stop] yields no invocation. *)
Lemma handleEvent_no_stop (cur : option PendingToolCall) (e : value) :
  isBlockStop e = false ->
  forall c out,
    handleEvent JSON_parse ToString_other cur e = Some (c, out) ->
    Forall (fun ch => isInvocationChunk ch = false) out.
Proof.
  intros Hno c out. unfold handleEvent. unfold isBlockStop in Hno.
  destruct (get_prop e (u16 "type")) as [ty|]; [|discriminate].
  rewrite Hno.
  repeat match goal with
         | |- context [if ?b then _ else _] => destruct b
         | |- context [match ?x with Some _ => _ | None => _ end] =>
             destruct x
         end;
    intros H; inversion H; subst; repeat constructor.
Qed.

Lemma handleEvents_no_stop (events : list value) :
  Forall (fun e => isBlockStop e = false) events ->
  forall cur,
    Forall (fun ch => isInvocationChunk ch = false)
      (snd (handleEvents JSON_parse ToString_other cur events)).
Proof.
  induction 1 as [|e es He Hes IH]; intros cur; cbn [handleEvents].
  - constructor.
  - destruct (handleEvent JSON_parse ToString_other cur e) as [[c1 o1]|] eqn:E.
    + pose proof (handleEvent_no_stop cur e He c1 o1 E) as H1.
      specialize (IH c1).
      destruct (handleEvents JSON_parse ToString_other c1 es) as [c2 o2].
      cbn [snd] in *. apply Forall_app. now split.
    + specialize (IH cur).
      destruct (handleEvents JSON_parse ToString_other cur es) as [c2 o2].
      exact IH.
Qed.

(** A last piece without line feed after a body of whole lines yields
    nothing. *)
Lemma stream_unterminated_tail (ls : list jsstring) (tail : jsstring)
  (chunks : list jsstring) :
  noLineFeed tail = true ->
  concat chunks = feed ls ++ tail ->
  generateContentStream JSON_parse ToString_other chunks
  = generateContentStream JSON_parse ToString_other [feed ls].
Proof.
  intros Ht Hbody.
  assert (Hinit : bufferOk (mkStreamState [] None)) by reflexivity.
  unfold generateContentStream.
  rewrite (streamFrom_concat JSON_parse ToString_other chunks _ Hinit).
  rewrite Hbody.
  rewrite <- (streamFrom_app JSON_parse ToString_other _ (feed ls) tail []).
  cbn [streamFrom].
  pose proof (handleChunk_feed_buffer JSON_parse ToString_other None ls)
    as Hbuf.
  destruct (handleChunk JSON_parse ToString_other (mkStreamState [] None)
              (feed ls)) as [[buf1 cur1] o1].
  cbn [fst buffer] in Hbuf. subst buf1. f_equal.
  unfold handleChunk. cbn [buffer currentToolCall app].
  unfold noLineFeed in Ht. rewrite (split_on_no_sep 10 _ Ht). reflexivity.
Qed.

(** C6, as the code has it.  The events tool-block-start of [f],
    tool-argument-delta of the text of [{a:1}] and tool-block-stop, each
    on a data line ended by a line feed and the body cut into chunks in
    any way, yield exactly one fragment, the invocation of [f] with the
    arguments [{a:1}].  Without the stop line, or with a stop line that
    lacks its line feed, nothing is yielded; and whatever events follow
    the delta, no invocation is yielded as long as none of them is a
    [content_block_stop]: a [message_stop] yields the terminal fragment
    only.  The call stays pending across the [message_stop], though: a
    [content_block_stop] that comes after it yields the invocation. *)
Theorem stream_complete_then_unterminated
  (dStart dDelta dStop dEnd : jsstring) :
  JSON_parse (jq "{'a':1}") = Some (VObject [(u16 "a", VNumber 1)]) ->
  decodesTo JSON_parse dStart (toolBlockStart (u16 "f")) ->
  decodesTo JSON_parse dDelta (toolArgumentDelta (jq "{'a':1}")) ->
  decodesTo JSON_parse dStop toolBlockStop ->
  decodesTo JSON_parse dEnd messageStop ->
  let unterminated := [dataLine dStart; dataLine dDelta] in
  (forall chunks,
      concat chunks = feed (unterminated ++ [dataLine dStop]) ->
      generateContentStream JSON_parse ToString_other chunks
      = [invocationChunk (VString (u16 "f"))
           (VObject [(u16 "a", VNumber 1)])])
  /\ (forall chunks,
         concat chunks = feed unterminated ->
         generateContentStream JSON_parse ToString_other chunks = [])
  /\ (forall chunks,
         concat chunks = feed unterminated ++ dataLine dStop ->
         generateContentStream JSON_parse ToString_other chunks = [])
  /\ (forall chunks,
         concat chunks = feed (unterminated ++ [dataLine dEnd]) ->
         generateContentStream JSON_parse ToString_other chunks
         = [mkChunk (VString []) [TextPart (VString [])]
              (VString (u16 "STOP")) None])
  /\ (forall datas events chunks,
         Forall2 (decodesTo JSON_parse) datas events ->
         Forall (fun e => isBlockStop e = false) events ->
         concat chunks = feed (unterminated ++ map dataLine datas) ->
         Forall (fun c => isInvocationChunk c = false)
           (generateContentStream JSON_parse ToString_other chunks))
  /\ (forall chunks,
         concat chunks
         = feed (unterminated ++ [dataLine dEnd; dataLine dStop]) ->
         generateContentStream JSON_parse ToString_other chunks
         = [mkChunk (VString []) [TextPart (VString [])]
              (VString (u16 "STOP")) None;
            invocationChunk (VString (u16 "f"))
              (VObject [(u16 "a", VNumber 1)])]).
Proof.
  intros Hargs HdStart HdDelta HdStop HdEnd unterminated.
  assert (Hfrom : forall datas events chunks,
             Forall2 (decodesTo JSON_parse) datas events ->
             concat chunks = feed (map dataLine datas) ->
             generateContentStream JSON_parse ToString_other chunks
             = snd (handleEvents JSON_parse ToString_other None events)).
  { intros datas events chunks Hd Hbody.
    destruct (stream_of_events JSON_parse ToString_other [] datas events
                chunks Hd Hbody) as [Hout _].
    exact Hout. }
  split; [|split; [|split; [|split; [|split]]]].
  - intros chunks Hbody.
    rewrite (Hfrom [dStart; dDelta; dStop]
               [toolBlockStart (u16 "f"); toolArgumentDelta (jq "{'a':1}");
                toolBlockStop] chunks);
      [|decoded|exact Hbody].
    cbn in Hargs |- *. rewrite Hargs. reflexivity.
  - intros chunks Hbody.
    rewrite (Hfrom [dStart; dDelta]
               [toolBlockStart (u16 "f"); toolArgumentDelta (jq "{'a':1}")]
               chunks);
      [reflexivity|decoded|exact Hbody].
  - intros chunks Hbody.
    rewrite (stream_unterminated_tail unterminated (dataLine dStop) chunks);
      [| |exact Hbody].
    + rewrite (Hfrom [dStart; dDelta]
                 [toolBlockStart (u16 "f"); toolArgumentDelta (jq "{'a':1}")]
                 [feed unterminated]);
        [reflexivity|decoded|].
      cbn [concat]. now rewrite app_nil_r.
    + destruct HdStop as (Hlf & _). unfold dataLine, noLineFeed in *.
      rewrite forallb_app, Hlf. reflexivity.
  - intros chunks Hbody.
    rewrite (Hfrom [dStart; dDelta; dEnd]
               [toolBlockStart (u16 "f"); toolArgumentDelta (jq "{'a':1}");
                messageStop] chunks);
      [reflexivity|decoded|exact Hbody].
  - intros datas events chunks Hd Hno Hbody.
    rewrite (Hfrom ([dStart; dDelta] ++ datas)
               ([toolBlockStart (u16 "f"); toolArgumentDelta (jq "{'a':1}")]
                ++ events) chunks).
    + apply handleEvents_no_stop.
      apply Forall_app. split; [|exact Hno].
      repeat constructor.
    + apply Forall2_app; [decoded|exact Hd].
    + rewrite map_app. exact Hbody.
  - intros chunks Hbody.
    rewrite (Hfrom [dStart; dDelta; dEnd; dStop]
               [toolBlockStart (u16 "f"); toolArgumentDelta (jq "{'a':1}");
                messageStop; toolBlockStop] chunks);
      [|decoded|exact Hbody].
    cbn in Hargs |- *. rewrite Hargs. reflexivity.
Qed.

(** C7.  When a call is pending whose accumulated argument text does
    not decode, the line of a [content_block_stop] event makes the
    stream yield exactly one more fragment, the invocation with the
    empty object as arguments, and no call is pending after it: the
    failure of [JSON.parse] stays inside the generator. *)
Theorem malformed_arguments_give_empty_object
  (before : list jsstring) (tc : PendingToolCall)
  (data : jsstring) (parsed : value) (chunks : list jsstring) :
  pendingAfter JSON_parse ToString_other [feed before] = Some tc ->
  JSON_parse (pending_input tc) = None ->
  decodesTo JSON_parse data parsed ->
  get_prop parsed (u16 "type") = Some (VString (u16 "content_block_stop")) ->
  concat chunks = feed before ++ feed [dataLine data] ->
  generateContentStream JSON_parse ToString_other chunks
  = generateContentStream JSON_parse ToString_other [feed before]
    ++ [invocationChunk (pending_name tc) (VObject [])]
  /\ pendingAfter JSON_parse ToString_other chunks = None.
Proof.
  intros Hpending Hbad Hd Hty Hbody.
  destruct (stream_of_events JSON_parse ToString_other before [data] [parsed]
              chunks) as [Hout Hst];
    [now apply Forall2_cons|exact Hbody|].
  rewrite Hpending in Hout, Hst.
  unfold pendingAfter. rewrite Hout, Hst.
  cbn [handleEvents currentToolCall].
  assert (Hev : handleEvent JSON_parse ToString_other (Some tc) parsed
                = Some (None, [invocationChunk (pending_name tc) (VObject [])])).
  { unfold handleEvent. rewrite Hty. cbn. now rewrite Hbad. }
  rewrite Hev. split; reflexivity.
Qed.

(** X9.  The lines of text deltas make the stream yield one fragment
    for each, in order, with the text of the delta as text and as only
    part, after what the lines before them yield; the pending tool call
    stays as it was. *)
Theorem text_deltas_are_yielded_in_order
  (before datas texts chunks : list jsstring) :
  Forall (fun t => t <> []) texts ->
  Forall2 (decodesTo JSON_parse) datas (map textDelta texts) ->
  concat chunks = feed before ++ feed (map dataLine datas) ->
  generateContentStream JSON_parse ToString_other chunks
  = generateContentStream JSON_parse ToString_other [feed before]
    ++ map textChunk texts
  /\ pendingAfter JSON_parse ToString_other chunks
     = pendingAfter JSON_parse ToString_other [feed before].
Proof.
  intros Htexts Hd Hbody.
  destruct (stream_of_events JSON_parse ToString_other before datas
              (map textDelta texts) chunks Hd Hbody) as [Hout Hst].
  unfold pendingAfter at 1. rewrite Hout, Hst.
  rewrite (handleEvents_text_deltas JSON_parse ToString_other _ texts Htexts).
  split; reflexivity.
Qed.

(** X10.  The lines of a tool-block start, of any number of argument
    deltas and of the block stop make the stream yield exactly one more
    fragment: the invocation whose arguments are decoded from the texts
    of the deltas put together, or the empty object when that text does
    not decode.  No call is pending after it, whatever was pending
    before the start. *)
Theorem tool_call_arguments_are_reassembled
  (before datas : list jsstring) (name : jsstring) (deltas : list jsstring)
  (chunks : list jsstring) :
  Forall2 (decodesTo JSON_parse) datas
    (toolBlockStart name :: map toolArgumentDelta deltas ++ [toolBlockStop]) ->
  concat chunks = feed before ++ feed (map dataLine datas) ->
  generateContentStream JSON_parse ToString_other chunks
  = generateContentStream JSON_parse ToString_other [feed before]
    ++ [invocationChunk (VString name)
          match JSON_parse (concat deltas) with
          | Some args => args
          | None => VObject []
          end]
  /\ pendingAfter JSON_parse ToString_other chunks = None.
Proof.
  intros Hd Hbody.
  destruct (stream_of_events JSON_parse ToString_other before datas _ chunks
              Hd Hbody) as [Hout Hst].
  unfold pendingAfter at 1. rewrite Hout, Hst, handleEvents_tool_block.
  split; reflexivity.
Qed.

End WireEvents.

Section WireInstances.

Import Anthropic StreamEvents MoreEvents Wire WireTexts.

(** C6 with the reference decoder, and on the body received in two
    chunks, the second being the line of the stop. *)
Lemma stream_complete_then_unterminated_witness :
  let unterminated :=
    [dataLine startOfF; dataLine (deltaOf (jq "{\'a\':1}"))] in
  let stream := generateContentStream Json.parse (fun _ => []) in
  ((forall chunks,
       concat chunks = feed (unterminated ++ [dataLine (stopOf (u16 "1"))]) ->
       stream chunks
       = [invocationChunk (VString (u16 "f"))
            (VObject [(u16 "a", VNumber 1)])])
   /\ (forall chunks, concat chunks = feed unterminated -> stream chunks = [])
   /\ (forall chunks,
          concat chunks = feed unterminated ++ dataLine (stopOf (u16 "1")) ->
          stream chunks = [])
   /\ (forall chunks,
          concat chunks = feed (unterminated ++ [dataLine messageStopText]) ->
          stream chunks
          = [mkChunk (VString []) [TextPart (VString [])]
               (VString (u16 "STOP")) None])
   /\ (forall datas events chunks,
          Forall2 (decodesTo Json.parse) datas events ->
          Forall (fun e => isBlockStop e = false) events ->
          concat chunks = feed (unterminated ++ map dataLine datas) ->
          Forall (fun c => isInvocationChunk c = false) (stream chunks))
   /\ (forall chunks,
          concat chunks
          = feed (unterminated
                  ++ [dataLine messageStopText; dataLine (stopOf (u16 "1"))]) ->
          stream chunks
          = [mkChunk (VString []) [TextPart (VString [])]
               (VString (u16 "STOP")) None;
             invocationChunk (VString (u16 "f"))
               (VObject [(u16 "a", VNumber 1)])]))
  /\ stream [feed unterminated; feed [dataLine (stopOf (u16 "1"))]]
     = [invocationChunk (VString (u16 "f")) (VObject [(u16 "a", VNumber 1)])]
  /\ stream [feed unterminated; dataLine (stopOf (u16 "1"))] = [].
Proof.
  intros unterminated stream. split; [|split; reflexivity].
  apply (stream_complete_then_unterminated Json.parse (fun _ => [])
           startOfF (deltaOf (jq "{\'a\':1}")) (stopOf (u16 "1"))
           messageStopText);
    [reflexivity|repeat split; reflexivity..].
Defined.

(** C6 as stated fails: the call whose block is never stopped is
    yielded at the stop of the text block that follows, and also at a
    block stop that comes after the stop of the message; the stop of the
    message leaves the call pending. *)
Lemma unterminated_call_surfaces_at_later_stop :
  let unterminated :=
    [dataLine startOfF; dataLine (deltaOf (jq "{\'a\':1}"))] in
  let textStart :=
    jq "{'type':'content_block_start','index':2,'content_block':{'type':'text','text':''}}" in
  let text :=
    jq "{'type':'content_block_delta','index':2,'delta':{'type':'text_delta','text':'hi'}}" in
  let call :=
    invocationChunk (VString (u16 "f")) (VObject [(u16 "a", VNumber 1)]) in
  generateContentStream Json.parse (fun _ => [])
    [feed (unterminated
           ++ map dataLine [textStart; text; stopOf (u16 "2")])]
  = [textChunk (u16 "hi"); call]
  /\ isInvocationChunk call = true
  /\ pendingAfter Json.parse (fun _ => [])
       [feed (unterminated ++ [dataLine messageStopText])]
     = Some (mkPending (VString (u16 "f")) (jq "{'a':1}"))
  /\ generateContentStream Json.parse (fun _ => [])
       [feed (unterminated
              ++ map dataLine [messageStopText; stopOf (u16 "2")])]
     = [mkChunk (VString []) [TextPart (VString [])] (VString (u16 "STOP"))
          None;
        call].
Proof.
  intros unterminated textStart text call.
  repeat split; reflexivity.
Qed.

(** C7 on a call whose argument text was cut short, the body cut
    inside the line of the stop. *)
Lemma malformed_arguments_give_empty_object_witness :
  let before := [dataLine startOfF; dataLine (deltaOf (jq "{\'a\':"))] in
  let tc := mkPending (VString (u16 "f")) (jq "{'a':") in
  let chunks :=
    [feed before ++ u16 "data: {"; jq "'type':'content_block_stop','index':1}" ++ [10%N]] in
  (generateContentStream Json.parse (fun _ => []) chunks
   = generateContentStream Json.parse (fun _ => []) [feed before]
     ++ [invocationChunk (pending_name tc) (VObject [])]
   /\ pendingAfter Json.parse (fun _ => []) chunks = None)
  /\ generateContentStream Json.parse (fun _ => []) [feed before] = [].
Proof.
  intros before tc chunks. split; [|reflexivity].
  apply (malformed_arguments_give_empty_object Json.parse (fun _ => [])
           before tc (stopOf (u16 "1")) toolBlockStop chunks);
    [reflexivity|reflexivity|repeat split; reflexivity|reflexivity
    |reflexivity].
Defined.

(** X9 on two text deltas while a tool call is pending, the body cut
    inside the first of their lines. *)
Lemma text_deltas_are_yielded_in_order_witness :
  let before := [dataLine startOfF] in
  let datas := [textOf (u16 "Hel"); textOf (u16 "lo")] in
  let texts := [u16 "Hel"; u16 "lo"] in
  let chunks :=
    [feed before ++ u16 "da"; skipn 2 (feed (map dataLine datas))] in
  (generateContentStream Json.parse (fun _ => []) chunks
   = generateContentStream Json.parse (fun _ => []) [feed before]
     ++ map textChunk texts
   /\ pendingAfter Json.parse (fun _ => []) chunks
      = pendingAfter Json.parse (fun _ => []) [feed before])
  /\ generateContentStream Json.parse (fun _ => []) [feed before] = []
  /\ pendingAfter Json.parse (fun _ => []) [feed before]
     = Some (mkPending (VString (u16 "f")) []).
Proof.
  intros before datas texts chunks. split; [|split; reflexivity].
  apply (text_deltas_are_yielded_in_order Json.parse (fun _ => [])
           before datas texts chunks).
  - repeat constructor; discriminate.
  - repeat (apply Forall2_cons; [repeat split; reflexivity|]).
    apply Forall2_nil.
  - reflexivity.
Defined.

(** X10 on a call whose arguments come in two deltas, after a text. *)
Lemma tool_call_arguments_are_reassembled_witness :
  let before := [dataLine (textOf (u16 "Hi"))] in
  let deltas := [jq "{'a'"; u16 ":1}"] in
  let datas :=
    [startOfF; deltaOf (jq "{\'a\'"); deltaOf (u16 ":1}"); stopOf (u16 "1")] in
  let chunks := [feed before; feed (map dataLine datas)] in
  (generateContentStream Json.parse (fun _ => []) chunks
   = generateContentStream Json.parse (fun _ => []) [feed before]
     ++ [invocationChunk (VString (u16 "f"))
           match Json.parse (concat deltas) with
           | Some args => args
           | None => VObject []
           end]
   /\ pendingAfter Json.parse (fun _ => []) chunks = None)
  /\ generateContentStream Json.parse (fun _ => []) chunks
     = [textChunk (u16 "Hi");
        invocationChunk (VString (u16 "f"))
          (VObject [(u16 "a", VNumber 1)])].
Proof.
  intros before deltas datas chunks. split; [|reflexivity].
  apply (tool_call_arguments_are_reassembled Json.parse (fun _ => [])
           before datas (u16 "f") deltas chunks).
  - repeat (apply Forall2_cons; [repeat split; reflexivity|]).
    apply Forall2_nil.
  - reflexivity.
Defined.

End WireInstances.

(** ** Parts of a response body *)

Section Structured.

Import Anthropic Blocks Tags.

Variable JSON_parse : jsstring -> option value.
Variable ToString_other : value -> jsstring.

Lemma processContentBlocks_encoded (blocks : list ContentBlock) :
  forall acc,
    processContentBlocks ToString_other acc (map encodeBlock blocks)
    = Ok (mkAcc (acc_text acc ++ concat (map textOfBlock blocks))
            (acc_parts acc ++ flat_map partsOfBlock blocks)
            (acc_functionCalls acc
             ++ filter isFunctionCallPart (flat_map partsOfBlock blocks))).
Proof.
  induction blocks as [|b bs IH]; intros acc; cbn [map processContentBlocks].
  - cbn. rewrite !app_nil_r. now destruct acc.
  - destruct b as [text|id name input|thinking].
    + change (processContentBlock ToString_other acc
                (encodeBlock (TextBlock text)))
        with (Ok (mkAcc (acc_text acc
                         ++ ToString ToString_other
                              (or_else (VString text) (VString [])))
                    (acc_parts acc ++ [TextPart (VString text)])
                    (acc_functionCalls acc))).
      cbv beta iota. rewrite IH. cbn [acc_text acc_parts acc_functionCalls].
      cbn [map concat flat_map partsOfBlock textOfBlock app filter
             isFunctionCallPart].
      rewrite <- !app_assoc. do 2 f_equal.
      destruct text; reflexivity.
    + change (processContentBlock ToString_other acc
                (encodeBlock (ToolUseBlock id name input)))
        with (Ok (mkAcc (acc_text acc)
                    (acc_parts acc
                     ++ [FunctionCallPart (VString name) (VObject input)])
                    (acc_functionCalls acc
                     ++ [FunctionCallPart (VString name) (VObject input)]))).
      cbv beta iota. rewrite IH. cbn [acc_text acc_parts acc_functionCalls].
      cbn [map concat flat_map partsOfBlock textOfBlock app filter
             isFunctionCallPart].
      now rewrite <- !app_assoc.
    + change (processContentBlock ToString_other acc
                (encodeBlock (ThinkingBlock thinking)))
        with (@Ok Acc acc).
      cbv beta iota. rewrite IH. reflexivity.
Qed.

(** X12.  On a body whose content is an array of blocks, the parts follow the
    blocks in their order, text and tool use interleaved as the backend
    sent them, and the text is that of the text blocks put together. *)
Theorem structured_content_keeps_block_order
  (data : value) (blocks : list ContentBlock) :
  get_prop data (u16 "content") = Some (VArray (map encodeBlock blocks)) ->
  exists r,
    responseOfData JSON_parse ToString_other data = Ok r
    /\ parts r = flat_map partsOfBlock blocks
    /\ text r = concat (map textOfBlock blocks).
Proof.
  intros H. unfold responseOfData. rewrite H.
  rewrite processContentBlocks_encoded.
  cbn [acc_text acc_parts acc_functionCalls app].
  eexists. split; [reflexivity|]. cbn [parts text]. split; [|reflexivity].
  destruct (flat_map partsOfBlock blocks) as [|p ps] eqn:E; [|reflexivity].
  assert (Ht : concat (map textOfBlock blocks) = []).
  { clear H. induction blocks as [|b bs IH]; [reflexivity|].
    destruct b; cbn [flat_map partsOfBlock app] in E; try discriminate.
    cbn [map concat textOfBlock app]. now apply IH. }
  now rewrite Ht.
Qed.

(** X13.  In the fallback, a text in which no pattern matches is the text of
    the response and, unless it is empty, its only part. *)
Theorem fallback_keeps_text_without_tag (data content : value)
  (t : jsstring) :
  get_prop data (u16 "content") = Some content ->
  (forall l, content <> VArray l) ->
  opt_prop (opt_index0 content) (u16 "text") = VString t ->
  noToolTag t = true ->
  exists r,
    responseOfData JSON_parse ToString_other data = Ok r
    /\ text r = t
    /\ parts r = match t with
                 | [] => []
                 | _ :: _ => [TextPart (VString t)]
                 end.
Proof.
  intros Hdata Hnot Htext Htag.
  unfold responseOfData. rewrite Hdata.
  assert (Hfb : fallbackParts JSON_parse content
                = Ok (mkAcc t
                        match t with
                        | [] => []
                        | _ :: _ => [TextPart (VString t)]
                        end [])).
  { unfold fallbackParts. rewrite Htext.
    assert (E : or_else (VString t) (VString []) = VString t)
      by (unfold or_else; now destruct t).
    rewrite E.
    rewrite (parseAnthropicToolCalls_without_tag JSON_parse t Htag).
    cbn [functionCalls map]. now destruct t. }
  assert (Hacc : match content with
                 | VArray blocks =>
                     processContentBlocks ToString_other (mkAcc [] [] []) blocks
                 | _ => fallbackParts JSON_parse content
                 end = fallbackParts JSON_parse content).
  { destruct content; try reflexivity. now destruct (Hnot l). }
  rewrite Hacc, Hfb. cbn [acc_text acc_parts].
  eexists. split; [reflexivity|]. cbn [text parts].
  split; [reflexivity|]. now destruct t.
Qed.

End Structured.

(** X12 on a body with a tool use between two texts and a thinking block. *)
Lemma structured_content_keeps_block_order_witness :
  let blocks :=
    [Blocks.ThinkingBlock (u16 "hm");
     Blocks.TextBlock (u16 "Listing. ");
     Blocks.ToolUseBlock (u16 "toolu_1") (u16 "ls")
       [(u16 "path", VString (u16 "."))];
     Blocks.TextBlock (u16 "Done.")] in
  let data :=
    VObject [(u16 "content", VArray (map Blocks.encodeBlock blocks))] in
  exists r,
    Anthropic.responseOfData Json.parse (fun _ => []) data = Anthropic.Ok r
    /\ Anthropic.parts r
       = [Anthropic.TextPart (VString (u16 "Listing. "));
          Anthropic.FunctionCallPart (VString (u16 "ls"))
            (VObject [(u16 "path", VString (u16 "."))]);
          Anthropic.TextPart (VString (u16 "Done."))]
    /\ Anthropic.text r = u16 "Listing. Done.".
Proof.
  intros blocks data.
  apply (structured_content_keeps_block_order Json.parse (fun _ => [])
           data blocks).
  reflexivity.
Defined.

(** X13 on a body whose content is an object with a text under its key
    [0]. *)
Lemma fallback_keeps_text_without_tag_witness :
  let content :=
    VObject [(u16 "0", VObject [(u16 "text", VString (u16 "2 < 3"))])] in
  let data := VObject [(u16 "content", content)] in
  exists r,
    Anthropic.responseOfData Json.parse (fun _ => []) data = Anthropic.Ok r
    /\ Anthropic.text r = u16 "2 < 3"
    /\ Anthropic.parts r = [Anthropic.TextPart (VString (u16 "2 < 3"))].
Proof.
  intros content data.
  apply (fallback_keeps_text_without_tag Json.parse (fun _ => [])
           data content (u16 "2 < 3")).
  - reflexivity.
  - intros l. discriminate.
  - reflexivity.
  - reflexivity.
Defined.

(** ** The provider and its configuration *)

Section Provider.

Import Factory.

Variable toLowerCase : jsstring -> jsstring.

Lemma or_str_falsy (a : option jsstring) (b : jsstring) :
  or_str a b = match a with
               | Some (c :: s) => c :: s
               | _ => b
               end.
Proof. reflexivity. Qed.

(** X14.  The constructor fails exactly when neither its argument nor the
    environment gives a token that is not empty.  When it succeeds, each
    field is the argument if given and not empty, else the variable of
    the environment if set and not empty, else the default, so that no
    field is empty. *)
Theorem newAnthropicProvider_fields (env : Env)
  (token url name : option jsstring) :
  match newAnthropicProvider env token url name with
  | inr message =>
      message = u16 "ANTHROPIC_AUTH_TOKEN is required"
      /\ falsy token = true /\ falsy (ANTHROPIC_AUTH_TOKEN env) = true
  | inl p =>
      (falsy token = false \/ falsy (ANTHROPIC_AUTH_TOKEN env) = false)
      /\ authToken p <> [] /\ baseUrl p <> [] /\ model p <> []
      /\ authToken p
         = (if falsy token then or_str (ANTHROPIC_AUTH_TOKEN env) []
            else or_str token [])
      /\ baseUrl p
         = (if falsy url
            then or_str (ANTHROPIC_BASE_URL env)
                   (u16 "https://api.anthropic.com")
            else or_str url [])
      /\ model p
         = (if falsy name
            then or_str (ANTHROPIC_MODEL env) (u16 "claude-3-opus-20240229")
            else or_str name [])
  end.
Proof.
  unfold newAnthropicProvider.
  destruct env as [etoken eurl emodel]. cbn [ANTHROPIC_AUTH_TOKEN
    ANTHROPIC_BASE_URL ANTHROPIC_MODEL].
  destruct token as [[|c t]|], etoken as [[|c' t']|];
    cbn [or_str falsy]; auto;
    (split; [auto|]);
    destruct url as [[|d u]|], eurl as [[|d' u']|];
    destruct name as [[|e n]|], emodel as [[|e' n']|];
    cbn [or_str falsy authToken baseUrl model];
    repeat split; discriminate.
Qed.

(** X15.  [detectProvider] returns [null], or throws its own configuration
    error, or returns an adapter whose provider has the token and the
    base URL of the environment, both not empty: the constructor of the
    provider never fails under it, and never falls back to the default
    endpoint. *)
Theorem detectProvider_outcomes (env : Env) (modelName : option jsstring) :
  match fst (detectProvider toLowerCase env modelName) with
  | ReturnNull => True
  | ThrowError message =>
      exists m,
        modelName = Some m
        /\ message = notConfiguredMessage m
        /\ falsy (ANTHROPIC_AUTH_TOKEN env) || falsy (ANTHROPIC_BASE_URL env)
           = true
  | ReturnAdapter a =>
      ANTHROPIC_AUTH_TOKEN env = Some (authToken (provider a))
      /\ authToken (provider a) <> []
      /\ ANTHROPIC_BASE_URL env = Some (baseUrl (provider a))
      /\ baseUrl (provider a) <> []
  end.
Proof.
  unfold detectProvider.
  destruct modelName as [[|c m]|]; cbn [falsy fst]; auto.
  cbn [or_str].
  destruct (isAnthropicModel toLowerCase (c :: m)).
  - destruct (falsy (ANTHROPIC_AUTH_TOKEN env)
              || falsy (ANTHROPIC_BASE_URL env)) eqn:E; cbn [fst].
    + exists (c :: m). auto.
    + apply orb_false_iff in E as [Et Eu].
      unfold createCustomAnthropicProvider, newAnthropicProvider.
      destruct (ANTHROPIC_AUTH_TOKEN env) as [[|t ts]|]; try discriminate.
      destruct (ANTHROPIC_BASE_URL env) as [[|u us]|]; try discriminate.
      cbn [or_str provider authToken baseUrl].
      repeat split; discriminate.
  - now destruct (_ || _ || _).
Qed.

End Provider.

(** ** Order of the command queue *)

Section Fifo.

Import Aider QueueFacts.

Lemma step_accounted_caller (s : AiderService) (e : event) :
  isCallerEvent e = true ->
  accounted (step s e) = accounted s ++ created [e].
Proof.
  destruct e as [c|c|data|n|]; intros He; try discriminate;
    cbn [step created flat_map app]; rewrite ?app_nil_r.
  - unfold executor. rewrite processNextCommand_accounted.
    unfold accounted, pending. cbn [settlements currentCommand commandQueue].
    destruct (currentCommand s);
      cbn [map]; rewrite ?map_app, <- ?app_assoc; reflexivity.
  - unfold handleOutput.
    match goal with |- context [if ?b then _ else _] => destruct b end;
      [rewrite completeCurrentCommand_accounted|]; reflexivity.
  - unfold timeoutFires.
    destruct (nth_error (timers s) n); [|reflexivity].
    match goal with |- context [if ?b then _ else _] => destruct b end;
      [rewrite completeCurrentCommand_accounted|]; reflexivity.
  - destruct (onClose_rejects_pending s) as (H1 & H2 & H3 & _).
    unfold accounted at 1. unfold pending at 1. rewrite H1, H2, H3.
    unfold accounted. cbn [map]. rewrite app_nil_r, map_app, map_map.
    reflexivity.
Qed.

Lemma write_child (line : jsstring) (s : AiderService) :
  aiderProcess (write line s) = aiderProcess s.
Proof. unfold write. destruct (aiderProcess s) eqn:E; [reflexivity|exact E]. Qed.

Lemma writes_child (f : jsstring -> jsstring) (ls : list jsstring) :
  forall s,
    aiderProcess (fold_left (fun st file => write (f file) st) ls s)
    = aiderProcess s.
Proof.
  induction ls as [|l ls IH]; intros s; cbn [fold_left]; [reflexivity|].
  now rewrite IH, write_child.
Qed.

Lemma processNextCommand_child (s : AiderService) :
  aiderProcess (processNextCommand s) = aiderProcess s.
Proof.
  unfold processNextCommand.
  destruct (currentCommand s); [reflexivity|].
  destruct (commandQueue s) as [|c queue]; [reflexivity|].
  cbn [aiderProcess].
  rewrite write_child.
  now rewrite (writes_child (fun file => u16 "/add " ++ file ++ [10%N])).
Qed.

Lemma completeCurrentCommand_child (s : AiderService) :
  aiderProcess (completeCurrentCommand s) = aiderProcess s.
Proof.
  unfold completeCurrentCommand.
  destruct (currentCommand s); [|reflexivity].
  now rewrite processNextCommand_child.
Qed.

(** The child keeps running as long as it does not exit. *)
Lemma step_child (s : AiderService) (e : event) :
  isRunningEvent e = true -> aiderProcess (step s e) = aiderProcess s.
Proof.
  destruct e as [c|c|data|n|]; intros H; try discriminate; cbn [step].
  - unfold executor. now rewrite processNextCommand_child.
  - unfold handleOutput.
    match goal with |- context [if ?b then _ else _] => destruct b end;
      [now rewrite completeCurrentCommand_child|reflexivity].
  - unfold timeoutFires.
    destruct (nth_error (timers s) n); [|reflexivity].
    match goal with |- context [if ?b then _ else _] => destruct b end;
      [now rewrite completeCurrentCommand_child|reflexivity].
Qed.

(** From a running service, every call of [execute] of a trace without
    exit of the child and without repo-map command runs its executor at
    the call. *)
Lemma running_trace_executes_at_call (es : list event) :
  forall s,
    aiderProcess s = true ->
    forallb isRunningEvent es = true ->
    executesAtCall s es = true.
Proof.
  induction es as [|e es IH]; intros s Hs H; [reflexivity|].
  cbn [forallb] in H. apply andb_true_iff in H as [He Hes].
  cbn [executesAtCall]. apply andb_true_iff. split.
  - destruct e; try reflexivity; try discriminate.
    unfold execute. now rewrite Hs.
  - apply IH; [|exact Hes]. now rewrite (step_child s e He).
Qed.

(** X17.  First in, first out: when every call of [execute] finds the
    child running and no repo-map command jumps the queue, the commands
    settled so far followed by the pending ones are the commands in the
    order of the calls, whatever output and timeouts come in between,
    and also when the child exits after the last call. *)
Theorem commands_are_settled_in_execution_order (es : list event) :
  forall s,
    executesAtCall s es = true ->
    map settled_cmd (settlements (run s es)) ++ map cmd (pending (run s es))
    = accounted s ++ created es.
Proof.
  induction es as [|e es IH]; intros s H.
  - unfold run, created. cbn [fold_left flat_map]. rewrite app_nil_r.
    reflexivity.
  - cbn [executesAtCall] in H. apply andb_true_iff in H as [He Hes].
    assert (Hcaller : isCallerEvent e = true)
      by (destruct e; [reflexivity|discriminate|reflexivity..]).
    change (run s (e :: es)) with (run (step s e) es).
    rewrite (IH _ Hes). fold (accounted (step s e)).
    rewrite (created_cons e es), (step_accounted_caller s e Hcaller).
    now rewrite <- app_assoc.
Qed.

Lemma processNextCommand_idleOk (s : AiderService) :
  idleOk (processNextCommand s).
Proof.
  unfold idleOk, processNextCommand.
  destruct (currentCommand s) as [c|] eqn:Ec; [congruence|].
  destruct (commandQueue s) as [|c q] eqn:Eq; [auto|].
  cbn [currentCommand].
  match goal with
  | |- context [write ?l (fold_left ?g ?ls ?s1)] =>
      destruct (write_accounted l (fold_left g ls s1)) as (_ & W2 & _);
      destruct (writes_accounted g ls
                  (fun st x => write_accounted _ st) s1)
        as (_ & H2 & _)
  end.
  rewrite W2, H2. cbn. discriminate.
Qed.

Lemma completeCurrentCommand_idleOk (s : AiderService) :
  idleOk s -> idleOk (completeCurrentCommand s).
Proof.
  unfold completeCurrentCommand.
  destruct (currentCommand s) eqn:E; [intros _|auto].
  apply processNextCommand_idleOk.
Qed.

(** X18.  Along any trace, a queued command never waits while no command is
    in flight: the next one is dispatched as soon as the current one is
    settled. *)
Theorem queue_never_waits_idle (es : list event) :
  forall s, idleOk s -> idleOk (run s es).
Proof.
  induction es as [|e es IH]; intros s Hs; [exact Hs|].
  change (run s (e :: es)) with (run (step s e) es). apply IH.
  destruct e as [c|c|data|n|]; cbn [step].
  - apply processNextCommand_idleOk.
  - unfold updateRepoMap. destruct (aiderProcess s); [|exact Hs].
    apply processNextCommand_idleOk.
  - unfold handleOutput.
    match goal with |- context [if ?b then _ else _] => destruct b end.
    + apply completeCurrentCommand_idleOk. exact Hs.
    + exact Hs.
  - unfold timeoutFires.
    destruct (nth_error (timers s) n); [|exact Hs].
    match goal with |- context [if ?b then _ else _] => destruct b end.
    + apply completeCurrentCommand_idleOk. exact Hs.
    + exact Hs.
  - destruct (onClose_rejects_pending s) as (_ & H2 & _).
    unfold idleOk. intros _. exact H2.
Qed.

End Fifo.

(** X17 on three calls, the third made after the first command is
    completed; the timeout of the first then fires, and the child
    exits. *)
Lemma commands_are_settled_in_execution_order_witness :
  let es :=
    [Aider.Execute QueueTraces.cmdA; Aider.Execute QueueTraces.cmdB;
     Aider.Output (u16 "> "); Aider.Execute QueueTraces.cmdC;
     Aider.TimeoutFires 0; Aider.Close] in
  let s := Aider.run QueueTraces.ready es in
  map Aider.settled_cmd (Aider.settlements s)
  ++ map Aider.cmd (Aider.pending s)
  = [0; 1; 2]
  /\ length (Aider.settlements s) = 3.
Proof.
  intros es s. split; [|reflexivity].
  apply (commands_are_settled_in_execution_order es QueueTraces.ready).
  reflexivity.
Defined.

(** X18 on a trace that ends with nothing in flight. *)
Lemma queue_never_waits_idle_witness :
  let es :=
    [Aider.Execute QueueTraces.cmdA; Aider.Execute QueueTraces.cmdB;
     Aider.Output (u16 "> "); Aider.Output (u16 "Tokens: 12")] in
  let s := Aider.run QueueTraces.ready es in
  Aider.currentCommand s = None /\ Aider.commandQueue s = [].
Proof.
  intros es s.
  assert (H : Aider.currentCommand s = None) by reflexivity.
  split; [exact H|].
  apply (queue_never_waits_idle es QueueTraces.ready); [|exact H].
  intros _. reflexivity.
Defined.

(** ** What is written to the child *)

Section Dispatch.

Import Aider QueueFacts.

Lemma writes_stdin (ls : list jsstring) (f : jsstring -> jsstring) :
  forall s,
    aiderProcess s = true ->
    let s' := fold_left (fun st x => write (f x) st) ls s in
    stdin s' = stdin s ++ map f ls
    /\ aiderProcess s' = true
    /\ settlements s' = settlements s
    /\ currentCommand s' = currentCommand s
    /\ commandQueue s' = commandQueue s.
Proof.
  induction ls as [|l ls IH]; intros s Hs; cbn [fold_left map].
  - rewrite app_nil_r. auto.
  - assert (Hw : write (f l) s
                 = mkService (config s) (aiderProcess s) (commandQueue s)
                     (currentCommand s) (outputBuffer s)
                     (stdin s ++ [f l]) (timers s) (settlements s))
      by (unfold write; now rewrite Hs).
    destruct (IH (write (f l) s)) as (H1 & H2 & H3 & H4 & H5);
      [now rewrite Hw|].
    cbn zeta in *. rewrite H1, H2, H3, H4, H5, Hw.
    cbn [stdin settlements currentCommand commandQueue].
    now rewrite <- app_assoc.
Qed.

(** The dispatch of the head of the queue by a running idle service. *)
Lemma processNextCommand_dispatch (s : AiderService) (c : AiderCommand)
  (queue : list AiderCommand) :
  aiderProcess s = true ->
  currentCommand s = None ->
  commandQueue s = c :: queue ->
  let s' := processNextCommand s in
  stdin s' = stdin s ++ linesOf c
  /\ aiderProcess s' = true
  /\ settlements s' = settlements s
  /\ currentCommand s' = Some c
  /\ commandQueue s' = queue.
Proof.
  intros Hp Hc Hq. unfold processNextCommand. rewrite Hc, Hq.
  cbn zeta.
  set (s1 := mkService (config s) (aiderProcess s) queue (Some c) []
               (stdin s) (timers s) (settlements s)).
  destruct (writes_stdin (match files c with Some fs => fs | None => [] end)
              (fun file => u16 "/add " ++ file ++ [10%N]) s1 Hp)
    as (H1 & H2 & H3 & H4 & H5).
  cbn zeta in *.
  set (s2 := fold_left _ _ s1) in *.
  assert (Hw : write (instruction c ++ [10%N]) s2
               = mkService (config s2) (aiderProcess s2) (commandQueue s2)
                   (currentCommand s2) (outputBuffer s2)
                   (stdin s2 ++ [instruction c ++ [10%N]]) (timers s2)
                   (settlements s2))
    by (unfold write; now rewrite H2).
  rewrite Hw.
  cbn [stdin aiderProcess settlements currentCommand commandQueue].
  rewrite H1, H2, H3, H4, H5. subst s1.
  cbn [stdin settlements currentCommand commandQueue].
  unfold linesOf. now rewrite <- app_assoc.
Qed.

Lemma processNextCommand_nothing (s : AiderService) :
  currentCommand s <> None \/ commandQueue s = [] ->
  processNextCommand s = s.
Proof.
  unfold processNextCommand. intros [H|H].
  - destruct (currentCommand s); [reflexivity|congruence].
  - rewrite H. now destruct (currentCommand s).
Qed.


Lemma skipn_cons_firstn {A : Type} (l : list A) (k : nat) (x : A)
  (r : list A) :
  skipn k l = x :: r ->
  firstn (S k) l = firstn k l ++ [x] /\ skipn (S k) l = r /\ k < length l.
Proof.
  revert l. induction k as [|k IH]; intros [|y l] H; cbn in H;
    try discriminate.
  - inversion H. subst. cbn. repeat split. lia.
  - destruct (IH l H) as (H1 & H2 & H3).
    split; [|split].
    + rewrite (firstn_cons (S k)), H1. reflexivity.
    + exact H2.
    + cbn [length]. lia.
Qed.

Lemma completeCurrentCommand_dispatched (hist : list AiderCommand)
  (s : AiderService) :
  dispatched hist s -> dispatched hist (completeCurrentCommand s).
Proof.
  intros H. pose proof H as (Hp & Hidle & Hpend & Hlen & Hin).
  unfold completeCurrentCommand.
  destruct (currentCommand s) as [cur|] eqn:Ecur; [|exact H].
  clear H.
  unfold pending in Hpend. rewrite Ecur in Hpend.
  unfold busy in Hin. rewrite Ecur in Hin.
  symmetry in Hpend.
  destruct (skipn_cons_firstn hist _ cur _ Hpend) as (Hf & Hs & Hlt).
  set (s1 := mkService _ _ _ None _ _ _ _).
  assert (Hs1 : aiderProcess s1 = true /\ currentCommand s1 = None
                /\ commandQueue s1 = commandQueue s
                /\ stdin s1 = stdin s
                /\ settlements s1
                   = settlements s
                     ++ [Resolved (cmd cur) (cleanOutput (outputBuffer s))])
    by (subst s1; cbn; auto).
  destruct Hs1 as (P1 & P2 & P3 & P4 & P5).
  destruct (commandQueue s) as [|c q] eqn:Eq.
  - rewrite processNextCommand_nothing by (right; now rewrite P3).
    unfold dispatched, idleOk, pending, busy.
    rewrite P1, P2, P3, P4, P5, length_app. cbn [length].
    replace (length (settlements s) + 1) with (S (length (settlements s)))
      in * by lia.
    rewrite Hs, Nat.add_0_r. repeat split; auto; lia.
  - destruct (processNextCommand_dispatch s1 c q P1 P2 P3)
      as (D1 & D2 & D3 & D4 & D5).
    cbn zeta in *.
    unfold dispatched, idleOk, pending, busy.
    rewrite D1, D2, D3, D4, D5, P4, P5, length_app. cbn [length].
    replace (length (settlements s) + 1) with (S (length (settlements s)))
      in * by lia.
    rewrite Hs.
    destruct (skipn_cons_firstn hist _ c q Hs) as (Hf' & _ & Hlt').
    replace (S (length (settlements s)) + 1)
      with (S (S (length (settlements s)))) by lia.
    rewrite Hf', flat_map_app, <- Hin. cbn [flat_map].
    rewrite app_nil_r. repeat split; auto; try discriminate; try lia.
Qed.

Lemma step_dispatched (hist : list AiderCommand) (s : AiderService)
  (e : event) :
  isRunningEvent e = true ->
  dispatched hist s ->
  dispatched (hist ++ executed [e]) (step s e).
Proof.
  destruct e as [c|c|data|n|]; intros He Hs; try discriminate;
    cbn [step executed flat_map app]; rewrite ?app_nil_r.
  - destruct Hs as (Hp & Hidle & Hpend & Hlen & Hin).
    unfold executor.
    destruct s as [cfg pr queue cur buf inp tm st].
    unfold idleOk, pending, busy in *.
    cbn [aiderProcess currentCommand commandQueue settlements stdin config
           outputBuffer timers] in *.
    subst pr.
    destruct cur as [cur|].
    + rewrite processNextCommand_nothing by (left; cbn; discriminate).
      symmetry in Hpend.
      destruct (skipn_cons_firstn hist _ cur _ Hpend) as (_ & _ & Hlt).
      unfold dispatched, idleOk, pending, busy.
      cbn [aiderProcess currentCommand commandQueue settlements stdin].
      rewrite skipn_app, Hpend, Hin.
      replace (length st - length hist) with 0 by lia.
      rewrite firstn_app.
      replace (length st + 1 - length hist) with 0 by lia.
      cbn [firstn skipn]. rewrite app_nil_r.
      repeat split; auto; try discriminate.
      rewrite length_app; cbn; lia.
    + specialize (Hidle eq_refl). subst queue.
      rewrite Nat.add_0_r in Hin.
      assert (Hall : length st = length hist).
      { assert (H : length (skipn (length st) hist) = 0)
          by now rewrite <- Hpend.
        rewrite length_skipn in H. lia. }
      destruct (processNextCommand_dispatch
                  (mkService cfg true ([] ++ [c]) None buf inp tm st) c [])
        as (D1 & D2 & D3 & D4 & D5); try reflexivity.
      cbn zeta in *.
      unfold dispatched, idleOk, pending, busy.
      rewrite D1, D2, D3, D4, D5.
      cbn [aiderProcess currentCommand commandQueue settlements stdin].
      rewrite Hin, Hall, firstn_all.
      rewrite skipn_app, skipn_all, Nat.sub_diag.
      rewrite firstn_app.
      replace (length hist + 1 - length hist) with 1 by lia.
      rewrite firstn_all2 by lia. cbn [firstn skipn app].
      rewrite flat_map_app. cbn [flat_map]. rewrite app_nil_r.
      repeat split; auto; try discriminate.
      rewrite length_app; cbn; lia.
  - unfold handleOutput.
    match goal with |- context [if ?b then _ else _] => destruct b end.
    + apply completeCurrentCommand_dispatched.
      destruct s; exact Hs.
    + destruct s; exact Hs.
  - unfold timeoutFires.
    destruct (nth_error (timers s) n); [|exact Hs].
    match goal with |- context [if ?b then _ else _] => destruct b end.
    + apply completeCurrentCommand_dispatched.
      destruct s; exact Hs.
    + destruct s; exact Hs.
Qed.

(** X19.  One command at a time, in order: while the child runs, what has
    been written to it is the lines of the commands settled so far and of
    the one in flight, in the order of their execution.  The instruction
    of a command is written only when every command executed before it
    is settled. *)
Theorem child_is_written_one_command_at_a_time (es : list event)
  (config : Config) :
  forallb isRunningEvent es = true ->
  let s := run (mkService config true [] None [] [] [] []) es in
  stdin s
  = flat_map linesOf
      (firstn (length (settlements s) + busy s) (executed es))
  /\ pending s = skipn (length (settlements s)) (executed es).
Proof.
  intros Hes.
  assert (H : forall hist s0,
             dispatched hist s0 ->
             dispatched (hist ++ executed es) (run s0 es)).
  { clear config. induction es as [|e es IH]; intros hist s0 H0.
    - cbn. now rewrite app_nil_r.
    - cbn [forallb] in Hes. apply andb_true_iff in Hes as [He Hes'].
      change (run s0 (e :: es)) with (run (step s0 e) es).
      replace (hist ++ executed (e :: es))
        with ((hist ++ executed [e]) ++ executed es).
      + apply (IH Hes'). now apply step_dispatched.
      + rewrite <- app_assoc. f_equal.
        unfold executed. cbn [flat_map]. now rewrite app_nil_r. }
  specialize (H [] (mkService config true [] None [] [] [] [])).
  cbn [app] in H.
  destruct H as (_ & _ & Hpend & _ & Hin).
  - unfold dispatched, idleOk, pending, busy. cbn. auto.
  - cbn zeta. split; [exact Hin|exact Hpend].
Qed.

End Dispatch.

(** X19 on a command with a file, then two without, the first completed. *)
Lemma child_is_written_one_command_at_a_time_witness :
  let es :=
    [Aider.Execute QueueTraces.cmdC; Aider.Execute QueueTraces.cmdA;
     Aider.Execute QueueTraces.cmdB; Aider.Output (u16 "> ")] in
  let s := Aider.run QueueTraces.ready es in
  (Aider.stdin s
   = flat_map QueueFacts.linesOf
       (firstn (length (Aider.settlements s) + QueueFacts.busy s)
          (QueueFacts.executed es))
   /\ Aider.pending s
      = skipn (length (Aider.settlements s)) (QueueFacts.executed es))
  /\ Aider.stdin s
     = [u16 "/add c.ts" ++ [10%N]; u16 "fix c" ++ [10%N];
        u16 "fix a" ++ [10%N]]
  /\ Aider.pending s = [QueueTraces.cmdA; QueueTraces.cmdB].
Proof.
  intros es s. split.
  - exact (child_is_written_one_command_at_a_time es QueueTraces.someConfig
             eq_refl).
  - split; reflexivity.
Defined.

(** ** Prompts *)

Section Prompt.

Import Anthropic Base.

Variable ToString_other : value -> jsstring.

Lemma join_empty_sep (l : list jsstring) : join [] l = concat l.
Proof.
  induction l as [|x l IH]; [reflexivity|].
  cbn [join concat]. destruct l as [|y l].
  - now rewrite app_nil_r.
  - cbn [app]. now rewrite IH.
Qed.

Lemma mapParts_encoded (ps : list PartKind) :
  mapParts ToString_other (map encodePart ps)
  = Ok (map (fun p => VString (renderPart p)) ps).
Proof.
  induction ps as [|p ps IH]; [reflexivity|].
  cbn [map mapParts]. rewrite IH.
  destruct p as [s|text|name args|name response]; try reflexivity.
  destruct text; reflexivity.
Qed.

Lemma contentToString_encoded (c : jsstring * option (list PartKind)) :
  contentToString ToString_other (encodeContent c) = Ok (renderContent c).
Proof.
  destruct c as [role [ps|]]; [|reflexivity].
  unfold encodeContent, renderContent, contentToString. cbn [fst snd].
  change (get_prop (VObject [(u16 "role", VString role);
                             (u16 "parts", VArray (map encodePart ps))])
            (u16 "parts"))
    with (Some (VArray (map encodePart ps))).
  cbn [truthy]. rewrite mapParts_encoded.
  unfold joinValues. rewrite map_map. cbn [ToString].
  now rewrite join_empty_sep.
Qed.

Lemma contentsToString_encoded
  (contents : list (jsstring * option (list PartKind))) :
  contentsToString ToString_other (map encodeContent contents)
  = Ok (join [10%N] (map renderContent contents)).
Proof.
  unfold contentsToString.
  assert (H : mapContents ToString_other (map encodeContent contents)
              = Ok (map renderContent contents)).
  { induction contents as [|c cs IH]; [reflexivity|].
    cbn [map mapContents]. now rewrite contentToString_encoded, IH. }
  now rewrite H.
Qed.

(** X20.  Contents are rendered part by part: a text verbatim, a function
    call as its name in brackets, a function response as a fixed mark;
    the parts of a content follow each other directly, the contents are
    separated by a line feed, and a content without parts is an empty
    line. *)
Theorem contentsToString_renders_parts
  (contents : list (jsstring * option (list PartKind))) :
  contentsToString ToString_other (map encodeContent contents)
  = Ok (join [10%N] (map renderContent contents)).
Proof. apply contentsToString_encoded. Qed.

(** X21.  A prompt given as a string, as one user content with that text, or
    as the array of that one content, is the same text prompt. *)
Theorem prompt_forms_agree (t : jsstring) :
  let content := encodeContent (u16 "user", Some [TextKind t]) in
  textPrompt ToString_other (extractPrompt ToString_other (VString t)) = Ok t
  /\ textPrompt ToString_other (extractPrompt ToString_other content) = Ok t
  /\ textPrompt ToString_other
       (extractPrompt ToString_other (VArray [content])) = Ok t.
Proof.
  intros content. split; [reflexivity|].
  assert (H : contentsToString ToString_other [content] = Ok t).
  { pose proof (contentsToString_encoded
                  [(u16 "user", Some [TextKind t])]) as Hr.
    cbn [map join renderContent snd concat renderPart] in Hr.
    rewrite app_nil_r in Hr. exact Hr. }
  split; exact H.
Qed.

(** X22.  The estimate is the least number of tokens of four characters that
    hold the prompt: none for the empty prompt, and never fewer for a
    longer prompt. *)
Theorem countTokens_bounds (text : jsstring) :
  length text <= 4 * countTokens text < length text + 4
  /\ (countTokens text = 0 <-> text = [])
  /\ forall more, countTokens text <= countTokens (text ++ more).
Proof.
  assert (Hb : forall n, n <= 4 * ceilQuarter n < n + 4).
  { intros n. unfold ceilQuarter.
    pose proof (Nat.div_mod_eq n 4) as Hd.
    pose proof (Nat.mod_upper_bound n 4 ltac:(lia)) as Hm.
    destruct (Nat.eqb_spec (n mod 4) 0); lia. }
  unfold countTokens. split; [apply Hb|]. split.
  - split.
    + intros H. pose proof (Hb (length text)) as Hl. rewrite H in Hl.
      destruct text; [reflexivity|cbn in Hl; lia].
    + now intros ->.
  - intros more. rewrite length_app.
    pose proof (Hb (length text)). pose proof (Hb (length text + length more)).
    lia.
Qed.

End Prompt.

(** ** Tool declarations *)

Section ConvertTools.

Import Anthropic Tools.

Lemma convertDeclarations_encoded (decls : list Declaration) :
  convertDeclarations (map encodeDeclaration decls)
  = Ok (map toolOfDeclaration decls).
Proof.
  induction decls as [|d ds IH]; [reflexivity|].
  cbn [map convertDeclarations]. rewrite IH.
  destruct d as [name description [[properties required]|]];
    [|reflexivity].
  unfold convertDeclaration, encodeDeclaration, toolOfDeclaration.
  cbn. now destruct required.
Qed.

Lemma convertToolList_encoded (tools : list (list Declaration)) :
  convertToolList (map encodeTool tools)
  = Ok (map toolOfDeclaration (concat tools)).
Proof.
  induction tools as [|t ts IH]; [reflexivity|].
  cbn [map convertToolList concat]. rewrite IH.
  unfold convertTool, encodeTool.
  change (get_prop
            (VObject [(u16 "functionDeclarations",
                       VArray (map encodeDeclaration t))])
            (u16 "functionDeclarations"))
    with (Some (VArray (map encodeDeclaration t))).
  cbn [truthy iterate]. rewrite convertDeclarations_encoded.
  now rewrite map_app.
Qed.

(** X23.  [convertTools] gives one tool for each function declaration, in the
    order of the declarations across the tools, with the name, the
    description, the properties and the required names of the
    declaration, and an empty schema for a declaration without one; it
    gives [undefined] when there is no tool at all. *)
Theorem convertTools_keeps_declarations (tools : list (list Declaration)) :
  convertTools (VArray (map encodeTool tools))
  = Ok match tools with
       | [] => None
       | _ :: _ => Some (map toolOfDeclaration (concat tools))
       end
  /\ convertTools VUndefined = Ok None.
Proof.
  split; [|reflexivity].
  destruct tools as [|t ts]; [reflexivity|].
  unfold convertTools.
  change (negb (truthy (VArray (map encodeTool (t :: ts))))
          || lengthIsZero (VArray (map encodeTool (t :: ts))))
    with false.
  cbn [iterate]. now rewrite convertToolList_encoded.
Qed.

End ConvertTools.
